(** * Zookeeper's Challenge: a shallow embedding of [zookeeper_challenge.cpp]

    The program reads a pool of names and a list of arrival sentences, builds
    one animal per sentence and prints a report grouped by habitat.  The
    embedding follows the C++ source function by function:

    - [std::string] is [string], a [char] is [ascii];
    - [int] is a [Z] in the range of a 32-bit signed integer; signed overflow,
      which C++ leaves undefined, is the explicit outcome [Undefined];
    - a thrown exception is the outcome [Throw];
    - [std::map<std::string, V>] is [gmap string V];
    - a [std::istringstream] is the text still to be read and its fail bit;
    - a file is its text, and [main] is a function from the files it reads
      to the exit status, the report file and the two output streams.

    The embedding comes first, then the vocabulary in which the properties
    are stated, then the properties with their proofs. *)

From Stdlib Require Import ZArith Ascii String List Lia Bool.
From stdpp Require Import gmap strings list fin_maps.

Local Open Scope Z_scope.

(** ** Outcomes of a computation *)

Inductive exception : Type :=
  | runtime_error (what_arg : string)
  | invalid_argument (what_arg : string)
  | out_of_range (what_arg : string).

Definition what (ex : exception) : string :=
  match ex with
  | runtime_error w | invalid_argument w | out_of_range w => w
  end.

Inductive outcome (A : Type) : Type :=
  | Ok (a : A)
  | Throw (ex : exception)
  | Undefined.

Arguments Ok {A} a.
Arguments Throw {A} ex.
Arguments Undefined {A}.

#[global] Instance outcome_bind : MBind outcome := λ A B k m,
  match m with
  | Ok a => k a
  | Throw ex => Throw ex
  | Undefined => Undefined
  end.

#[global] Instance outcome_ret : MRet outcome := λ A a, Ok a.

(** ** The type [int] *)

Definition INT_MAX : Z := 2147483647.
Definition INT_MIN : Z := -2147483648.

Definition in_int (z : Z) : bool := (INT_MIN <=? z) && (z <=? INT_MAX).

(** Arithmetic on [int]: a result outside the range is undefined behaviour. *)
Definition int_checked (z : Z) : outcome Z :=
  if in_int z then Ok z else Undefined.

(** ** Characters and [std::string] members *)

Definition isspace (ch : ascii) : bool :=
  let n := nat_of_ascii ch in
  Nat.eqb n 32 || (Nat.leb 9 n && Nat.leb n 13).

Definition isdigit (ch : ascii) : bool :=
  let n := nat_of_ascii ch in
  Nat.leb 48 n && Nat.leb n 57.

Definition tolower (ch : ascii) : ascii :=
  let n := nat_of_ascii ch in
  if Nat.leb 65 n && Nat.leb n 90 then ascii_of_nat (n + 32) else ch.

Definition digit_val (ch : ascii) : Z := Z.of_nat (nat_of_ascii ch) - 48.

Definition digit_char (d : Z) : ascii := ascii_of_nat (Z.to_nat (48 + d)).

Fixpoint starts_with (pat s : string) : bool :=
  match pat, s with
  | EmptyString, _ => true
  | String p pat', String c s' => Ascii.eqb p c && starts_with pat' s'
  | String _ _, EmptyString => false
  end.

(** [s.find(pat)]: the first position where [pat] occurs, [None] for [npos]. *)
Fixpoint find (pat s : string) : option nat :=
  if starts_with pat s then Some 0%nat
  else match s with
       | EmptyString => None
       | String _ s' => S <$> find pat s'
       end.

(** [s.substr(pos, count)] and [s.substr(pos)]; every call in the program has
    [pos] within the string, where neither throws. *)
Definition substr (pos count : nat) (s : string) : string :=
  String.substring pos count s.

Fixpoint substr_from (pos : nat) (s : string) : string :=
  match pos, s with
  | O, _ => s
  | S pos', String _ s' => substr_from pos' s'
  | S _, EmptyString => EmptyString
  end.

(** [s.erase(0, count)]. *)
Definition erase_front (count : nat) (s : string) : string := substr_from count s.

Definition empty (s : string) : bool :=
  match s with EmptyString => true | String _ _ => false end.

Fixpoint string_rev_onto (s acc : string) : string :=
  match s with
  | EmptyString => acc
  | String c s' => string_rev_onto s' (String c acc)
  end.

(** How many characters [std::find_if_not] steps over before the first
    character that is not white space. *)
Fixpoint leading_spaces (s : string) : nat :=
  match s with
  | String c s' => if isspace c then S (leading_spaces s') else O
  | EmptyString => O
  end.

(** ** Text utilities *)

Definition trim (input : string) : string :=
  let first := leading_spaces input in
  let last := (String.length input - leading_spaces (string_rev_onto input ""))%nat in
  if Nat.leb last first then ""
  else substr first (last - first) input.

Fixpoint toLower (value : string) : string :=
  match value with
  | EmptyString => EmptyString
  | String ch rest => String (tolower ch) (toLower rest)
  end.

(** The [while] loop of [split].  Each turn removes at least the delimiter
    from [remaining]; [None] is a loop that has not finished within [fuel]
    turns. *)
Fixpoint split_loop (fuel : nat) (remaining delimiter : string)
    (tokens : list string) : option (list string) :=
  match fuel with
  | O => None
  | S fuel' =>
      match find delimiter remaining with
      | Some pos =>
          split_loop fuel'
            (erase_front (pos + String.length delimiter) remaining) delimiter
            (tokens ++ [substr 0 pos remaining])
      | None =>
          Some (if empty remaining then tokens else tokens ++ [remaining])
      end
  end.

Definition split (value delimiter : string) : list string :=
  default [] (split_loop (S (String.length value)) value delimiter []).

(** ** Formatted input: [std::istringstream]

    Only the fail bit is kept: the end-of-file bit changes nothing that the
    program can observe, since an extraction at the end of the text fails
    whether or not the bit was set before. *)

Record istringstream : Type := mkStream { buffer : string; failbit : bool }.

Definition open_stream (text : string) : istringstream :=
  {| buffer := text; failbit := false |}.

Fixpoint skipws (s : string) : string :=
  match s with
  | String c s' => if isspace c then skipws s' else s
  | EmptyString => EmptyString
  end.

Fixpoint read_digits (acc : Z) (s : string) : Z * string :=
  match s with
  | String c s' =>
      if isdigit c then read_digits (10 * acc + digit_val c) s' else (acc, s)
  | EmptyString => (acc, s)
  end.

(** An optional sign and at least one decimal digit, as [num_get] and
    [strtol] in base 10 accept them: the value read and the text left. *)
Definition scan_int (s : string) : option (Z * string) :=
  let '(negative, body) :=
    match s with
    | String c t =>
        if Ascii.eqb c "-" then (true, t)
        else if Ascii.eqb c "+" then (false, t)
        else (false, s)
    | EmptyString => (false, s)
    end in
  match body with
  | String c _ =>
      if isdigit c then
        let '(v, rest) := read_digits 0 body in
        Some (if negative then - v else v, rest)
      else None
  | EmptyString => None
  end.

(** [ss >> n] for an [int]: a stream that has failed is left alone; at the
    end of the text the sentry fails and [n] keeps its value; without a digit
    [n] becomes 0; a value out of range is clamped; all three set the fail bit. *)
Definition extract_int (old : Z) (ss : istringstream) : Z * istringstream :=
  if failbit ss then (old, ss)
  else
    let text := skipws (buffer ss) in
    if empty text then (old, mkStream text true)
    else
      match scan_int text with
      | None => (0, mkStream text true)
      | Some (v, rest) =>
          if v <? INT_MIN then (INT_MIN, mkStream rest true)
          else if INT_MAX <? v then (INT_MAX, mkStream rest true)
          else (v, mkStream rest false)
      end.

(** [ss >> ch] for a [char]. *)
Definition extract_char (old : ascii) (ss : istringstream) : ascii * istringstream :=
  if failbit ss then (old, ss)
  else
    match skipws (buffer ss) with
    | String c rest => (c, mkStream rest false)
    | EmptyString => (old, mkStream EmptyString true)
    end.

Fixpoint read_word (s : string) : string * string :=
  match s with
  | String c s' =>
      if isspace c then (EmptyString, s)
      else let '(w, rest) := read_word s' in (String c w, rest)
  | EmptyString => (EmptyString, EmptyString)
  end.

(** [ss >> word] for a [std::string]. *)
Definition extract_string (old : string) (ss : istringstream) : string * istringstream :=
  if failbit ss then (old, ss)
  else
    let text := skipws (buffer ss) in
    if empty text then (old, mkStream text true)
    else let '(w, rest) := read_word text in (w, mkStream rest false).

(** ** Formatted output: [operator<<] for an integer *)

Fixpoint digits_go (fuel : nat) (n : Z) (acc : string) : string :=
  match fuel with
  | O => acc
  | S fuel' =>
      let acc' := String (digit_char (n mod 10)) acc in
      if n <? 10 then acc' else digits_go fuel' (n / 10) acc'
  end.

(** The decimal digits of [n >= 0]; [n] has at most [log2 n + 1] of them. *)
Definition decimal (n : Z) : string :=
  digits_go (S (Z.to_nat (Z.log2 n))) n EmptyString.

Definition show_int (n : Z) : string :=
  if n <? 0 then String "-" (decimal (- n)) else decimal n.

Fixpoint fill_string (count : nat) (fill : ascii) : string :=
  match count with
  | O => EmptyString
  | S count' => String fill (fill_string count' fill)
  end.

(** [out << std::setw(width) << std::setfill(fill) << text]: the stream is
    right-adjusted, so the fill goes in front, and a text longer than [width]
    is written in full. *)
Definition setw_fill (width : nat) (fill : ascii) (text : string) : string :=
  fill_string (width - String.length text) fill +:+ text.

(** ** Date utilities *)

Record Date : Type := mkDate { year : Z; month : Z; day : Z }.

Definition parseIsoDate (value : string) : outcome Date :=
  let ss := open_stream value in
  let '(y, ss) := extract_int 0 ss in
  let '(dash1, ss) := extract_char zero ss in
  let '(m, ss) := extract_int 0 ss in
  let '(dash2, ss) := extract_char zero ss in
  let '(d, ss) := extract_int 0 ss in
  if failbit ss || negb (Ascii.eqb dash1 "-") || negb (Ascii.eqb dash2 "-")
  then Throw (runtime_error ("Invalid ISO date: " +:+ value))
  else Ok {| year := y; month := m; day := d |}.

Definition formatIsoDate (date : Date) : string :=
  setw_fill 4 "0" (show_int (year date)) +:+ "-" +:+
  setw_fill 2 "0" (show_int (month date)) +:+ "-" +:+
  setw_fill 2 "0" (show_int (day date)).

Definition seasonToDate : gmap string (Z * Z) :=
  list_to_map
    [("spring", (3, 15)); ("summer", (6, 15)); ("fall", (9, 15));
     ("autumn", (9, 15)); ("winter", (12, 15))].

Definition genBirthDay (age : Z) (season arrivalDate : string) : outcome string :=
  arrival ← parseIsoDate arrivalDate;
  birthYear ← int_checked (year arrival - age);
  let normalizedSeason := toLower season in
  let birthDate :=
    match seasonToDate !! normalizedSeason with
    | Some (m, d) => {| year := birthYear; month := m; day := d |}
    | None => {| year := birthYear; month := month arrival; day := day arrival |}
    end in
  Ok (formatIsoDate birthDate).

(** ** Identifiers *)

Definition speciesPrefix (species : string) : outcome string :=
  let lowered := toLower species in
  if String.eqb lowered "hyena" then Ok "Hy"
  else if String.eqb lowered "lion" then Ok "Li"
  else if String.eqb lowered "tiger" then Ok "Ti"
  else if String.eqb lowered "bear" then Ok "Be"
  else Throw (runtime_error ("Unsupported species: " +:+ species)).

(** [counters[prefix]] creates the counter at 0 when it is missing, [++]
    adds one and the map keeps the new value. *)
Definition genUniqueId (species : string) (counters : gmap string Z)
    : outcome (string * gmap string Z) :=
  prefix ← speciesPrefix species;
  next ← int_checked (default 0 (counters !! prefix) + 1);
  Ok (prefix +:+ setw_fill 2 "0" (show_int next), <[prefix := next]> counters).

(** ** [std::map::operator[]]

    Looking a key up with [m[key]] creates the entry, with the value type's
    default, when the key is missing.  The result is the value found and the
    map as the lookup leaves it. *)
Definition map_at {V : Type} (key : string) (dflt : V) (m : gmap string V)
    : V * gmap string V :=
  match m !! key with
  | Some v => (v, m)
  | None => (dflt, <[key := dflt]> m)
  end.

(** ** The animal hierarchy

    One record for the base class; [kind] is the dynamic type, which selects
    the two virtual functions. *)

Inductive AnimalKind : Type := Hyena | Lion | Tiger | Bear.

Record Animal : Type := mkAnimal {
  kind : AnimalKind;
  name_ : string;
  species_ : string;
  uniqueId_ : string;
  age_ : Z;
  sex_ : string;
  color_ : string;
  weight_ : Z;
  origin_ : string;
  arrivalDate_ : string;
  birthDate_ : string;
  socialGroup_ : string
}.

Definition className (k : AnimalKind) : string :=
  match k with
  | Hyena => "Hyena" | Lion => "Lion" | Tiger => "Tiger" | Bear => "Bear"
  end.

(** The constructors of the four subclasses: each forwards to [Animal] with
    its class name as species and then records the social group. *)
Definition make_animal (k : AnimalKind) (name uniqueId : string) (age : Z)
    (sex color : string) (weight : Z) (origin arrivalDate birthDate group : string)
    : Animal :=
  {| kind := k; name_ := name; species_ := className k; uniqueId_ := uniqueId;
     age_ := age; sex_ := sex; color_ := color; weight_ := weight;
     origin_ := origin; arrivalDate_ := arrivalDate; birthDate_ := birthDate;
     socialGroup_ := group |}.

Definition habitatName (a : Animal) : string :=
  match kind a with
  | Hyena => "Hyena Habitat"
  | Lion => "Lion Habitat"
  | Tiger => "Tiger Habitat"
  | Bear => "Bear Habitat"
  end.

Definition socialGroupLabel (a : Animal) : string :=
  match kind a with
  | Hyena => "Clan: " +:+ socialGroup_ a
  | Lion => "Pride: " +:+ socialGroup_ a
  | Tiger => "Ambush: " +:+ socialGroup_ a
  | Bear => "Sleuth: " +:+ socialGroup_ a
  end.

Definition reportLine (a : Animal) : string :=
  uniqueId_ a +:+ "; " +:+ name_ a +:+ "; birth date " +:+ birthDate_ a +:+ "; "
  +:+ color_ a +:+ " color; " +:+ sex_ a +:+ "; " +:+ show_int (weight_ a)
  +:+ " pounds; from " +:+ origin_ a +:+ "; arrived " +:+ arrivalDate_ a.

(** ** Files and names *)

Definition newline : ascii := "010"%char.

(** The lines that successive [std::getline] calls read from a text, until
    the call that finds nothing left. *)
Fixpoint getlines (text : string) : list string :=
  match text with
  | EmptyString => []
  | String c text' =>
      if Ascii.eqb c newline then EmptyString :: getlines text'
      else match getlines text' with
           | [] => [String c EmptyString]
           | l :: ls => String c l :: ls
           end
  end.

(** A [while (std::getline(..))] loop whose body may throw. *)
Fixpoint for_each_line {S : Type} (body : string → S → outcome S)
    (lines : list string) (st : S) : outcome S :=
  match lines with
  | [] => Ok st
  | line :: rest => st' ← body line st; for_each_line body rest st'
  end.

Definition loadNameLine (line : string) (names : gmap string (list string))
    : outcome (gmap string (list string)) :=
  let line := trim line in
  if empty line then Ok names
  else
    match find ":" line with
    | None => Throw (runtime_error ("Expected ':' in name line: " +:+ line))
    | Some colonPos =>
        let species := toLower (trim (substr 0 colonPos line)) in
        let values := trim (substr_from (colonPos + 1) line) in
        let tokens := split values "," in
        let trimmedTokens :=
          List.filter (λ cleaned, negb (empty cleaned)) (List.map trim tokens) in
        Ok (<[species := trimmedTokens]> names)
    end.

(** [input] is the text of the file at [path], [None] when it cannot be
    opened. *)
Definition loadAnimalNames (path : string) (input : option string)
    : outcome (gmap string (list string)) :=
  match input with
  | None => Throw (runtime_error ("Unable to open name file: " +:+ path))
  | Some text => for_each_line loadNameLine (getlines text) ∅
  end.

Definition popNextName (names : gmap string (list string)) (speciesKey : string)
    : string * gmap string (list string) :=
  let '(pool, names) := map_at speciesKey [] names in
  match pool with
  | next :: rest => (next, <[speciesKey := rest]> names)
  | [] => ("Unnamed " +:+ speciesKey, names)
  end.

Definition groups : gmap string (list string) :=
  list_to_map
    [("hyena", ["Motto Clan"; "Serengeti Clan"; "Savannah Clan"; "Spotted Clan"]);
     ("lion", ["Golden Pride"; "Savanna Pride"; "Sunset Pride"; "River Pride"]);
     ("tiger", ["Ember Ambush"; "Jungle Ambush"; "River Ambush"; "Shadow Ambush"]);
     ("bear", ["Highland Sleuth"; "Forest Sleuth"; "Mountain Sleuth"; "Valley Sleuth"])].

(** [index % size] truncates toward zero, as [Z.rem] does; a negative index
    leaves the vector, which is undefined. *)
Definition selectSocialGroup (speciesKey : string) (index : Z) : outcome string :=
  match groups !! speciesKey with
  | None => Ok "Unknown"
  | Some [] => Ok "Unknown"
  | Some options =>
      let i := Z.rem index (Z.of_nat (length options)) in
      if i <? 0 then Undefined
      else match options !! Z.to_nat i with
           | Some group => Ok group
           | None => Undefined
           end
  end.

(** ** The record parser *)

Record ParsedAnimalRow : Type := mkRow {
  arrivalDate : string;
  age : Z;
  sex : string;
  species : string;
  birthSeason : string;
  color : string;
  weight : Z;
  origin : string
}.

(** [std::stoi]: [strtol] in base 10 over the text, which may start with
    white space and a sign; what follows the digits is ignored.  The text of
    [what()] is left to the library: "stoi" is what libstdc++ gives. *)
Definition stoi (text : string) : outcome Z :=
  match scan_int (skipws text) with
  | None => Throw (invalid_argument "stoi")
  | Some (v, _) => if in_int v then Ok v else Throw (out_of_range "stoi")
  end.

(** Part 1: the age, two words that are read and dropped, the sex and the
    species; the stream's fail bit after the five extractions. *)
Definition parseAgeSexSpecies (part : string) : Z * string * string * bool :=
  let ss := open_stream part in
  let '(age, ss) := extract_int 0 ss in
  let '(yearToken, ss) := extract_string "" ss in
  let '(oldToken, ss) := extract_string "" ss in
  let '(sex, ss) := extract_string "" ss in
  let '(species, ss) := extract_string "" ss in
  (age, toLower sex, toLower species, failbit ss).

(** Part 2: the birth season. *)
Definition parseSeason (part : string) : string :=
  let seasonSection := toLower part in
  let birthSeason :=
    match find "born in" seasonSection with
    | Some _ =>
        let ss := open_stream seasonSection in
        let '(bornToken, ss) := extract_string "" ss in
        let '(inToken, ss) := extract_string "" ss in
        let '(season, ss) := extract_string "" ss in
        season
    | None => trim part
    end in
  if empty birthSeason then "unknown" else birthSeason.

(** Part 3: the colour. *)
Definition parseColor (part : string) : string :=
  let colorSection := toLower part in
  match find " color" colorSection with
  | Some colorPos => trim (substr 0 colorPos part)
  | None => trim part
  end.

(** Part 4: the weight. *)
Definition parseWeight (part : string) : outcome Z :=
  let weightSection :=
    match find " " part with
    | Some spacePos => substr 0 spacePos part
    | None => part
    end in
  stoi weightSection.

(** Parts 5 and later: the origin. *)
Definition parseOrigin (rest : list string) : string :=
  let origin :=
    fold_left
      (λ origin part,
         (if empty origin then origin else origin +:+ ", ") +:+ part)
      rest "" in
  let prefix := "from " in
  let origin :=
    if starts_with prefix (toLower origin)
    then substr_from (String.length prefix) origin
    else origin in
  trim origin.

Definition parseArrivalRow (line : string) : outcome ParsedAnimalRow :=
  let parts := split line ", " in
  if (length parts <? 6)%nat
  then Throw (runtime_error ("Malformed arrival entry: " +:+ line))
  else
    let arrivalDate := trim (nth 0 parts "") in
    let '(age, sex, species, failed) := parseAgeSexSpecies (nth 1 parts "") in
    if failed
    then Throw (runtime_error
                  ("Unable to parse age/sex/species segment: " +:+ nth 1 parts ""))
    else
      let birthSeason := parseSeason (nth 2 parts "") in
      let color := parseColor (nth 3 parts "") in
      weight ← parseWeight (nth 4 parts "");
      let origin := parseOrigin (drop 5 parts) in
      Ok {| arrivalDate := arrivalDate; age := age; sex := sex;
            species := species; birthSeason := birthSeason; color := color;
            weight := weight; origin := origin |}.

(** ** The pipeline of [main] *)

Record Zoo : Type := mkZoo {
  names : gmap string (list string);
  animals : list Animal;
  animalsByHabitat : gmap string (list Animal);
  idCounters : gmap string Z;
  speciesCounts : gmap string Z
}.

(** The subtype created for a species.  The entities are never changed once
    built, so the non-owning pointer that [animalsByHabitat] keeps is
    modelled by the entity it points to. *)
Definition createAnimal (row : ParsedAnimalRow) (name uniqueId birthDate group : string)
    : outcome Animal :=
  let make k :=
    make_animal k name uniqueId (age row) (sex row) (color row) (weight row)
      (origin row) (arrivalDate row) birthDate group in
  if String.eqb (species row) "hyena" then Ok (make Hyena)
  else if String.eqb (species row) "lion" then Ok (make Lion)
  else if String.eqb (species row) "tiger" then Ok (make Tiger)
  else if String.eqb (species row) "bear" then Ok (make Bear)
  else Throw (runtime_error ("Encountered unsupported species: " +:+ species row)).

(** The body of the loop over the arrivals file. *)
Definition processArrival (line : string) (zoo : Zoo) : outcome Zoo :=
  let line := trim line in
  if empty line then Ok zoo
  else
    row ← parseArrivalRow line;
    '(uniqueId, idCounters) ← genUniqueId (species row) (idCounters zoo);
    let '(name, names) := popNextName (names zoo) (species row) in
    birthDate ← genBirthDay (age row) (birthSeason row) (arrivalDate row);
    let '(index, speciesCounts) := map_at (species row) 0 (speciesCounts zoo) in
    group ← selectSocialGroup (species row) index;
    created ← createAnimal row name uniqueId birthDate group;
    count ← int_checked (index + 1);
    let speciesCounts := <[species row := count]> speciesCounts in
    let '(occupants, animalsByHabitat) :=
      map_at (habitatName created) [] (animalsByHabitat zoo) in
    let animalsByHabitat :=
      <[habitatName created := occupants ++ [created]]> animalsByHabitat in
    Ok {| names := names; animals := animals zoo ++ [created];
          animalsByHabitat := animalsByHabitat; idCounters := idCounters;
          speciesCounts := speciesCounts |}.

Definition habitatOrder : list string :=
  ["Hyena Habitat"; "Lion Habitat"; "Tiger Habitat"; "Bear Habitat"].

Definition endl : string := String newline EmptyString.

(** One turn of the rendering loop: the text written so far and the habitat
    index, which both uses of [animalsByHabitat[habitat]] go through. *)
Definition renderHabitat (habitat : string)
    (st : string * gmap string (list Animal)) : string * gmap string (list Animal) :=
  let '(report, index) := st in
  let '(counted, index) := map_at habitat [] index in
  let report :=
    report +:+ habitat +:+ " (" +:+ decimal (Z.of_nat (length counted)) +:+ ")" +:+ endl in
  let '(occupants, index) := map_at habitat [] index in
  let report :=
    fold_left
      (λ report animal,
         report +:+ "  - " +:+ reportLine animal +:+ " | "
         +:+ socialGroupLabel animal +:+ endl)
      occupants report in
  (report +:+ endl, index).

Definition renderReport (index : gmap string (list Animal))
    : string * gmap string (list Animal) :=
  fold_left (λ st habitat, renderHabitat habitat st) habitatOrder (EmptyString, index).

(** The files the program touches: the text of each input file ([None] when
    it cannot be opened) and whether the report can be opened for writing. *)
Record Files : Type := mkFiles {
  namesFile : option string;
  arrivalsFile : option string;
  reportWritable : bool
}.

Definition namesPath : string := "data/animalNames.txt".
Definition arrivalsPath : string := "data/arrivingAnimals.txt".
Definition reportPath : string := "zooPopulation.txt".

Definition emptyZoo (names : gmap string (list string)) : Zoo :=
  {| names := names; animals := []; animalsByHabitat := ∅;
     idCounters := ∅; speciesCounts := ∅ |}.

(** The [try] block: what it leaves in the report file ([None] when the file
    was never opened for writing) and either the text for [std::cout] or the
    exception that left the block. *)
Definition main_try (fs : Files) : option string * outcome string :=
  match loadAnimalNames namesPath (namesFile fs) with
  | Ok names =>
      match arrivalsFile fs with
      | None =>
          (None, Throw (runtime_error ("Unable to open arrivals file: " +:+ arrivalsPath)))
      | Some text =>
          match for_each_line processArrival (getlines text) (emptyZoo names) with
          | Ok zoo =>
              if reportWritable fs then
                let '(report, _) := renderReport (animalsByHabitat zoo) in
                (Some report,
                 Ok ("Zoo population report written to " +:+ reportPath +:+ endl))
              else
                (None,
                 Throw (runtime_error
                          ("Unable to open report for writing: " +:+ reportPath)))
          | Throw ex => (None, Throw ex)
          | Undefined => (None, Undefined)
          end
      end
  | Throw ex => (None, Throw ex)
  | Undefined => (None, Undefined)
  end.

(** What one run of the program leaves behind. *)
Record Run : Type := mkRun {
  exit_status : Z;
  reportFile : option string;
  cout : string;
  cerr : string
}.

(** [main]: the [catch] clause turns every exception into exit status 1;
    [None] is a run that met undefined behaviour. *)
Definition main (fs : Files) : option Run :=
  match main_try fs with
  | (file, Ok out) =>
      Some {| exit_status := 0; reportFile := file; cout := out; cerr := "" |}
  | (file, Throw ex) =>
      Some {| exit_status := 1; reportFile := file; cout := "";
              cerr := "Fatal error: " +:+ what ex +:+ endl |}
  | (_, Undefined) => None
  end.

(** * The vocabulary of the properties *)

(** ** Digits and white space *)

Fixpoint all_digits (s : string) : bool :=
  match s with
  | EmptyString => true
  | String c s' => isdigit c && all_digits s'
  end.

(** The number a string of digits denotes, read from the left as
    [read_digits] accumulates it. *)
Fixpoint digits_value (acc : Z) (s : string) : Z :=
  match s with
  | EmptyString => acc
  | String c s' => digits_value (10 * acc + digit_val c) s'
  end.

(** The text does not go on with a digit. *)
Definition no_digit_ahead (s : string) : bool :=
  match s with
  | EmptyString => true
  | String c _ => negb (isdigit c)
  end.

Fixpoint all_space (s : string) : bool :=
  match s with
  | EmptyString => true
  | String c s' => isspace c && all_space s'
  end.

(** The text does not go on with white space. *)
Definition no_space_ahead (s : string) : bool :=
  match s with
  | EmptyString => true
  | String c _ => negb (isspace c)
  end.

(** The text of an [int] as the stream reads it: a sign, if any, and digits. *)
Definition signed_value (sg ds : string) : Z :=
  if String.eqb sg "-" then - digits_value 0 ds else digits_value 0 ds.

Definition is_sign (sg : string) : Prop := sg = "" ∨ sg = "+" ∨ sg = "-".

(** The text an [int] extraction accepts: white space, a sign if any, digits
    whose value fits an [int], and what is left, which is not a digit. *)
Inductive int_field : string → Z → string → Prop :=
  | int_field_intro (ws sg ds rest : string) :
      all_space ws = true → is_sign sg → all_digits ds = true → ds ≠ "" →
      no_digit_ahead rest = true → in_int (signed_value sg ds) = true →
      int_field (ws +:+ sg +:+ ds +:+ rest) (signed_value sg ds) rest.

(** The text a [char] extraction accepts: white space and one character. *)
Inductive char_field : string → ascii → string → Prop :=
  | char_field_intro (ws : string) (c : ascii) (rest : string) :
      all_space ws = true → isspace c = false →
      char_field (ws +:+ String c rest) c rest.

(** ** The texts of a date *)

(** The texts [parseIsoDate] accepts, and the date each denotes: three [int]
    fields with a ['-'] after the first and after the second. *)
Inductive iso_date_text : string → Date → Prop :=
  | iso_date_text_intro (s r1 r2 r3 r4 r5 : string) (y m d : Z) :
      int_field s y r1 → char_field r1 "-" r2 →
      int_field r2 m r3 → char_field r3 "-" r4 →
      int_field r4 d r5 →
      iso_date_text s {| year := y; month := m; day := d |}.

(** The pattern as the specification words it, [YYYY-MM-DD]: an integer, the
    character ['-'], an integer, ['-'], an integer, and nothing else. *)
Fixpoint spec_skip_digits (s : string) : string :=
  match s with
  | String c s' => if isdigit c then spec_skip_digits s' else s
  | EmptyString => EmptyString
  end.

Definition spec_integer (s : string) : option string :=
  match s with
  | String c s' => if isdigit c then Some (spec_skip_digits s') else None
  | EmptyString => None
  end.

Definition spec_dash (s : string) : option string :=
  match s with
  | String c s' => if Ascii.eqb c "-" then Some s' else None
  | EmptyString => None
  end.

Definition spec_iso_pattern (s : string) : bool :=
  match spec_integer s with
  | Some r1 =>
      match spec_dash r1 with
      | Some r2 =>
          match spec_integer r2 with
          | Some r3 =>
              match spec_dash r3 with
              | Some r4 =>
                  match spec_integer r4 with
                  | Some r5 => empty r5
                  | None => false
                  end
              | None => false
              end
          | None => false
          end
      | None => false
      end
  | None => false
  end.

(** ** Words and the birth season *)

(** The white-space-separated words of a text, in order. *)
Fixpoint words (s : string) : list string :=
  match s with
  | EmptyString => []
  | String c s' =>
      if isspace c then words s'
      else if no_space_ahead s' && negb (empty s') then
        match words s' with
        | w :: ws => String c w :: ws
        | [] => [String c EmptyString]
        end
      else String c EmptyString :: words s'
  end.

Definition or_unknown (season : string) : string :=
  if empty season then "unknown" else season.

(** The season as the specification words it: with "born in" in the
    segment, the token that follows it immediately; otherwise the trimmed
    segment; "unknown" when that is empty. *)
Definition spec_token_after (pat s : string) : string :=
  match find pat s with
  | Some pos => fst (read_word (skipws (substr_from (pos + String.length pat) s)))
  | None => EmptyString
  end.

Definition spec_season (segment : string) : string :=
  let lowered := toLower segment in
  let season :=
    match find "born in" lowered with
    | Some _ => spec_token_after "born in" lowered
    | None => trim segment
    end in
  if empty season then "unknown" else season.

Definition arrival_was_born : string :=
  "2024-03-05, 3 years old female hyena, was born in spring, tan color, 70 pounds, from Friguia Park, Tunisia".

Definition arrival_kamari : string :=
  "2024-03-05, 3 years old female hyena, born in spring, tan color, 70 pounds, from Friguia Park, Tunisia".

(** ** The report and the example run *)

Definition names_kamari : string := "hyena: Kamari, Simba".

Definition files_with_cat : Files :=
  {| namesFile := Some names_kamari;
     arrivalsFile := Some (arrival_kamari +:+ endl +:+ "2024-03-05, a cat" +:+ endl);
     reportWritable := true |}.







(** ** Runs of [genUniqueId] *)

(** Successive calls of [genUniqueId] in one run: the counters go from each
    call to the next, as the loop of [main] passes them. *)
Fixpoint issueIds (calls : list string) (counters : gmap string Z)
    : outcome (list string * gmap string Z) :=
  match calls with
  | [] => Ok ([], counters)
  | species :: rest =>
      '(id, counters) ← genUniqueId species counters;
      '(ids, counters) ← issueIds rest counters;
      Ok (id :: ids, counters)
  end.

Definition supported (species : string) : Prop := ∃ p, speciesPrefix species = Ok p.

Definition has_prefix (p species : string) : bool :=
  match speciesPrefix species with
  | Ok q => String.eqb q p
  | _ => false
  end.

(** How many of the calls are for the species with prefix [p]. *)
Fixpoint calls_for (p : string) (calls : list string) : nat :=
  match calls with
  | [] => 0
  | species :: rest => (if has_prefix p species then 1 else 0) + calls_for p rest
  end.

(** The identifier with sequence number [k]. *)
Definition sequence_id (p : string) (k : Z) : string :=
  p +:+ setw_fill 2 "0" (decimal k).

Definition prefixes : list string := ["Hy"; "Li"; "Ti"; "Be"].

Definition five_calls : list string := ["hyena"; "Lion"; "HYENA"; "bear"; "hyena"].

(** ** Ends of a string and letter case *)

(** The characters of a text in reverse order. *)
Definition string_rev (s : string) : string := string_rev_onto s EmptyString.

(** Neither the first nor the last character is white space. *)
Definition edge_clean (s : string) : Prop :=
  no_space_ahead s = true ∧ no_space_ahead (string_rev s) = true.

Definition isupper (ch : ascii) : bool :=
  let n := nat_of_ascii ch in Nat.leb 65 n && Nat.leb n 90.

Fixpoint no_upper (s : string) : bool :=
  match s with
  | EmptyString => true
  | String c s' => negb (isupper c) && no_upper s'
  end.

(** The tokens put together again, with the delimiter between them. *)
Fixpoint join (delimiter : string) (tokens : list string) : string :=
  match tokens with
  | [] => EmptyString
  | [token] => token
  | token :: rest => token +:+ delimiter +:+ join delimiter rest
  end.

(** ** Names and prefixes *)

(** [count] calls of [popNextName] for one species in a row: the names they
    return and the pool they leave. *)
Fixpoint popNames (speciesKey : string) (count : nat) (names : gmap string (list string))
    : list string * gmap string (list string) :=
  match count with
  | O => ([], names)
  | S count' =>
      let '(name, names) := popNextName names speciesKey in
      let '(rest, names) := popNames speciesKey count' names in
      (name :: rest, names)
  end.

Definition speciesTable : list (string * string) :=
  [("hyena", "Hy"); ("lion", "Li"); ("tiger", "Ti"); ("bear", "Be")].

(** ** Arrival sentences *)

Fixpoint all_chars (P : ascii → bool) (s : string) : bool :=
  match s with
  | EmptyString => true
  | String c s' => P c && all_chars P s'
  end.

Definition not_comma (c : ascii) : bool := negb (Ascii.eqb c ",").

Definition not_space (c : ascii) : bool := negb (isspace c).

(** A word: at least one character, no white space and no comma. *)
Definition is_word (s : string) : bool :=
  negb (empty s) && all_chars not_space s && all_chars not_comma s.

(** The text ends here or goes on with white space. *)
Definition space_or_end (s : string) : bool :=
  match s with
  | EmptyString => true
  | String c _ => isspace c
  end.

(** An arrival sentence as the comments of [parseArrivalRow] describe it;
    "born in" in front of the season is optional. *)
Definition arrival_sentence (date : string) (age : Z) (years old sex species : string)
    (born_in : bool) (season color : string) (weight : Z) (origin : string) : string :=
  date +:+ ", "
  +:+ (show_int age +:+ " " +:+ years +:+ " " +:+ old +:+ " " +:+ sex +:+ " " +:+ species)
  +:+ ", " +:+ ((if born_in then "born in " else "") +:+ season)
  +:+ ", " +:+ (color +:+ " color")
  +:+ ", " +:+ (show_int weight +:+ " pounds")
  +:+ ", " +:+ ("from " +:+ origin).

Definition arrival_zuri : string :=
  "  2024-04-02, 5 years old Male LION, born in Winter, golden color, 190 pounds, from Zanzibar, Tanzania  ".

(** ** The kinds of animal *)

Definition kindPrefix (k : AnimalKind) : string :=
  match k with
  | Hyena => "Hy" | Lion => "Li" | Tiger => "Ti" | Bear => "Be"
  end.

Definition kindSpecies (k : AnimalKind) : string :=
  match k with
  | Hyena => "hyena" | Lion => "lion" | Tiger => "tiger" | Bear => "bear"
  end.

Definition arrival_zebra : string :=
  "2024-03-05, 3 years old female Zebra, spring, tan color, 70 pounds, from Serengeti".

(** ** The state of a run *)

#[global] Instance AnimalKind_eq_dec : EqDecision AnimalKind.
Proof. solve_decision. Defined.

(** How many animals of a kind a list holds. *)
Definition kind_count (k : AnimalKind) (l : list Animal) : nat :=
  length (filter (λ a, kind a = k) l).

(** The state of the loop over the arrivals agrees with the animals built so
    far: each habitat lists its animals in the order of arrival, both
    counters of a species count its animals, and each animal carries the
    identifier and the group of its rank within its species. *)
Definition consistent (zoo : Zoo) : Prop :=
  (∀ habitat,
      default [] (animalsByHabitat zoo !! habitat)
      = filter (λ a, habitatName a = habitat) (animals zoo))
  ∧ (∀ k, default 0 (idCounters zoo !! kindPrefix k)
          = Z.of_nat (kind_count k (animals zoo)))
  ∧ (∀ k, default 0 (speciesCounts zoo !! kindSpecies k)
          = Z.of_nat (kind_count k (animals zoo)))
  ∧ (∀ i a,
        animals zoo !! i = Some a →
        let rank := Z.of_nat (kind_count (kind a) (take i (animals zoo))) in
        uniqueId_ a = kindPrefix (kind a) +:+ setw_fill 2 "0" (show_int (rank + 1))
        ∧ selectSocialGroup (kindSpecies (kind a)) rank = Ok (socialGroup_ a)
        ∧ species_ a = className (kind a)).

Definition blank (line : string) : bool := empty (trim line).

Definition two_arrivals : list string :=
  ["2024-03-05, 3 years old female hyena, born in spring, tan color, 70 pounds, from Friguia Park, Tunisia";
   "   ";
   "2024-03-06, 5 years old male hyena, born in fall, brown color, 90 pounds, from Nairobi, Kenya"].

(** ** The text of the report *)

Definition text_of (parts : list string) : string := foldr String.append "" parts.

(** The text one animal takes in the report. *)
Definition animal_entry (a : Animal) : string :=
  "  - " +:+ reportLine a +:+ " | " +:+ socialGroupLabel a +:+ endl.

(** The section of a habitat: its header with the number of occupants, one
    entry for each of them, an empty line. *)
Definition habitat_text (habitat : string) (occupants : list Animal) : string :=
  habitat +:+ " (" +:+ decimal (Z.of_nat (length occupants)) +:+ ")" +:+ endl
  +:+ text_of (animal_entry <$> occupants) +:+ endl.

Definition report_text (animals : list Animal) : string :=
  text_of ((λ habitat, habitat_text habitat (filter (λ a, habitatName a = habitat) animals))
             <$> habitatOrder).

Definition kamari_files : Files :=
  {| namesFile := Some names_kamari; arrivalsFile := Some arrival_kamari;
     reportWritable := true |}.

(** * Properties *)

(** ** Strings *)

#[local] Arguments String.append !s1 s2.

Lemma append_assoc (a b c : string) : (a +:+ b) +:+ c = a +:+ b +:+ c.
Proof. induction a as [|x a IH]; simpl; [reflexivity | now rewrite IH]. Qed.

Lemma append_empty_r (a : string) : a +:+ "" = a.
Proof. induction a as [|x a IH]; simpl; [reflexivity | now rewrite IH]. Qed.

Lemma length_append (a b : string) :
  String.length (a +:+ b) = (String.length a + String.length b)%nat.
Proof. induction a as [|x a IH]; simpl; [reflexivity | now rewrite IH]. Qed.

(** ** Decimal digits *)

Lemma isdigit_range (c : ascii) :
  isdigit c = true → (48 <= nat_of_ascii c <= 57)%nat.
Proof.
  unfold isdigit. intros H. apply andb_prop in H as [H1 H2].
  apply Nat.leb_le in H1, H2. lia.
Qed.

Lemma digit_val_range (c : ascii) : isdigit c = true → 0 <= digit_val c < 10.
Proof. intros H%isdigit_range. unfold digit_val. lia. Qed.

Lemma digit_char_val (c : ascii) : isdigit c = true → digit_char (digit_val c) = c.
Proof.
  intros H%isdigit_range. unfold digit_char, digit_val.
  replace (Z.to_nat (48 + (Z.of_nat (nat_of_ascii c) - 48))) with (nat_of_ascii c) by lia.
  apply ascii_nat_embedding.
Qed.

Lemma digit_cases (d : Z) :
  0 <= d < 10 →
  d = 0 ∨ d = 1 ∨ d = 2 ∨ d = 3 ∨ d = 4 ∨ d = 5 ∨ d = 6 ∨ d = 7 ∨ d = 8 ∨ d = 9.
Proof. lia. Qed.

Lemma digit_val_char (d : Z) : 0 <= d < 10 → digit_val (digit_char d) = d.
Proof.
  intros H. destruct (digit_cases d H) as [->|[->|[->|[->|[->|[->|[->|[->|[->| ->]]]]]]]]];
    reflexivity.
Qed.

Lemma isdigit_digit_char (d : Z) : 0 <= d < 10 → isdigit (digit_char d) = true.
Proof.
  intros H. destruct (digit_cases d H) as [->|[->|[->|[->|[->|[->|[->|[->|[->| ->]]]]]]]]];
    reflexivity.
Qed.

Lemma isdigit_not_space (c : ascii) : isdigit c = true → isspace c = false.
Proof.
  intros H%isdigit_range. unfold isspace.
  destruct (Nat.eqb_spec (nat_of_ascii c) 32); [lia|].
  destruct (Nat.leb_spec 9 (nat_of_ascii c)), (Nat.leb_spec (nat_of_ascii c) 13);
    simpl; try reflexivity; lia.
Qed.

Lemma digits_go_acc (fuel : nat) (n : Z) (acc : string) :
  digits_go fuel n acc = digits_go fuel n "" +:+ acc.
Proof.
  revert n acc. induction fuel as [|fuel IH]; intros n acc; simpl; [reflexivity|].
  destruct (n <? 10); [reflexivity|].
  rewrite IH, (IH _ (String _ "")), append_assoc. reflexivity.
Qed.

Lemma digits_go_fuel (f1 f2 : nat) (n : Z) (acc : string) :
  0 <= n → n < 2 ^ Z.of_nat f1 → n < 2 ^ Z.of_nat f2 →
  (1 <= f1)%nat → (1 <= f2)%nat →
  digits_go f1 n acc = digits_go f2 n acc.
Proof.
  revert f2 n acc. induction f1 as [|f1 IH]; intros f2 n acc Hn H1 H2 L1 L2; [lia|].
  destruct f2 as [|f2]; [lia|]. simpl.
  destruct (Z.ltb_spec n 10) as [|Hge]; [reflexivity|].
  rewrite Nat2Z.inj_succ, Z.pow_succ_r in H1, H2 by lia.
  assert (n / 10 < 2 ^ Z.of_nat f1) by (apply Z.div_lt_upper_bound; lia).
  assert (n / 10 < 2 ^ Z.of_nat f2) by (apply Z.div_lt_upper_bound; lia).
  assert (0 <= n / 10) by (apply Z.div_pos; lia).
  assert (1 <= n / 10) by (apply Z.div_le_lower_bound; lia).
  apply IH; try lia.
  - destruct f1; [simpl in *; lia | lia].
  - destruct f2; [simpl in *; lia | lia].
Qed.

Lemma decimal_fuel (fuel : nat) (n : Z) :
  0 <= n → n < 2 ^ Z.of_nat fuel → (1 <= fuel)%nat →
  digits_go fuel n "" = decimal n.
Proof.
  intros Hn Hlt Hf. unfold decimal. apply digits_go_fuel; try lia.
  rewrite Nat2Z.inj_succ, Z2Nat.id by apply Z.log2_nonneg.
  destruct (Z.eq_dec n 0) as [->|]; [reflexivity|].
  apply Z.log2_spec. lia.
Qed.

Lemma decimal_small (d : Z) : 0 <= d < 10 → decimal d = String (digit_char d) "".
Proof.
  intros H. unfold decimal. simpl.
  destruct (Z.ltb_spec d 10); [|lia]. rewrite Z.mod_small by lia. reflexivity.
Qed.

Lemma decimal_step (q d : Z) :
  0 < q → 0 <= d < 10 → decimal (10 * q + d) = decimal q +:+ String (digit_char d) "".
Proof.
  intros Hq Hd. unfold decimal at 1. cbn [digits_go].
  destruct (Z.ltb_spec (10 * q + d) 10); [lia|].
  replace ((10 * q + d) mod 10) with d
    by (rewrite Z.add_comm, Z.mul_comm, Z.mod_add, Z.mod_small; lia).
  replace ((10 * q + d) / 10) with q
    by (rewrite Z.add_comm, Z.mul_comm, Z.div_add, Z.div_small; lia).
  rewrite digits_go_acc. f_equal.
  set (L := Z.log2 (10 * q + d)).
  assert (HL : 0 < L) by (apply Z.log2_pos; lia).
  apply decimal_fuel; try lia.
  rewrite Z2Nat.id by lia.
  assert (10 * q + d < 2 ^ Z.succ L) by (apply Z.log2_spec; lia).
  rewrite Z.pow_succ_r in * by lia. lia.
Qed.

(** ** [split] runs to its end *)

Lemma starts_with_length (pat s : string) :
  starts_with pat s = true → (String.length pat <= String.length s)%nat.
Proof.
  revert s. induction pat as [|p pat IH]; intros [|c s] H; simpl in *;
    try lia; try discriminate.
  apply andb_prop in H as [_ H]. specialize (IH s H). lia.
Qed.

Lemma find_bound (pat s : string) (pos : nat) :
  find pat s = Some pos → (pos + String.length pat <= String.length s)%nat.
Proof.
  revert pos. induction s as [|c s IH]; intros pos; simpl.
  - destruct (starts_with pat "") eqn:E; [|discriminate].
    intros [= <-]. apply starts_with_length in E. simpl in *. lia.
  - destruct (starts_with pat (String c s)) eqn:E.
    + intros [= <-]. apply starts_with_length in E. simpl in *. lia.
    + destruct (find pat s) as [pos'|]; [|discriminate].
      intros [= <-]. specialize (IH pos' eq_refl). lia.
Qed.

Lemma length_substr_from (n : nat) (s : string) :
  String.length (substr_from n s) = (String.length s - n)%nat.
Proof.
  revert s. induction n as [|n IH]; intros [|c s]; simpl; try lia. apply IH.
Qed.

(** With a delimiter that is not empty the loop of [split] ends: any fuel
    above the length of the text gives the tokens of [split]. *)
Lemma split_loop_ends (fuel : nat) (remaining delimiter : string) (tokens : list string) :
  delimiter ≠ "" → (String.length remaining < fuel)%nat →
  split_loop fuel remaining delimiter tokens
  = split_loop (S (String.length remaining)) remaining delimiter tokens
  ∧ is_Some (split_loop fuel remaining delimiter tokens).
Proof.
  intros Hd. revert remaining tokens.
  induction fuel as [fuel IH] using lt_wf_ind. intros remaining tokens Hlen.
  destruct fuel as [|fuel]; [lia|]. cbn [split_loop].
  destruct (find delimiter remaining) as [pos|] eqn:Hfind; [|eauto].
  apply find_bound in Hfind.
  assert (0 < String.length delimiter)%nat by (destruct delimiter; simpl; [congruence | lia]).
  set (rest := erase_front (pos + String.length delimiter) remaining).
  assert (Hrest : (String.length rest < String.length remaining)%nat)
    by (unfold rest, erase_front; rewrite length_substr_from; lia).
  destruct (IH fuel ltac:(lia) rest (tokens ++ [substr 0 pos remaining]) ltac:(lia))
    as [E1 Hsome].
  destruct (IH (String.length remaining) ltac:(lia) rest
              (tokens ++ [substr 0 pos remaining]) Hrest) as [E2 _].
  split; [now rewrite E1, E2 | exact Hsome].
Qed.

Lemma split_terminates (value delimiter : string) (fuel : nat) :
  delimiter ≠ "" → (String.length value < fuel)%nat →
  split_loop fuel value delimiter [] = Some (split value delimiter).
Proof.
  intros Hd Hlen. destruct (split_loop_ends fuel value delimiter [] Hd Hlen) as [Heq [l Hl]].
  unfold split. rewrite <- Heq, Hl. reflexivity.
Qed.

Lemma split_examples :
  split "a, b, c" ", " = ["a"; "b"; "c"] ∧ split "" ", " = [].
Proof. split; reflexivity. Qed.

Lemma all_digits_app (a b : string) :
  all_digits (a +:+ b) = all_digits a && all_digits b.
Proof.
  induction a as [|c a IH]; simpl; [reflexivity|].
  rewrite IH. apply andb_assoc.
Qed.

Lemma digits_value_app (a b : string) (acc : Z) :
  digits_value acc (a +:+ b) = digits_value (digits_value acc a) b.
Proof. revert acc. induction a as [|c a IH]; intros acc; simpl; [reflexivity | apply IH]. Qed.

Lemma read_digits_digits (s rest : string) (acc : Z) :
  all_digits s = true → no_digit_ahead rest = true →
  read_digits acc (s +:+ rest) = (digits_value acc s, rest).
Proof.
  revert acc. induction s as [|c s IH]; intros acc Hs Hrest; simpl in *.
  - destruct rest as [|c rest]; simpl in *; [reflexivity|].
    apply negb_true_iff in Hrest. now rewrite Hrest.
  - apply andb_prop in Hs as [Hc Hs]. rewrite Hc. now apply IH.
Qed.

Lemma digits_value_bounds (s : string) (acc : Z) :
  all_digits s = true → 0 <= acc →
  acc * 10 ^ Z.of_nat (String.length s) <= digits_value acc s
    < (acc + 1) * 10 ^ Z.of_nat (String.length s).
Proof.
  revert acc. induction s as [|c s IH]; intros acc Hs Hacc.
  - simpl. lia.
  - cbn [all_digits] in Hs. apply andb_prop in Hs as [Hc Hs].
    apply digit_val_range in Hc.
    cbn [digits_value String.length]. rewrite Nat2Z.inj_succ, Z.pow_succ_r by lia.
    specialize (IH (10 * acc + digit_val c) Hs ltac:(lia)).
    assert (0 < 10 ^ Z.of_nat (String.length s)) by (apply Z.pow_pos_nonneg; lia).
    nia.
Qed.

(** Induction over a number by its decimal digits. *)
Lemma decimal_ind (P : Z → Prop) :
  (∀ d, 0 <= d < 10 → P d) →
  (∀ q d, 0 < q → 0 <= d < 10 → P q → P (10 * q + d)) →
  ∀ n, 0 <= n → P n.
Proof.
  intros Hsmall Hstep n Hn.
  induction n as [n IH] using (well_founded_induction (Z.lt_wf 0)).
  destruct (Z.ltb_spec n 10) as [|Hge]; [apply Hsmall; lia|].
  rewrite (Z.div_mod n 10) by lia.
  assert (0 <= n mod 10 < 10) by (apply Z.mod_pos_bound; lia).
  assert (1 <= n / 10) by (apply Z.div_le_lower_bound; lia).
  assert (n / 10 < n) by (apply Z.div_lt; lia).
  apply Hstep; [lia | assumption | apply IH; lia].
Qed.

Lemma all_digits_decimal (n : Z) : 0 <= n → all_digits (decimal n) = true.
Proof.
  revert n. apply decimal_ind.
  - intros d Hd. rewrite decimal_small by assumption. simpl.
    now rewrite isdigit_digit_char.
  - intros q d Hq Hd IH. rewrite decimal_step, all_digits_app, IH by assumption.
    simpl. now rewrite isdigit_digit_char.
Qed.

Lemma digits_value_decimal (n : Z) : 0 <= n → digits_value 0 (decimal n) = n.
Proof.
  revert n. apply decimal_ind.
  - intros d Hd. rewrite decimal_small by assumption. simpl.
    rewrite digit_val_char by assumption. lia.
  - intros q d Hq Hd IH. rewrite decimal_step, digits_value_app, IH by assumption.
    simpl. now rewrite digit_val_char.
Qed.

Lemma decimal_not_empty (n : Z) : 0 <= n → decimal n ≠ "".
Proof.
  revert n. apply decimal_ind.
  - intros d Hd. now rewrite decimal_small.
  - intros q d Hq Hd _. rewrite decimal_step by assumption.
    destruct (decimal q); discriminate.
Qed.

Lemma decimal_digits_value (s : string) (acc : Z) :
  all_digits s = true → 0 < acc →
  decimal (digits_value acc s) = decimal acc +:+ s.
Proof.
  revert acc. induction s as [|c s IH]; intros acc Hs Hacc; simpl in *.
  - now rewrite append_empty_r.
  - apply andb_prop in Hs as [Hc Hs].
    pose proof (digit_val_range c Hc).
    rewrite IH by (assumption || lia).
    rewrite decimal_step, digit_char_val, append_assoc by (assumption || lia).
    reflexivity.
Qed.

Lemma length_fill_string (n : nat) (c : ascii) : String.length (fill_string n c) = n.
Proof. induction n as [|n IH]; simpl; [reflexivity | now rewrite IH]. Qed.

Lemma length_setw_fill (w : nat) (c : ascii) (s : string) :
  String.length (setw_fill w c s) = Nat.max w (String.length s).
Proof. unfold setw_fill. rewrite length_append, length_fill_string. lia. Qed.

Lemma setw_fill_wide (w : nat) (c : ascii) (s : string) :
  (w <= String.length s)%nat → setw_fill w c s = s.
Proof.
  intros H. unfold setw_fill.
  replace (w - String.length s)%nat with 0%nat by lia. reflexivity.
Qed.

Lemma setw_fill_succ (w : nat) (c : ascii) (s : string) :
  (String.length s <= w)%nat → setw_fill (S w) c s = String c (setw_fill w c s).
Proof.
  intros H. unfold setw_fill.
  replace (S w - String.length s)%nat with (S (w - String.length s)) by lia.
  reflexivity.
Qed.

(** Writing the value of a string of digits at that string's width gives the
    string back: the fill restores the leading zeros. *)
Lemma setw_fill_digits_value (s : string) :
  all_digits s = true → s ≠ "" →
  setw_fill (String.length s) "0" (decimal (digits_value 0 s)) = s.
Proof.
  induction s as [|c s IH]; intros Hs Hne; [congruence|].
  cbn [all_digits] in Hs. apply andb_prop in Hs as [Hc Hs].
  pose proof (digit_val_range c Hc) as Hr.
  cbn [digits_value String.length]. rewrite Z.mul_0_r, Z.add_0_l.
  destruct (Z.eq_dec (digit_val c) 0) as [Hz|Hnz].
  - assert (c = "0"%char) as ->
      by (rewrite <- (digit_char_val c Hc), Hz; reflexivity).
    rewrite Hz. destruct s as [|c' s'].
    + reflexivity.
    + assert (Hlen : setw_fill (String.length (String c' s')) "0"
                       (decimal (digits_value 0 (String c' s'))) = String c' s')
        by (apply IH; [assumption | discriminate]).
      rewrite setw_fill_succ; [now rewrite Hlen|].
      apply (f_equal String.length) in Hlen. rewrite length_setw_fill in Hlen. lia.
  - rewrite decimal_digits_value, decimal_small by (assumption || lia).
    rewrite digit_char_val by assumption.
    apply setw_fill_wide. simpl. lia.
Qed.

(** ** White space and the extraction operators *)

Lemma skipws_spec (s : string) :
  ∃ ws, s = ws +:+ skipws s ∧ all_space ws = true ∧ no_space_ahead (skipws s) = true.
Proof.
  induction s as [|c s (ws & Hs & Hws & Hno)].
  - now exists "".
  - simpl. destruct (isspace c) eqn:Hc.
    + exists (String c ws). simpl. rewrite Hc, Hws, <- Hs. auto.
    + exists "". simpl. rewrite Hc. auto.
Qed.

Lemma skipws_app (ws s : string) :
  all_space ws = true → no_space_ahead s = true → skipws (ws +:+ s) = s.
Proof.
  induction ws as [|c ws IH]; simpl; intros Hws Hs.
  - destruct s as [|c s]; simpl in *; [reflexivity|].
    apply negb_true_iff in Hs. now rewrite Hs.
  - apply andb_prop in Hws as [Hc Hws]. rewrite Hc. now apply IH.
Qed.

Lemma read_digits_spec (s : string) (acc : Z) :
  ∃ ds, s = ds +:+ snd (read_digits acc s) ∧ all_digits ds = true
        ∧ fst (read_digits acc s) = digits_value acc ds
        ∧ no_digit_ahead (snd (read_digits acc s)) = true.
Proof.
  revert acc. induction s as [|c s IH]; intros acc.
  - now exists "".
  - simpl. destruct (isdigit c) eqn:Hc.
    + destruct (IH (10 * acc + digit_val c)) as (ds & Hs & Hds & Hv & Hno).
      exists (String c ds). simpl. rewrite Hc, Hds, <- Hs. auto.
    + exists "". simpl. rewrite Hc. auto.
Qed.

Lemma isdigit_not_sign (c : ascii) :
  isdigit c = true → Ascii.eqb c "-" = false ∧ Ascii.eqb c "+" = false.
Proof.
  intros H%isdigit_range.
  split; apply Ascii.eqb_neq; intros ->; vm_compute in H; lia.
Qed.

Lemma scan_int_ok (sg ds rest : string) :
  is_sign sg → all_digits ds = true → ds ≠ "" → no_digit_ahead rest = true →
  scan_int (sg +:+ ds +:+ rest) = Some (signed_value sg ds, rest).
Proof.
  intros Hsg Hds Hne Hrest.
  destruct ds as [|c ds]; [congruence|].
  pose proof Hds as Hall. cbn [all_digits] in Hds. apply andb_prop in Hds as [Hc _].
  destruct (isdigit_not_sign c Hc) as [Hm Hp].
  unfold scan_int, signed_value.
  destruct Hsg as [->|[->| ->]]; simpl String.append; cbn [Ascii.eqb Bool.eqb String.eqb].
  - rewrite Hm, Hp, Hc.
    change (String c (ds +:+ rest)) with (String c ds +:+ rest).
    now rewrite read_digits_digits.
  - rewrite Hc. change (String c (ds +:+ rest)) with (String c ds +:+ rest).
    now rewrite read_digits_digits.
  - rewrite Hc. change (String c (ds +:+ rest)) with (String c ds +:+ rest).
    now rewrite read_digits_digits.
Qed.

Lemma scan_int_inv (text rest : string) (v : Z) :
  scan_int text = Some (v, rest) →
  ∃ sg ds, text = sg +:+ ds +:+ rest ∧ is_sign sg ∧ all_digits ds = true ∧ ds ≠ ""
           ∧ no_digit_ahead rest = true ∧ v = signed_value sg ds.
Proof.
  assert (Hbody : ∀ body v0 rest0 c t, body = String c t → isdigit c = true →
            read_digits 0 body = (v0, rest0) →
            ∃ ds, body = ds +:+ rest0 ∧ all_digits ds = true ∧ ds ≠ ""
                  ∧ no_digit_ahead rest0 = true ∧ v0 = digits_value 0 ds).
  { intros body v0 rest0 c t -> Hc Hrd.
    destruct (read_digits_spec (String c t) 0) as (ds & Hs & Hds & Hv & Hno).
    rewrite Hrd in Hs, Hv, Hno. simpl in Hs, Hv, Hno.
    exists ds. repeat split; try assumption.
    intros ->. simpl in Hs. subst rest0. simpl in Hno. now rewrite Hc in Hno. }
  unfold scan_int. intros H.
  destruct text as [|c t]; [discriminate|].
  destruct (Ascii.eqb_spec c "-") as [->|Hm]; [|destruct (Ascii.eqb_spec c "+") as [->|Hp]].
  - destruct t as [|c' t']; [discriminate|].
    destruct (isdigit c') eqn:Hc'; [|discriminate].
    destruct (read_digits 0 (String c' t')) as [v0 rest0] eqn:Hrd.
    injection H as <- <-.
    destruct (Hbody _ _ _ _ _ eq_refl Hc' Hrd) as (ds & Hs & Hds & Hne & Hno & Hv).
    exists "-", ds. unfold is_sign, signed_value. simpl. rewrite <- Hs, Hv. auto 10.
  - destruct t as [|c' t']; [discriminate|].
    destruct (isdigit c') eqn:Hc'; [|discriminate].
    destruct (read_digits 0 (String c' t')) as [v0 rest0] eqn:Hrd.
    injection H as <- <-.
    destruct (Hbody _ _ _ _ _ eq_refl Hc' Hrd) as (ds & Hs & Hds & Hne & Hno & Hv).
    exists "+", ds. unfold is_sign, signed_value. simpl. rewrite <- Hs, Hv. auto 10.
  - destruct (isdigit c) eqn:Hc; [|discriminate].
    destruct (read_digits 0 (String c t)) as [v0 rest0] eqn:Hrd.
    injection H as <- <-.
    destruct (Hbody _ _ _ _ _ eq_refl Hc Hrd) as (ds & Hs & Hds & Hne & Hno & Hv).
    exists "", ds. unfold is_sign, signed_value. simpl. rewrite <- Hs, Hv. auto 10.
Qed.

Lemma sign_digits_no_space (sg ds rest : string) :
  is_sign sg → all_digits ds = true → ds ≠ "" →
  no_space_ahead (sg +:+ ds +:+ rest) = true ∧ empty (sg +:+ ds +:+ rest) = false.
Proof.
  intros Hsg Hds Hne. destruct ds as [|c ds]; [congruence|].
  cbn [all_digits] in Hds. apply andb_prop in Hds as [Hc _].
  destruct Hsg as [->|[->| ->]]; simpl; auto.
  now rewrite isdigit_not_space.
Qed.

Lemma in_int_range (v : Z) : in_int v = true ↔ INT_MIN <= v <= INT_MAX.
Proof. unfold in_int. rewrite andb_true_iff, !Z.leb_le. reflexivity. Qed.

Lemma extract_int_ok (old : Z) (s : string) (v : Z) (rest : string) :
  int_field s v rest → extract_int old (mkStream s false) = (v, mkStream rest false).
Proof.
  intros [ws sg ds r Hws Hsg Hds Hne Hr Hin].
  destruct (sign_digits_no_space sg ds r Hsg Hds Hne) as [Hns Hemp].
  unfold extract_int. cbn [failbit buffer].
  rewrite skipws_app, Hemp, scan_int_ok by assumption.
  apply in_int_range in Hin.
  destruct (Z.ltb_spec (signed_value sg ds) INT_MIN); [lia|].
  destruct (Z.ltb_spec INT_MAX (signed_value sg ds)); [lia|]. reflexivity.
Qed.

Lemma extract_int_inv (old : Z) (s : string) (v : Z) (rest : string) :
  extract_int old (mkStream s false) = (v, mkStream rest false) → int_field s v rest.
Proof.
  unfold extract_int. cbn [failbit buffer].
  destruct (skipws_spec s) as (ws & Hs & Hws & _).
  destruct (empty (skipws s)); [discriminate|].
  destruct (scan_int (skipws s)) as [[v0 r0]|] eqn:Hscan; [|discriminate].
  destruct (Z.ltb_spec v0 INT_MIN); [discriminate|].
  destruct (Z.ltb_spec INT_MAX v0); [discriminate|].
  intros [= <- <-].
  apply scan_int_inv in Hscan as (sg & ds & Ht & Hsg & Hds & Hne & Hno & ->).
  rewrite Hs, Ht. constructor; try assumption. apply in_int_range. lia.
Qed.

Lemma extract_char_ok (old : ascii) (s : string) (c : ascii) (rest : string) :
  char_field s c rest → extract_char old (mkStream s false) = (c, mkStream rest false).
Proof.
  intros [ws c' r Hws Hc]. unfold extract_char. cbn [failbit buffer].
  rewrite skipws_app; [reflexivity | assumption | simpl; now rewrite Hc].
Qed.

Lemma extract_char_inv (old : ascii) (s : string) (c : ascii) (rest : string) :
  extract_char old (mkStream s false) = (c, mkStream rest false) → char_field s c rest.
Proof.
  unfold extract_char. cbn [failbit buffer].
  destruct (skipws_spec s) as (ws & Hs & Hws & Hno).
  destruct (skipws s) as [|c' r] eqn:Hsk; [discriminate|].
  intros [= <- <-]. rewrite Hs. constructor; [assumption|].
  simpl in Hno. now apply negb_true_iff.
Qed.

(** Once the fail bit is set it stays, and the extraction changes nothing. *)
Lemma extract_int_failed (old : Z) (ss : istringstream) :
  failbit ss = true → extract_int old ss = (old, ss).
Proof. intros H. unfold extract_int. now rewrite H. Qed.

Lemma extract_char_failed (old : ascii) (ss : istringstream) :
  failbit ss = true → extract_char old ss = (old, ss).
Proof. intros H. unfold extract_char. now rewrite H. Qed.

Lemma extract_string_failed (old : string) (ss : istringstream) :
  failbit ss = true → extract_string old ss = (old, ss).
Proof. intros H. unfold extract_string. now rewrite H. Qed.

(** ** [parseIsoDate] and [formatIsoDate] *)

Ltac stream_failed :=
  repeat first
    [ rewrite extract_int_failed by reflexivity
    | rewrite extract_char_failed by reflexivity
    | rewrite extract_string_failed by reflexivity ].

Lemma parseIsoDate_accepts (s : string) (d : Date) :
  iso_date_text s d → parseIsoDate s = Ok d.
Proof.
  intros [s0 r1 r2 r3 r4 r5 y m dd Hy Hd1 Hm Hd2 Hd].
  unfold parseIsoDate, open_stream.
  rewrite (extract_int_ok _ _ _ _ Hy), (extract_char_ok _ _ _ _ Hd1),
    (extract_int_ok _ _ _ _ Hm), (extract_char_ok _ _ _ _ Hd2),
    (extract_int_ok _ _ _ _ Hd).
  reflexivity.
Qed.

Lemma parseIsoDate_inv (s : string) (d : Date) :
  parseIsoDate s = Ok d → iso_date_text s d.
Proof.
  unfold parseIsoDate, open_stream.
  destruct (extract_int 0 (mkStream s false)) as [y [r1 [|]]] eqn:E1;
    [stream_failed; discriminate|].
  destruct (extract_char zero (mkStream r1 false)) as [c1 [r2 [|]]] eqn:E2;
    [stream_failed; discriminate|].
  destruct (extract_int 0 (mkStream r2 false)) as [m [r3 [|]]] eqn:E3;
    [stream_failed; discriminate|].
  destruct (extract_char zero (mkStream r3 false)) as [c2 [r4 [|]]] eqn:E4;
    [stream_failed; discriminate|].
  destruct (extract_int 0 (mkStream r4 false)) as [dd [r5 [|]]] eqn:E5;
    [discriminate|].
  cbn [failbit orb].
  destruct (Ascii.eqb_spec c1 "-") as [->|]; [|discriminate].
  destruct (Ascii.eqb_spec c2 "-") as [->|]; [|discriminate].
  intros [= <-].
  apply extract_int_inv in E1, E3, E5. apply extract_char_inv in E2, E4.
  econstructor; eassumption.
Qed.

(** [parseIsoDate] either returns a date or throws its one error. *)
Lemma parseIsoDate_cases (s : string) :
  (∃ d, parseIsoDate s = Ok d)
  ∨ parseIsoDate s = Throw (runtime_error ("Invalid ISO date: " +:+ s)).
Proof.
  unfold parseIsoDate.
  repeat match goal with
         | |- context [let '(_, _) := ?e in _] => destruct e
         end.
  match goal with |- context [if ?b then _ else _] => destruct b end; eauto.
Qed.

Lemma int_field_digits (ds rest : string) :
  all_digits ds = true → ds ≠ "" → no_digit_ahead rest = true →
  digits_value 0 ds <= INT_MAX →
  int_field (ds +:+ rest) (digits_value 0 ds) rest.
Proof.
  intros Hds Hne Hrest Hmax.
  apply (int_field_intro "" "" ds rest); try assumption; try reflexivity.
  - now left.
  - apply in_int_range. change (signed_value "" ds) with (digits_value 0 ds).
    pose proof (digits_value_bounds ds 0 Hds ltac:(lia)). unfold INT_MIN. lia.
Qed.

(** Three groups of digits with ['-'] between them, whatever follows. *)
Lemma parseIsoDate_digits (ys ms ds rest : string) :
  all_digits ys = true → ys ≠ "" → digits_value 0 ys <= INT_MAX →
  all_digits ms = true → ms ≠ "" → digits_value 0 ms <= INT_MAX →
  all_digits ds = true → ds ≠ "" → digits_value 0 ds <= INT_MAX →
  no_digit_ahead rest = true →
  parseIsoDate (ys +:+ "-" +:+ ms +:+ "-" +:+ ds +:+ rest)
  = Ok {| year := digits_value 0 ys; month := digits_value 0 ms;
          day := digits_value 0 ds |}.
Proof.
  intros. apply parseIsoDate_accepts.
  apply (iso_date_text_intro _ ("-" +:+ ms +:+ "-" +:+ ds +:+ rest)
           (ms +:+ "-" +:+ ds +:+ rest) ("-" +:+ ds +:+ rest) (ds +:+ rest) rest).
  - now apply int_field_digits.
  - now apply (char_field_intro "" "-").
  - now apply int_field_digits.
  - now apply (char_field_intro "" "-").
  - now apply int_field_digits.
Qed.

Lemma show_int_nonneg (n : Z) : 0 <= n → show_int n = decimal n.
Proof. intros H. unfold show_int. destruct (Z.ltb_spec n 0); [lia | reflexivity]. Qed.

Lemma digits_value_small (s : string) (w : nat) :
  all_digits s = true → String.length s = w → (w <= 9)%nat →
  0 <= digits_value 0 s <= INT_MAX.
Proof.
  intros Hs Hlen Hw. pose proof (digits_value_bounds s 0 Hs ltac:(lia)) as Hb.
  rewrite Hlen in Hb.
  assert (10 ^ Z.of_nat w <= 10 ^ 9) by (apply Z.pow_le_mono_r; lia).
  unfold INT_MAX. change (10 ^ 9) with 1000000000 in *. lia.
Qed.

Lemma length_not_empty (s : string) (n : nat) : String.length s = S n → s ≠ "".
Proof. now destruct s. Qed.

(** C7.  Round trip: a date text of four digits, ['-'], two digits, ['-'] and
    two digits is parsed to a date that [formatIsoDate] writes back as the
    same text. *)
Theorem formatIsoDate_parseIsoDate_roundtrip (ys ms ds : string) :
  all_digits ys = true → String.length ys = 4%nat →
  all_digits ms = true → String.length ms = 2%nat →
  all_digits ds = true → String.length ds = 2%nat →
  let s := ys +:+ "-" +:+ ms +:+ "-" +:+ ds in
  ∃ date, parseIsoDate s = Ok date ∧ formatIsoDate date = s.
Proof.
  intros Hys Ly Hms Lm Hds Ld s.
  pose proof (digits_value_small ys 4 Hys Ly ltac:(lia)).
  pose proof (digits_value_small ms 2 Hms Lm ltac:(lia)).
  pose proof (digits_value_small ds 2 Hds Ld ltac:(lia)).
  eexists. split.
  - subst s. rewrite <- (append_empty_r ds) at 1.
    apply parseIsoDate_digits; eauto using length_not_empty; lia.
  - unfold formatIsoDate. cbn [year month day].
    rewrite !show_int_nonneg by lia.
    rewrite <- Ly at 1. rewrite <- Lm at 1. rewrite <- Ld at 1.
    rewrite !setw_fill_digits_value by eauto using length_not_empty.
    reflexivity.
Qed.

Lemma formatIsoDate_parseIsoDate_roundtrip_witness :
  ∃ date, parseIsoDate "2024-03-05" = Ok date ∧ formatIsoDate date = "2024-03-05".
Proof.
  exact (formatIsoDate_parseIsoDate_roundtrip "2024" "03" "05"
           eq_refl eq_refl eq_refl eq_refl eq_refl eq_refl).
Defined.

(** Against C3 as stated: [parseIsoDate] does not accept the pattern only.
    Text after the day, white space before a field or a dash, and signs all
    pass. *)
Lemma parseIsoDate_not_exactly_pattern :
  parseIsoDate "2024-03-05 at noon" = Ok {| year := 2024; month := 3; day := 5 |}
  ∧ spec_iso_pattern "2024-03-05 at noon" = false
  ∧ parseIsoDate " 2024 - 3 - +5" = Ok {| year := 2024; month := 3; day := 5 |}
  ∧ spec_iso_pattern " 2024 - 3 - +5" = false.
Proof. repeat split; vm_compute; reflexivity. Qed.

(** C3, as the code has it.  [parseIsoDate] returns a date exactly on the
    texts of [iso_date_text]: three [int] fields, each with optional white
    space and sign in front and a value that fits an [int], a ['-'] (after
    optional white space) behind the first and the second, and any text
    behind the third.  In particular it accepts every text made of three
    groups of digits joined by ['-'], with no check of the ranges (month 13
    passes).  On every other text (a separator that is missing or is not
    ['-'], a field without a digit or outside [int]) it throws
    [runtime_error "Invalid ISO date: ..."]. *)
Theorem parseIsoDate_succeeds_exactly :
  (∀ s d, parseIsoDate s = Ok d ↔ iso_date_text s d)
  ∧ (∀ s, (∀ d, ¬ iso_date_text s d) →
          parseIsoDate s = Throw (runtime_error ("Invalid ISO date: " +:+ s)))
  ∧ (∀ ys ms ds,
        all_digits ys = true → ys ≠ "" → digits_value 0 ys <= INT_MAX →
        all_digits ms = true → ms ≠ "" → digits_value 0 ms <= INT_MAX →
        all_digits ds = true → ds ≠ "" → digits_value 0 ds <= INT_MAX →
        parseIsoDate (ys +:+ "-" +:+ ms +:+ "-" +:+ ds)
        = Ok {| year := digits_value 0 ys; month := digits_value 0 ms;
                day := digits_value 0 ds |})
  ∧ parseIsoDate "2024-13-05" = Ok {| year := 2024; month := 13; day := 5 |}
  ∧ parseIsoDate "2024/03/05" = Throw (runtime_error "Invalid ISO date: 2024/03/05")
  ∧ parseIsoDate "20240305" = Throw (runtime_error "Invalid ISO date: 20240305")
  ∧ parseIsoDate "2024-March-05"
    = Throw (runtime_error "Invalid ISO date: 2024-March-05")
  ∧ parseIsoDate "2147483648-01-01"
    = Throw (runtime_error "Invalid ISO date: 2147483648-01-01").
Proof.
  split; [|split; [|split]].
  - intros s d. split; [apply parseIsoDate_inv | apply parseIsoDate_accepts].
  - intros s Hno. destruct (parseIsoDate_cases s) as [[d Hd]|H]; [|exact H].
    apply parseIsoDate_inv in Hd. now destruct (Hno d).
  - intros ys ms ds **. rewrite <- (append_empty_r ds) at 1.
    now apply parseIsoDate_digits.
  - repeat split; vm_compute; reflexivity.
Qed.

Lemma parseIsoDate_succeeds_exactly_witness :
  parseIsoDate "2024-13-05" = Ok {| year := 2024; month := 13; day := 5 |}
  ∧ parseIsoDate "" = Throw (runtime_error "Invalid ISO date: ").
Proof.
  destruct parseIsoDate_succeeds_exactly as (Hiff & Hthrow & Hdigits & _).
  split.
  - exact (Hdigits "2024" "13" "05" eq_refl ltac:(discriminate) ltac:(vm_compute; discriminate)
             eq_refl ltac:(discriminate) ltac:(vm_compute; discriminate)
             eq_refl ltac:(discriminate) ltac:(vm_compute; discriminate)).
  - apply (Hthrow ""). intros d Hd. apply Hiff in Hd. vm_compute in Hd. discriminate.
Defined.

(** ** [genBirthDay] *)

Lemma int_checked_ok (z : Z) : INT_MIN <= z <= INT_MAX → int_checked z = Ok z.
Proof. intros H. unfold int_checked. now rewrite (proj2 (in_int_range z) H). Qed.

Lemma seasonToDate_names :
  seasonToDate !! "spring" = Some (3, 15)
  ∧ seasonToDate !! "summer" = Some (6, 15)
  ∧ seasonToDate !! "fall" = Some (9, 15)
  ∧ seasonToDate !! "autumn" = Some (9, 15)
  ∧ seasonToDate !! "winter" = Some (12, 15).
Proof. repeat split; vm_compute; reflexivity. Qed.

Lemma seasonToDate_other (name : string) :
  name ∉ ["spring"; "summer"; "fall"; "autumn"; "winter"] →
  seasonToDate !! name = None.
Proof. intros H. unfold seasonToDate. now apply not_elem_of_list_to_map_1. Qed.

Lemma genBirthDay_unfold (age : Z) (season arrivalDate : string) (arrival : Date) :
  parseIsoDate arrivalDate = Ok arrival →
  INT_MIN <= year arrival - age <= INT_MAX →
  genBirthDay age season arrivalDate
  = Ok (formatIsoDate
          match seasonToDate !! toLower season with
          | Some (m, d) => {| year := year arrival - age; month := m; day := d |}
          | None => {| year := year arrival - age; month := month arrival;
                       day := day arrival |}
          end).
Proof.
  intros Hparse Hrange. unfold genBirthDay.
  rewrite Hparse. cbn [mbind outcome_bind]. rewrite int_checked_ok by assumption.
  reflexivity.
Qed.

(** C6.  [genBirthDay] is a function of its three arguments.  When the
    arrival date parses (and the subtraction stays within [int]), the birth
    year is the arrival year minus the age; a season that is, in lower case,
    spring, summer, fall, autumn or winter gives the month and day of the
    table; any other season gives the arrival's month and day. *)
Theorem genBirthDay_derivation (age : Z) (season arrivalDate : string) (arrival : Date) :
  parseIsoDate arrivalDate = Ok arrival →
  INT_MIN <= year arrival - age <= INT_MAX →
  let birth m d := Ok (formatIsoDate {| year := year arrival - age; month := m; day := d |}) in
  (toLower season = "spring" → genBirthDay age season arrivalDate = birth 3 15)
  ∧ (toLower season = "summer" → genBirthDay age season arrivalDate = birth 6 15)
  ∧ (toLower season = "fall" → genBirthDay age season arrivalDate = birth 9 15)
  ∧ (toLower season = "autumn" → genBirthDay age season arrivalDate = birth 9 15)
  ∧ (toLower season = "winter" → genBirthDay age season arrivalDate = birth 12 15)
  ∧ (toLower season ∉ ["spring"; "summer"; "fall"; "autumn"; "winter"] →
     genBirthDay age season arrivalDate = birth (month arrival) (day arrival))
  ∧ genBirthDay 5 "Winter" "2024-04-02" = Ok "2019-12-15"
  ∧ genBirthDay 5 "martian-season" "2024-04-02" = Ok "2019-04-02".
Proof.
  intros Hparse Hrange birth.
  rewrite (genBirthDay_unfold _ season _ _ Hparse Hrange).
  destruct seasonToDate_names as (Hsp & Hsu & Hfa & Hau & Hwi).
  repeat split.
  - intros ->. now rewrite Hsp.
  - intros ->. now rewrite Hsu.
  - intros ->. now rewrite Hfa.
  - intros ->. now rewrite Hau.
  - intros ->. now rewrite Hwi.
  - intros Hother. now rewrite seasonToDate_other.
Qed.

Lemma genBirthDay_derivation_witness :
  genBirthDay 5 "Winter" "2024-04-02" = Ok "2019-12-15"
  ∧ genBirthDay 5 "SPRING" "2024-04-02" = Ok "2019-03-15"
  ∧ genBirthDay 5 "martian-season" "2024-04-02" = Ok "2019-04-02".
Proof.
  assert (Hrange : INT_MIN <= 2024 - 5 <= INT_MAX) by (unfold INT_MIN, INT_MAX; lia).
  pose (arrival := {| year := 2024; month := 4; day := 2 |}).
  destruct (genBirthDay_derivation 5 "Winter" "2024-04-02" arrival eq_refl Hrange)
    as (_ & _ & _ & _ & Hwinter & _).
  destruct (genBirthDay_derivation 5 "SPRING" "2024-04-02" arrival eq_refl Hrange)
    as (Hspring & _).
  destruct (genBirthDay_derivation 5 "martian-season" "2024-04-02" arrival eq_refl Hrange)
    as (_ & _ & _ & _ & _ & Hother & _).
  split; [exact (Hwinter eq_refl) | split; [exact (Hspring eq_refl)|]].
  apply Hother. rewrite !not_elem_of_cons. repeat split; try discriminate.
  apply not_elem_of_nil.
Defined.

(** ** [parseArrivalRow] *)

Lemma words_skipws (s : string) : words (skipws s) = words s.
Proof.
  induction s as [|c s IH]; [reflexivity|].
  simpl. destruct (isspace c) eqn:Hc; [exact IH|]. simpl. now rewrite Hc.
Qed.

Lemma read_word_words (s : string) :
  no_space_ahead s = true → empty s = false →
  words s = fst (read_word s) :: words (snd (read_word s)).
Proof.
  induction s as [|c s IH]; [discriminate|]. intros Hc _.
  simpl in Hc. apply negb_true_iff in Hc. simpl. rewrite Hc.
  destruct s as [|c' s'].
  - reflexivity.
  - cbn [no_space_ahead empty negb andb] in *.
    destruct (isspace c') eqn:Hc'.
    + simpl. rewrite Hc'. simpl. now rewrite Hc'.
    + cbn [negb] in *. rewrite IH by reflexivity.
      destruct (read_word (String c' s')) as [w r]. reflexivity.
Qed.

Lemma extract_string_words (old : string) (s : string) :
  extract_string old (mkStream s false)
  = match words s with
    | [] => (old, mkStream EmptyString true)
    | w :: _ => (w, mkStream (snd (read_word (skipws s))) false)
    end
  ∧ words (snd (read_word (skipws s))) = tail (words s).
Proof.
  unfold extract_string. cbn [failbit buffer].
  destruct (skipws_spec s) as (ws & _ & _ & Hno).
  rewrite <- (words_skipws s).
  destruct (skipws s) as [|c t] eqn:Hsk; [now split|].
  cbn [empty]. rewrite (read_word_words (String c t)) by (assumption || reflexivity).
  destruct (read_word (String c t)) as [w r]. now split.
Qed.

(** Three extractions in a row deliver the third word, or leave the target
    empty when the text has fewer than three words. *)
Lemma third_word (s : string) :
  (let '(_, ss) := extract_string "" (mkStream s false) in
   let '(_, ss) := extract_string "" ss in
   let '(season, _) := extract_string "" ss in season)
  = nth 2 (words s) "".
Proof.
  destruct (extract_string_words "" s) as [-> Htail].
  destruct (words s) as [|w1 l1]; [stream_failed; reflexivity|].
  destruct (extract_string_words "" (snd (read_word (skipws s)))) as [-> Htail'].
  rewrite Htail. cbn [tail].
  destruct l1 as [|w2 l2]; [stream_failed; reflexivity|].
  destruct (extract_string_words "" (snd (read_word
              (skipws (snd (read_word (skipws s))))))) as [-> _].
  rewrite Htail', Htail. cbn [tail].
  destruct l2 as [|w3 l3]; reflexivity.
Qed.

Lemma first_word (s : string) : fst (read_word (skipws s)) = nth 0 (words s) "".
Proof.
  destruct (skipws_spec s) as (ws & _ & _ & Hno).
  rewrite <- (words_skipws s).
  destruct (skipws s) as [|c t]; [reflexivity|].
  now rewrite (read_word_words (String c t)).
Qed.

Lemma parseSeason_born_in (part : string) :
  find "born in" (toLower part) ≠ None →
  parseSeason part = or_unknown (nth 2 (words (toLower part)) "").
Proof.
  intros H. unfold parseSeason, open_stream.
  destruct (find "born in" (toLower part)); [|congruence].
  now rewrite third_word.
Qed.

Lemma parseSeason_plain (part : string) :
  find "born in" (toLower part) = None → parseSeason part = or_unknown (trim part).
Proof. intros H. unfold parseSeason. now rewrite H. Qed.

Lemma parseArrivalRow_fields (line : string) (row : ParsedAnimalRow) :
  parseArrivalRow line = Ok row →
  let parts := split line ", " in
  (6 <= length parts)%nat
  ∧ arrivalDate row = trim (nth 0 parts "")
  ∧ birthSeason row = parseSeason (nth 2 parts "")
  ∧ color row = parseColor (nth 3 parts "")
  ∧ parseWeight (nth 4 parts "") = Ok (weight row)
  ∧ origin row = parseOrigin (drop 5 parts).
Proof.
  unfold parseArrivalRow. cbv zeta.
  destruct (Nat.ltb_spec (length (split line ", ")) 6); [discriminate|].
  destruct (parseAgeSexSpecies (nth 1 (split line ", ") "")) as [[[a s] sp] [|]];
    [discriminate|].
  destruct (parseWeight (nth 4 (split line ", ") "")) as [w| |]; try discriminate.
  cbn [mbind outcome_bind]. intros [= <-]. cbn. auto 10.
Qed.

(** C2, a defect of the code.  The claim takes the season to be the token
    that follows "born in".  The test of [parseSeason] looks for "born in"
    anywhere in the segment, but the three extractions that follow it,
    into [bornToken], [inToken] and the season, count words from the start
    of the segment.  For the segment "was born in spring" the test finds
    "born in" at position 4, the token that follows it is "spring", and the
    season the code stores is the third word of the segment, "in". *)
Lemma birthSeason_not_token_after_born_in :
  ∃ row, parseArrivalRow arrival_was_born = Ok row
         ∧ nth 2 (split arrival_was_born ", ") "" = "was born in spring"
         ∧ find "born in" (toLower "was born in spring") = Some 4%nat
         ∧ birthSeason row = "in"
         ∧ birthSeason row = nth 2 (words (toLower "was born in spring")) ""
         ∧ spec_season "was born in spring" = "spring".
Proof. eexists. repeat split; vm_compute; reflexivity. Qed.

Lemma starts_with_app (pat s : string) :
  starts_with pat s = true → ∃ rest, s = pat +:+ rest.
Proof.
  revert s. induction pat as [|p pat IH]; intros s H.
  - now exists s.
  - destruct s as [|c s]; [discriminate|]. simpl in H.
    apply andb_prop in H as [Hc H]. apply Ascii.eqb_eq in Hc as ->.
    destruct (IH s H) as [rest ->]. now exists rest.
Qed.

(** The season [parseArrivalRow] stores, for every line it accepts.  When
    the lower-cased segment 2 contains "born in", it is the third
    white-space-separated word of the lower-cased segment (none when there
    are fewer than three).  That is the token right after "born in", as the
    claim C2 has it, when the segment starts with "born in "; the lemma
    above has a segment where it is not.  Without "born in" the season is
    the trimmed segment; an empty season becomes "unknown". *)
Theorem parseArrivalRow_birthSeason (line : string) (row : ParsedAnimalRow) :
  parseArrivalRow line = Ok row →
  let segment := nth 2 (split line ", ") "" in
  (find "born in" (toLower segment) ≠ None →
   birthSeason row = or_unknown (nth 2 (words (toLower segment)) ""))
  ∧ (starts_with "born in " (toLower segment) = true →
     birthSeason row = spec_season segment)
  ∧ (find "born in" (toLower segment) = None →
     birthSeason row = or_unknown (trim segment)).
Proof.
  intros Hrow segment.
  destruct (parseArrivalRow_fields line row Hrow) as (_ & _ & -> & _).
  fold segment. split; [|split].
  - apply parseSeason_born_in.
  - intros [rest Hrest]%starts_with_app.
    rewrite parseSeason_born_in by (rewrite Hrest; discriminate).
    unfold spec_season, spec_token_after. rewrite Hrest.
    cbn [find starts_with Ascii.eqb Bool.eqb andb String.append String.length
         Nat.add substr_from].
    change (skipws (String " " rest)) with (skipws rest).
    rewrite first_word. reflexivity.
  - apply parseSeason_plain.
Qed.

Lemma parseArrivalRow_birthSeason_witness :
  ∃ row, parseArrivalRow arrival_kamari = Ok row ∧ birthSeason row = "spring".
Proof.
  eexists. split; [vm_compute; reflexivity|].
  exact (proj1 (proj2 (parseArrivalRow_birthSeason arrival_kamari _ eq_refl)) eq_refl).
Defined.

(** C9.  [parseArrivalRow] throws [runtime_error "Malformed arrival entry: "]
    followed by the line exactly when [split] on [", "] gives fewer than 6
    parts.  With 6 parts or more the check is passed and the later steps
    decide the outcome: a row, the error of the age/sex/species part, or one
    of the two errors of [std::stoi]. *)
Theorem parseArrivalRow_malformed (line : string) :
  (parseArrivalRow line = Throw (runtime_error ("Malformed arrival entry: " +:+ line))
   ↔ (length (split line ", ") < 6)%nat)
  ∧ ((6 <= length (split line ", "))%nat →
     (∃ row, parseArrivalRow line = Ok row)
     ∨ parseArrivalRow line
       = Throw (runtime_error ("Unable to parse age/sex/species segment: "
                               +:+ nth 1 (split line ", ") ""))
     ∨ parseArrivalRow line = Throw (invalid_argument "stoi")
     ∨ parseArrivalRow line = Throw (out_of_range "stoi")).
Proof.
  assert (Hrest : (6 <= length (split line ", "))%nat →
     (∃ row, parseArrivalRow line = Ok row)
     ∨ parseArrivalRow line
       = Throw (runtime_error ("Unable to parse age/sex/species segment: "
                               +:+ nth 1 (split line ", ") ""))
     ∨ parseArrivalRow line = Throw (invalid_argument "stoi")
     ∨ parseArrivalRow line = Throw (out_of_range "stoi")).
  { intros Hlen. unfold parseArrivalRow. cbv zeta.
    destruct (Nat.ltb_spec (length (split line ", ")) 6); [lia|].
    destruct (parseAgeSexSpecies (nth 1 (split line ", ") "")) as [[[a s] sp] [|]];
      [auto|].
    unfold parseWeight, stoi.
    destruct (scan_int _) as [[v r]|]; [|auto].
    destruct (in_int v); cbn [mbind outcome_bind]; eauto. }
  split; [split|exact Hrest].
  - intros H. destruct (Nat.lt_ge_cases (length (split line ", ")) 6) as [|Hge]; [assumption|].
    destruct (Hrest Hge) as [[row Hrow]|[Hx|[Hx|Hx]]]; rewrite H in *; discriminate.
  - intros Hlen. unfold parseArrivalRow. cbv zeta.
    destruct (Nat.ltb_spec (length (split line ", ")) 6); [reflexivity | lia].
Qed.

Lemma parseArrivalRow_malformed_witness :
  parseArrivalRow "2024-03-05, 3 years old female hyena"
  = Throw (runtime_error "Malformed arrival entry: 2024-03-05, 3 years old female hyena")
  ∧ ∃ row, parseArrivalRow arrival_kamari = Ok row.
Proof.
  split.
  - apply (proj1 (parseArrivalRow_malformed _)). vm_compute. lia.
  - destruct (proj2 (parseArrivalRow_malformed arrival_kamari)
                ltac:(vm_compute; lia)) as [Hrow|[H|[H|H]]];
      [exact Hrow | vm_compute in H; discriminate ..].
Defined.

(** ** The habitat index during rendering *)

Lemma map_at_present {V : Type} (key : string) (dflt : V) (m : gmap string V) :
  (map_at key dflt m).2 !! key = Some (map_at key dflt m).1.
Proof.
  unfold map_at. destruct (m !! key) eqn:E; simpl; [exact E | apply lookup_insert_eq].
Qed.

Lemma map_at_kept {V : Type} (key : string) (dflt : V) (m : gmap string V) :
  is_Some (m !! key) → (map_at key dflt m).2 = m.
Proof. intros [v E]. unfold map_at. now rewrite E. Qed.

Lemma map_at_lookup_Some {V : Type} (key key' : string) (dflt v : V) (m : gmap string V) :
  m !! key' = Some v → (map_at key dflt m).2 !! key' = Some v.
Proof.
  intros H. unfold map_at. destruct (m !! key) eqn:E; simpl; [exact H|].
  rewrite lookup_insert_ne; [exact H | congruence].
Qed.

Lemma map_at_lookup_default {V : Type} (key key' : string) (dflt : V) (m : gmap string V) :
  default dflt ((map_at key dflt m).2 !! key') = default dflt (m !! key').
Proof.
  unfold map_at. destruct (m !! key) eqn:E; simpl; [reflexivity|].
  destruct (decide (key = key')) as [<-|Hne].
  - now rewrite lookup_insert_eq, E.
  - now rewrite lookup_insert_ne.
Qed.

Lemma map_at_dom {V : Type} (key : string) (dflt : V) (m : gmap string V) :
  dom (map_at key dflt m).2 = dom m ∪ {[key]}.
Proof.
  unfold map_at. destruct (m !! key) eqn:E; simpl.
  - assert (key ∈ dom m) by (apply elem_of_dom; eauto). set_solver.
  - rewrite dom_insert_L. set_solver.
Qed.

Lemma renderHabitat_index (habitat : string) (st : string * gmap string (list Animal)) :
  (renderHabitat habitat st).2 = (map_at habitat [] st.2).2.
Proof.
  destruct st as [report index]. unfold renderHabitat. cbn [snd].
  pose proof (map_at_present habitat [] index) as Hp.
  destruct (map_at habitat [] index) as [counted index1]. cbn [fst snd] in *.
  rewrite (surjective_pairing (map_at habitat [] index1)).
  cbn [snd]. apply map_at_kept. eauto.
Qed.

Lemma renderReport_index_touch (index : gmap string (list Animal)) :
  (renderReport index).2
  = (map_at "Bear Habitat" []
       (map_at "Tiger Habitat" []
          (map_at "Lion Habitat" []
             (map_at "Hyena Habitat" [] index).2).2).2).2.
Proof.
  unfold renderReport, habitatOrder. cbn [fold_left].
  now rewrite !renderHabitat_index.
Qed.

(** Against C4 as stated: rendering is not read-only on the index.  A
    habitat without an entry gets one, with no occupant; it happens in the
    run that has no arrival and in the run with the single hyena. *)
Lemma renderReport_adds_habitats :
  (renderReport ∅).2 ≠ ∅
  ∧ (∅ : gmap string (list Animal)) !! "Lion Habitat" = None
  ∧ (renderReport ∅).2 !! "Lion Habitat" = Some []
  ∧ ∃ zoo, for_each_line processArrival [arrival_kamari]
             (emptyZoo {[ "hyena" := ["Kamari"; "Simba"] ]}) = Ok zoo
           ∧ animalsByHabitat zoo !! "Lion Habitat" = None
           ∧ (renderReport (animalsByHabitat zoo)).2 !! "Lion Habitat" = Some []
           ∧ (renderReport (animalsByHabitat zoo)).2 ≠ animalsByHabitat zoo.
Proof.
  split; [|split; [|split]].
  - intros H. apply (f_equal (lookup "Lion Habitat")) in H.
    vm_compute in H. discriminate.
  - reflexivity.
  - vm_compute. reflexivity.
  - eexists. split; [vm_compute; reflexivity|]. split; [vm_compute; reflexivity|].
    split; [vm_compute; reflexivity|].
    intros H. apply (f_equal (lookup "Lion Habitat")) in H.
    vm_compute in H. discriminate.
Qed.

(** C4, as the code has it.  Rendering leaves the occupants of every habitat
    as they were: an entry of the index keeps its sequence, and a lookup that
    reads a missing habitat as empty gives the same answer before and after.
    What rendering changes is the set of keys: the four habitats of the
    report are all present afterwards, so the index is the same map exactly
    when all four were present before. *)
Theorem renderReport_index_frame (index : gmap string (list Animal)) :
  let index' := (renderReport index).2 in
  (∀ habitat occupants,
      index !! habitat = Some occupants → index' !! habitat = Some occupants)
  ∧ (∀ habitat, default [] (index' !! habitat) = default [] (index !! habitat))
  ∧ dom index' = dom index ∪ list_to_set habitatOrder
  ∧ (index' = index ↔ ∀ habitat, habitat ∈ habitatOrder → is_Some (index !! habitat)).
Proof.
  intros index'. subst index'. rewrite renderReport_index_touch.
  assert (Hdom : dom (map_at "Bear Habitat" []
       (map_at "Tiger Habitat" []
          (map_at "Lion Habitat" []
             (map_at "Hyena Habitat" [] index).2).2).2).2
      = dom index ∪ list_to_set habitatOrder).
  { rewrite !map_at_dom. unfold habitatOrder. set_solver. }
  split; [|split; [|split; [exact Hdom|split]]].
  - intros habitat occupants H. now do 4 apply map_at_lookup_Some.
  - intros habitat. now rewrite !map_at_lookup_default.
  - intros Heq habitat Hin. apply elem_of_dom. rewrite Heq in Hdom.
    rewrite Hdom. apply elem_of_union_r. now apply elem_of_list_to_set.
  - intros Hall.
    rewrite (map_at_kept "Hyena Habitat") by (apply Hall; unfold habitatOrder; set_solver).
    rewrite (map_at_kept "Lion Habitat") by (apply Hall; unfold habitatOrder; set_solver).
    rewrite (map_at_kept "Tiger Habitat") by (apply Hall; unfold habitatOrder; set_solver).
    apply map_at_kept, Hall. unfold habitatOrder. set_solver.
Qed.

Lemma renderReport_index_frame_witness :
  default [] ((renderReport ∅).2 !! "Hyena Habitat") = []
  ∧ dom (renderReport ∅).2 = (list_to_set habitatOrder : gset string).
Proof.
  destruct (renderReport_index_frame ∅) as (_ & Hdefault & Hdom & _).
  split; [exact (Hdefault "Hyena Habitat")|].
  rewrite Hdom, dom_empty_L. apply (left_id_L ∅ (∪)).
Defined.

(** ** The run as a whole *)

Lemma for_each_line_app {S : Type} (body : string → S → outcome S)
    (before after : list string) (st : S) :
  for_each_line body (before ++ after) st
  = st' ← for_each_line body before st; for_each_line body after st'.
Proof.
  revert st. induction before as [|line before IH]; intros st; [reflexivity|].
  cbn [for_each_line app]. destruct (body line st) as [st'| |]; cbn [mbind outcome_bind];
    [apply IH | reflexivity | reflexivity].
Qed.

(** A line that throws ends the loop with its exception. *)
Lemma for_each_line_throw {S : Type} (body : string → S → outcome S)
    (before after : list string) (line : string) (st st' : S) (ex : exception) :
  for_each_line body before st = Ok st' → body line st' = Throw ex →
  for_each_line body (before ++ line :: after) st = Throw ex.
Proof.
  intros Hbefore Hline. rewrite for_each_line_app, Hbefore.
  cbn [mbind outcome_bind for_each_line]. now rewrite Hline.
Qed.

(** Against C5 as stated: every arrival is processed without error, the
    report cannot be opened for writing, and the exit status is 1. *)
Lemma main_exit_1_though_lines_succeed :
  let fs := {| namesFile := Some names_kamari; arrivalsFile := Some arrival_kamari;
               reportWritable := false |} in
  (∃ loaded zoo, loadAnimalNames namesPath (namesFile fs) = Ok loaded
      ∧ for_each_line processArrival (getlines arrival_kamari) (emptyZoo loaded) = Ok zoo)
  ∧ main fs
    = Some {| exit_status := 1; reportFile := None; cout := "";
              cerr := "Fatal error: Unable to open report for writing: zooPopulation.txt"
                      +:+ endl |}.
Proof.
  split; [do 2 eexists; split|]; vm_compute; reflexivity.
Qed.

(** C5, as the code has it.  Once the names are loaded and the arrivals
    file is open: a line whose processing throws, after the lines before it
    succeeded, ends the run with exit status 1, the message on the error
    stream and the report file never opened; when every line succeeds, the
    run writes the report and exits with status 0 if the report file can be
    opened for writing, and exits with status 1 without a report if not.
    So the status is 0 only when every line succeeded. *)
Theorem main_arrival_errors (fs : Files) (loaded : gmap string (list string))
    (text : string) :
  loadAnimalNames namesPath (namesFile fs) = Ok loaded →
  arrivalsFile fs = Some text →
  (∀ before line after zoo ex,
      getlines text = before ++ line :: after →
      for_each_line processArrival before (emptyZoo loaded) = Ok zoo →
      processArrival line zoo = Throw ex →
      main fs = Some {| exit_status := 1; reportFile := None; cout := "";
                        cerr := "Fatal error: " +:+ what ex +:+ endl |})
  ∧ (∀ zoo,
      for_each_line processArrival (getlines text) (emptyZoo loaded) = Ok zoo →
      reportWritable fs = true →
      main fs = Some {| exit_status := 0;
                        reportFile := Some (renderReport (animalsByHabitat zoo)).1;
                        cout := "Zoo population report written to zooPopulation.txt"
                                +:+ endl;
                        cerr := "" |})
  ∧ (∀ zoo,
      for_each_line processArrival (getlines text) (emptyZoo loaded) = Ok zoo →
      reportWritable fs = false →
      main fs = Some {| exit_status := 1; reportFile := None; cout := "";
                        cerr := "Fatal error: Unable to open report for writing: zooPopulation.txt"
                                +:+ endl |})
  ∧ (∀ run,
      main fs = Some run → exit_status run = 0 →
      reportWritable fs = true
      ∧ ∃ zoo, for_each_line processArrival (getlines text) (emptyZoo loaded) = Ok zoo).
Proof.
  intros Hnames Harrivals. unfold main, main_try. rewrite Hnames, Harrivals.
  split; [|split; [|split]].
  - intros before line after zoo ex Hlines Hbefore Hline.
    rewrite Hlines, (for_each_line_throw _ _ _ _ _ _ _ Hbefore Hline). reflexivity.
  - intros zoo Hloop Hw. rewrite Hloop, Hw.
    destruct (renderReport (animalsByHabitat zoo)). reflexivity.
  - intros zoo Hloop Hw. rewrite Hloop, Hw. reflexivity.
  - intros run.
    destruct (for_each_line processArrival (getlines text) (emptyZoo loaded))
      as [zoo| |]; [|intros [= <-]; discriminate | discriminate].
    destruct (reportWritable fs); [|intros [= <-]; discriminate].
    eauto.
Qed.

Lemma main_arrival_errors_witness :
  main files_with_cat
  = Some {| exit_status := 1; reportFile := None; cout := "";
            cerr := "Fatal error: Malformed arrival entry: 2024-03-05, a cat" +:+ endl |}.
Proof.
  assert (Hnames : loadAnimalNames namesPath (namesFile files_with_cat)
                   = Ok {[ "hyena" := ["Kamari"; "Simba"] ]})
    by (vm_compute; reflexivity).
  destruct (main_arrival_errors files_with_cat _ _ Hnames eq_refl) as [Hthrow _].
  apply (Hthrow [arrival_kamari] "2024-03-05, a cat" []
           (mkZoo {[ "hyena" := ["Simba"] ]}
              [make_animal Hyena "Kamari" "Hy01" 3 "female" "tan" 70
                 "Friguia Park, Tunisia" "2024-03-05" "2021-03-15" "Motto Clan"]
              {[ "Hyena Habitat" :=
                   [make_animal Hyena "Kamari" "Hy01" 3 "female" "tan" 70
                      "Friguia Park, Tunisia" "2024-03-05" "2021-03-15" "Motto Clan"] ]}
              {[ "Hy" := 1 ]} {[ "hyena" := 1 ]})
           (runtime_error "Malformed arrival entry: 2024-03-05, a cat"));
    vm_compute; reflexivity.
Defined.




(** ** Identifiers within a run *)

Lemma speciesPrefix_prefixes (species p : string) :
  speciesPrefix species = Ok p → p ∈ prefixes.
Proof.
  unfold speciesPrefix, prefixes.
  repeat match goal with |- context [if ?b then _ else _] => destruct b end;
    intros [= <-]; set_solver.
Qed.

Lemma digits_value_fill (n : nat) (s : string) :
  digits_value 0 (fill_string n "0" +:+ s) = digits_value 0 s.
Proof. induction n as [|n IH]; [reflexivity | exact IH]. Qed.

Lemma sequence_number_read_back (k : Z) (w : nat) :
  0 <= k → digits_value 0 (setw_fill w "0" (decimal k)) = k.
Proof.
  intros Hk. unfold setw_fill. rewrite digits_value_fill. now apply digits_value_decimal.
Qed.

Lemma sequence_id_inj (p p' : string) (k k' : Z) :
  p ∈ prefixes → p' ∈ prefixes → 0 <= k → 0 <= k' →
  sequence_id p k = sequence_id p' k' → p = p' ∧ k = k'.
Proof.
  unfold prefixes, sequence_id. intros Hp Hp' Hk Hk' Heq.
  assert (Hnum : ∀ a b, setw_fill 2 "0" (decimal a) = setw_fill 2 "0" (decimal b) →
                        0 <= a → 0 <= b → a = b).
  { intros a b H Ha Hb. apply (f_equal (digits_value 0)) in H.
    now rewrite !sequence_number_read_back in H. }
  rewrite !elem_of_cons, elem_of_nil in Hp, Hp'.
  destruct Hp as [->|[->|[->|[->|[]]]]], Hp' as [->|[->|[->|[->|[]]]]];
    simpl in Heq; try discriminate; injection Heq as Heq; auto.
Qed.

Lemma calls_for_take_lt (p sp : string) (calls : list string) (i j : nat) :
  calls !! i = Some sp → has_prefix p sp = true → (i < j)%nat →
  (calls_for p (take i calls) < calls_for p (take j calls))%nat.
Proof.
  revert i j. induction calls as [|sp0 rest IH]; intros i j Hi Hsp Hij; [discriminate|].
  destruct j as [|j]; [lia|]. destruct i as [|i]; simpl in *.
  - injection Hi as ->. rewrite Hsp. lia.
  - specialize (IH i j Hi Hsp ltac:(lia)). lia.
Qed.

Lemma has_prefix_true (p species : string) :
  speciesPrefix species = Ok p → has_prefix p species = true.
Proof. intros H. unfold has_prefix. rewrite H. apply String.eqb_refl. Qed.

Lemma has_prefix_other (p q species : string) :
  speciesPrefix species = Ok q → has_prefix p species = bool_decide (q = p).
Proof.
  intros H. unfold has_prefix. rewrite H.
  destruct (String.eqb_spec q p); [now rewrite bool_decide_eq_true_2 |
                                   now rewrite bool_decide_eq_false_2].
Qed.

Lemma genUniqueId_next (species p : string) (counters : gmap string Z) :
  speciesPrefix species = Ok p →
  0 <= default 0 (counters !! p) < INT_MAX →
  genUniqueId species counters
  = Ok (sequence_id p (default 0 (counters !! p) + 1),
        <[p := default 0 (counters !! p) + 1]> counters).
Proof.
  intros Hp Hn. unfold genUniqueId, sequence_id. rewrite Hp. cbn [mbind outcome_bind].
  rewrite int_checked_ok by (unfold INT_MIN; lia). cbn [mbind outcome_bind].
  now rewrite show_int_nonneg by lia.
Qed.

(** The calls of a run, from any counters that leave room for them: the
    call at position [i] gets the number after the counter's start and the
    earlier calls for the same prefix. *)
Lemma issueIds_numbers (calls : list string) (counters : gmap string Z) :
  Forall supported calls →
  (∀ p, 0 <= default 0 (counters !! p)
        ∧ default 0 (counters !! p) + Z.of_nat (calls_for p calls) <= INT_MAX) →
  ∃ ids counters',
    issueIds calls counters = Ok (ids, counters')
    ∧ length ids = length calls
    ∧ ∀ i species p,
        calls !! i = Some species → speciesPrefix species = Ok p →
        ids !! i = Some (sequence_id p (default 0 (counters !! p) + 1
                           + Z.of_nat (calls_for p (take i calls)))).
Proof.
  revert counters. induction calls as [|sp rest IH]; intros counters Hall Hroom.
  - exists [], counters. repeat split. intros i ? ? H. discriminate.
  - apply Forall_cons in Hall as [[p0 Hp0] Hall].
    set (n0 := default 0 (counters !! p0)).
    assert (Hn0 : 0 <= n0 ∧ n0 + Z.of_nat (calls_for p0 (sp :: rest)) <= INT_MAX)
      by apply Hroom.
    cbn [calls_for] in Hn0. rewrite (has_prefix_true p0 sp Hp0) in Hn0.
    destruct (IH (<[p0 := n0 + 1]> counters) Hall) as (ids & counters' & Hrun & Hlen & Hnum).
    { intros p. destruct (decide (p0 = p)) as [<-|Hne].
      - rewrite lookup_insert_eq. simpl. lia.
      - rewrite lookup_insert_ne by assumption.
        specialize (Hroom p). cbn [calls_for] in Hroom. lia. }
    exists (sequence_id p0 (n0 + 1) :: ids), counters'.
    split; [|split].
    + cbn [issueIds]. rewrite (genUniqueId_next sp p0) by (assumption || fold n0; lia).
      fold n0. cbn [mbind outcome_bind]. rewrite Hrun. reflexivity.
    + simpl. now rewrite Hlen.
    + intros [|i] species p Hi Hp.
      * injection Hi as <-. rewrite Hp0 in Hp. injection Hp as <-.
        simpl. fold n0. now rewrite Z.add_0_r.
      * change ((sp :: rest) !! S i) with (rest !! i) in Hi.
        change ((sequence_id p0 (n0 + 1) :: ids) !! S i) with (ids !! i).
        rewrite (Hnum i species p Hi Hp). do 2 f_equal.
        cbn [take calls_for]. rewrite (has_prefix_other p p0 sp Hp0).
        destruct (decide (p0 = p)) as [<-|Hne].
        -- rewrite lookup_insert_eq, bool_decide_eq_true_2 by reflexivity.
           simpl default. fold n0. lia.
        -- rewrite lookup_insert_ne, bool_decide_eq_false_2 by assumption. lia.
Qed.

Lemma genUniqueId_inv (species id : string) (counters counters' : gmap string Z) :
  genUniqueId species counters = Ok (id, counters') →
  ∃ p, speciesPrefix species = Ok p
       ∧ INT_MIN <= default 0 (counters !! p) + 1 <= INT_MAX
       ∧ id = p +:+ setw_fill 2 "0" (show_int (default 0 (counters !! p) + 1))
       ∧ counters' = <[p := default 0 (counters !! p) + 1]> counters.
Proof.
  unfold genUniqueId. destruct (speciesPrefix species) as [p| |]; try discriminate.
  cbn [mbind outcome_bind]. unfold int_checked.
  destruct (in_int _) eqn:Hin; [|discriminate].
  cbn [mbind outcome_bind]. intros [= <- <-].
  exists p. apply in_int_range in Hin. auto.
Qed.

(** A run that returns had only supported species and never took a counter
    past [INT_MAX]. *)
Lemma issueIds_inv (calls ids : list string) (counters counters' : gmap string Z) :
  (∀ p, 0 <= default 0 (counters !! p) <= INT_MAX) →
  issueIds calls counters = Ok (ids, counters') →
  Forall supported calls
  ∧ ∀ p, default 0 (counters !! p) + Z.of_nat (calls_for p calls) <= INT_MAX.
Proof.
  revert ids counters counters'.
  induction calls as [|sp rest IH]; intros ids counters counters' Hpos Hrun.
  - split; [constructor|]. intros p. specialize (Hpos p). simpl. lia.
  - cbn [issueIds] in Hrun.
    destruct (genUniqueId sp counters) as [[id counters1]| |] eqn:Hid; try discriminate.
    cbn [mbind outcome_bind] in Hrun.
    destruct (issueIds rest counters1) as [[ids1 counters2]| |] eqn:Hrest; try discriminate.
    apply genUniqueId_inv in Hid as (p0 & Hp0 & Hin & _ & ->).
    assert (Hpos1 : ∀ p, 0 <= default 0
              (<[p0 := default 0 (counters !! p0) + 1]> counters !! p) <= INT_MAX).
    { intros p. destruct (decide (p0 = p)) as [<-|Hne].
      - rewrite lookup_insert_eq. simpl. specialize (Hpos p0). lia.
      - now rewrite lookup_insert_ne. }
    destruct (IH _ _ _ Hpos1 Hrest) as [Hall Hroom].
    split; [constructor; [now exists p0 | exact Hall]|].
    intros p. specialize (Hroom p). cbn [calls_for].
    rewrite (has_prefix_other p p0 sp Hp0).
    destruct (decide (p0 = p)) as [<-|Hne].
    + rewrite lookup_insert_eq in Hroom. simpl default in Hroom.
      rewrite bool_decide_eq_true_2 by reflexivity. lia.
    + rewrite lookup_insert_ne in Hroom by assumption.
      rewrite bool_decide_eq_false_2 by assumption. lia.
Qed.

Lemma empty_counters_room (calls : list string) :
  (∀ p, Z.of_nat (calls_for p calls) <= INT_MAX) →
  ∀ p, 0 <= default 0 ((∅ : gmap string Z) !! p)
       ∧ default 0 ((∅ : gmap string Z) !! p) + Z.of_nat (calls_for p calls) <= INT_MAX.
Proof. intros H p. rewrite lookup_empty. simpl. specialize (H p). lia. Qed.

(** The identifiers of a run that returns are pairwise distinct. *)
Lemma issueIds_NoDup (calls ids : list string) (counters : gmap string Z) :
  issueIds calls ∅ = Ok (ids, counters) → NoDup ids.
Proof.
  intros Hrun.
  destruct (issueIds_inv calls ids ∅ counters) as [Hall Hroom]; [|exact Hrun|].
  { intros p. rewrite lookup_empty. simpl. unfold INT_MAX. lia. }
  destruct (issueIds_numbers calls ∅ Hall) as (ids' & counters' & Hrun' & Hl & Hnum).
  { intros p. specialize (Hroom p). rewrite lookup_empty in *. simpl in *. lia. }
  rewrite Hrun in Hrun'. injection Hrun' as <- <-.
  assert (Hlt : ∀ i j x, (i < j)%nat → ids !! i = Some x → ids !! j = Some x → False).
  { intros i j x Hij Hi Hj.
    destruct (lookup_lt_is_Some_2 calls i) as [spi Hspi];
      [rewrite <- Hl; eapply lookup_lt_Some; eassumption|].
    destruct (lookup_lt_is_Some_2 calls j) as [spj Hspj];
      [rewrite <- Hl; eapply lookup_lt_Some; eassumption|].
    destruct (proj1 (Forall_lookup _ _) Hall i spi Hspi) as [pi Hpi].
    destruct (proj1 (Forall_lookup _ _) Hall j spj Hspj) as [pj Hpj].
    rewrite (Hnum i spi pi Hspi Hpi) in Hi. rewrite (Hnum j spj pj Hspj Hpj) in Hj.
    rewrite lookup_empty in Hi, Hj. simpl default in Hi, Hj.
    rewrite <- Hj in Hi. injection Hi as Hi.
    apply sequence_id_inj in Hi as [-> Hk];
      eauto using speciesPrefix_prefixes; try lia.
    pose proof (calls_for_take_lt pj spi calls i j Hspi (has_prefix_true _ _ Hpi) Hij).
    lia. }
  apply NoDup_alt. intros i j x Hi Hj.
  destruct (Nat.lt_trichotomy i j) as [Hij|[->|Hji]]; [|reflexivity|];
    exfalso; eauto.
Qed.

Lemma decimal_covers (k : Z) : 0 <= k → k < 10 ^ Z.of_nat (String.length (decimal k)).
Proof.
  revert k. apply decimal_ind.
  - intros d Hd. rewrite decimal_small by assumption. simpl. lia.
  - intros q d Hq Hd IH. rewrite decimal_step, length_append by assumption.
    cbn [String.length]. rewrite Nat.add_1_r, Nat2Z.inj_succ, Z.pow_succ_r by lia. lia.
Qed.

Lemma decimal_three_digits (k : Z) : 100 <= k → (3 <= String.length (decimal k))%nat.
Proof.
  intros Hk. pose proof (decimal_covers k ltac:(lia)) as Hc.
  destruct (String.length (decimal k)) as [|[|[|n]]]; simpl in Hc; lia.
Qed.

Lemma issueIds_twice (species p : string) :
  speciesPrefix species = Ok p →
  issueIds [species; species] ∅ = Ok ([p +:+ "01"; p +:+ "02"], {[ p := 2 ]}).
Proof.
  intros Hp. cbn [issueIds].
  rewrite (genUniqueId_next species p ∅ Hp) by (rewrite lookup_empty; simpl; unfold INT_MAX; lia).
  cbn [mbind outcome_bind]. rewrite lookup_empty. simpl default.
  rewrite (genUniqueId_next species p _ Hp)
    by (rewrite lookup_insert_eq; simpl; unfold INT_MAX; lia).
  cbn [mbind outcome_bind]. rewrite lookup_insert_eq. simpl default.
  rewrite insert_insert_eq, insert_empty. reflexivity.
Qed.

(** C8.  In a run of calls for supported species, starting with no counter
    and with no more calls for one species than an [int] counts, every call
    returns: the call at position [i] for a species with prefix [p] gets [p]
    followed by the number, at least two digits wide, of the calls made so
    far for that prefix, itself included.  So the numbers of a prefix are
    1, 2, 3, ... without a gap, the first two calls give [p01] and [p02], and
    no identifier is issued twice. *)
Theorem genUniqueId_gap_free :
  (∀ calls,
      Forall supported calls → (∀ p, Z.of_nat (calls_for p calls) <= INT_MAX) →
      ∃ ids counters,
        issueIds calls ∅ = Ok (ids, counters)
        ∧ (∀ i species p,
              calls !! i = Some species → speciesPrefix species = Ok p →
              ids !! i
              = Some (p +:+ setw_fill 2 "0"
                        (show_int (1 + Z.of_nat (calls_for p (take i calls))))))
        ∧ NoDup ids)
  ∧ (∀ species p,
        speciesPrefix species = Ok p →
        issueIds [species; species] ∅ = Ok ([p +:+ "01"; p +:+ "02"], {[ p := 2 ]})).
Proof.
  split; [|exact issueIds_twice].
  intros calls Hall Hroom.
  destruct (issueIds_numbers calls ∅ Hall (empty_counters_room calls Hroom))
    as (ids & counters & Hrun & Hl & Hnum).
  exists ids, counters. split; [exact Hrun|]. split.
  - intros i species p Hi Hp. rewrite (Hnum i species p Hi Hp), lookup_empty.
    simpl default. unfold sequence_id. rewrite show_int_nonneg by lia.
    do 3 f_equal.
  - eapply issueIds_NoDup; eassumption.
Qed.

Lemma calls_for_length (p : string) (calls : list string) :
  (calls_for p calls <= length calls)%nat.
Proof. induction calls as [|sp rest IH]; simpl; [lia|]. destruct (has_prefix p sp); lia. Qed.

Lemma genUniqueId_gap_free_witness :
  ∃ ids counters,
    issueIds five_calls ∅ = Ok (ids, counters)
    ∧ ids = ["Hy01"; "Li01"; "Hy02"; "Be01"; "Hy03"].
Proof.
  destruct (proj1 genUniqueId_gap_free five_calls) as (ids & counters & Hrun & _).
  - repeat constructor; eexists; vm_compute; reflexivity.
  - intros p. pose proof (calls_for_length p five_calls) as H.
    assert (length five_calls = 5%nat) by reflexivity. unfold INT_MAX. lia.
  - exists ids, counters. split; [exact Hrun|].
    vm_compute in Hrun. now injection Hrun as <- _.
Defined.

(** C10.  The width 2 of the number is a minimum.  A call that finds the
    counter of its prefix at [n >= 99] returns the prefix followed by all
    the decimal digits of [n + 1]: three digits or more, from which the
    number reads back.  So "Hy100" follows "Hy99".  The identifiers of every
    run of calls that returns are pairwise distinct, however long the run;
    and a run returns when its species are supported and none is called more
    often than an [int] counts (one call more overflows the counter, which
    C++ leaves undefined). *)
Theorem genUniqueId_never_truncates :
  (∀ species p counters n,
      speciesPrefix species = Ok p → counters !! p = Some n → 99 <= n < INT_MAX →
      genUniqueId species counters
      = Ok (p +:+ decimal (n + 1), <[p := n + 1]> counters)
      ∧ (3 <= String.length (decimal (n + 1)))%nat
      ∧ digits_value 0 (decimal (n + 1)) = n + 1)
  ∧ genUniqueId "hyena" {[ "Hy" := 99 ]} = Ok ("Hy100", {[ "Hy" := 100 ]})
  ∧ (∀ calls ids counters, issueIds calls ∅ = Ok (ids, counters) → NoDup ids)
  ∧ (∀ calls,
        Forall supported calls → (∀ p, Z.of_nat (calls_for p calls) <= INT_MAX) →
        ∃ ids counters, issueIds calls ∅ = Ok (ids, counters)).
Proof.
  split; [|split; [|split]].
  - intros species p counters n Hp Hn Hrange.
    pose proof (decimal_three_digits (n + 1) ltac:(lia)) as Hlen.
    split; [|split; [exact Hlen | apply digits_value_decimal; lia]].
    rewrite (genUniqueId_next species p counters Hp) by (rewrite Hn; simpl; lia).
    rewrite Hn. simpl default. unfold sequence_id.
    rewrite setw_fill_wide by lia. reflexivity.
  - vm_compute. reflexivity.
  - exact issueIds_NoDup.
  - intros calls Hall Hroom.
    destruct (issueIds_numbers calls ∅ Hall (empty_counters_room calls Hroom))
      as (ids & counters & Hrun & _).
    now exists ids, counters.
Qed.

Lemma genUniqueId_never_truncates_witness :
  genUniqueId "Tiger" {[ "Ti" := 12344 ]} = Ok ("Ti12345", {[ "Ti" := 12345 ]}).
Proof.
  assert (Hn : ({[ "Ti" := 12344 ]} : gmap string Z) !! "Ti" = Some 12344)
    by apply lookup_singleton_eq.
  assert (Hrange : 99 <= 12344 < INT_MAX) by (unfold INT_MAX; lia).
  destruct (proj1 genUniqueId_never_truncates "Tiger" "Ti" _ 12344 eq_refl Hn Hrange)
    as [Hid _].
  rewrite Hid. vm_compute. reflexivity.
Defined.

(** * Further properties of the code *)

(** ** [trim] and [toLower] *)

Lemma string_rev_onto_app (s acc : string) :
  string_rev_onto s acc = string_rev s +:+ acc.
Proof.
  unfold string_rev. revert acc. induction s as [|c s IH]; intros acc; simpl; [reflexivity|].
  rewrite IH, (IH (String c "")), append_assoc. reflexivity.
Qed.

Lemma string_rev_cons (c : ascii) (s : string) :
  string_rev (String c s) = string_rev s +:+ String c "".
Proof. unfold string_rev at 1. simpl. apply string_rev_onto_app. Qed.

Lemma string_rev_app (a b : string) :
  string_rev (a +:+ b) = string_rev b +:+ string_rev a.
Proof.
  induction a as [|c a IH]; simpl.
  - now rewrite append_empty_r.
  - now rewrite !string_rev_cons, IH, append_assoc.
Qed.

Lemma string_rev_involutive (s : string) : string_rev (string_rev s) = s.
Proof.
  induction s as [|c s IH]; [reflexivity|].
  now rewrite string_rev_cons, string_rev_app, IH.
Qed.

Lemma length_string_rev (s : string) : String.length (string_rev s) = String.length s.
Proof.
  induction s as [|c s IH]; [reflexivity|].
  rewrite string_rev_cons, length_append, IH. simpl. lia.
Qed.

Lemma all_space_app (a b : string) : all_space (a +:+ b) = all_space a && all_space b.
Proof.
  induction a as [|c a IH]; simpl; [reflexivity|]. now rewrite IH, andb_assoc.
Qed.

Lemma all_space_rev (s : string) : all_space (string_rev s) = all_space s.
Proof.
  induction s as [|c s IH]; [reflexivity|].
  rewrite string_rev_cons, all_space_app, IH. simpl. rewrite andb_true_r. apply andb_comm.
Qed.

Lemma leading_spaces_all (ws s : string) :
  all_space ws = true →
  leading_spaces (ws +:+ s) = (String.length ws + leading_spaces s)%nat.
Proof.
  induction ws as [|c ws IH]; simpl; intros H; [reflexivity|].
  apply andb_prop in H as [-> H]. now rewrite IH.
Qed.

Lemma leading_spaces_none (s : string) :
  no_space_ahead s = true → empty s = false → ∀ t, leading_spaces (s +:+ t) = 0%nat.
Proof.
  destruct s as [|c s]; [discriminate|]. simpl. intros H%negb_true_iff _ t. now rewrite H.
Qed.

Lemma leading_spaces_only (ws : string) :
  all_space ws = true → leading_spaces ws = String.length ws.
Proof.
  intros H. rewrite <- (append_empty_r ws) at 1. rewrite leading_spaces_all by assumption.
  simpl. lia.
Qed.

Lemma substring_middle (a b c : string) :
  substr (String.length a) (String.length b) (a +:+ b +:+ c) = b.
Proof.
  unfold substr. induction a as [|x a IH]; simpl; [|exact IH].
  revert c. induction b as [|y b IHb]; intros c; simpl.
  - now destruct c.
  - now rewrite IHb.
Qed.

Lemma empty_string_rev (s : string) : empty (string_rev s) = empty s.
Proof.
  destruct s as [|c s]; [reflexivity|]. rewrite string_rev_cons.
  destruct (string_rev s); reflexivity.
Qed.

(** [trim] on a text given as white space, a core with clean edges, and
    white space. *)
Lemma trim_decomposed (front core back : string) :
  all_space front = true → all_space back = true → edge_clean core →
  trim (front +:+ core +:+ back) = core.
Proof.
  intros Hf Hb [Hc1 Hc2]. unfold trim. cbv zeta.
  fold (string_rev (front +:+ core +:+ back)).
  rewrite !string_rev_app, !length_append, append_assoc.
  rewrite (leading_spaces_all front) by assumption.
  rewrite (leading_spaces_all (string_rev back)) by now rewrite all_space_rev.
  rewrite length_string_rev.
  destruct core as [|c core'] eqn:Hcore.
  - simpl String.append. rewrite !leading_spaces_only by
      (assumption || now rewrite all_space_rev).
    rewrite length_string_rev. simpl.
    match goal with
    | |- context [Nat.leb ?a ?b] => destruct (Nat.leb_spec a b); [reflexivity | lia]
    end.
  - rewrite <- Hcore in *.
    assert (He : empty core = false) by now rewrite Hcore.
    rewrite (leading_spaces_none core Hc1 He).
    rewrite (leading_spaces_none (string_rev core) Hc2) by now rewrite empty_string_rev.
    assert (0 < String.length core)%nat by (rewrite Hcore; simpl; lia).
    match goal with
    | |- context [Nat.leb ?a ?b] => destruct (Nat.leb_spec a b); [lia|]
    end.
    replace (String.length front + 0)%nat with (String.length front) by lia.
    replace (String.length front + (String.length core + String.length back)
               - (String.length back + 0) - String.length front)%nat
      with (String.length core) by lia.
    apply substring_middle.
Qed.

Lemma no_space_ahead_prefix (a b : string) :
  no_space_ahead (a +:+ b) = true → empty a = false → no_space_ahead a = true.
Proof. destruct a; [discriminate | auto]. Qed.

(** Every text is white space, a core with clean edges, and white space. *)
Lemma edge_decomposition (s : string) :
  ∃ front core back,
    s = front +:+ core +:+ back ∧ all_space front = true ∧ all_space back = true
    ∧ edge_clean core.
Proof.
  destruct (skipws_spec s) as (front & Hs & Hfront & Hno).
  destruct (skipws_spec (string_rev (skipws s))) as (kcab & Hr & Hback & Hno').
  set (eroc := skipws (string_rev (skipws s))) in *.
  exists front, (string_rev eroc), (string_rev kcab).
  assert (Ht : skipws s = string_rev eroc +:+ string_rev kcab).
  { rewrite <- string_rev_app, <- Hr. now rewrite string_rev_involutive. }
  repeat split.
  - now rewrite <- Ht.
  - assumption.
  - now rewrite all_space_rev.
  - destruct (empty (string_rev eroc)) eqn:He.
    + destruct (string_rev eroc); [reflexivity | discriminate].
    + rewrite Ht in Hno. now apply (no_space_ahead_prefix _ _ Hno).
  - now rewrite string_rev_involutive.
Qed.

Lemma trim_clean (core : string) : edge_clean core → trim core = core.
Proof.
  intros H. pose proof (trim_decomposed "" core "" eq_refl eq_refl H) as Ht.
  simpl in Ht. now rewrite append_empty_r in Ht.
Qed.

Lemma trim_all_space (ws : string) : all_space ws = true → trim ws = "".
Proof.
  intros H. pose proof (trim_decomposed ws "" "" H eq_refl (conj eq_refl eq_refl)) as Ht.
  simpl in Ht. now rewrite append_empty_r in Ht.
Qed.

(** X1.  [trim] removes the white space at both ends and nothing else: the text
    is white space, the result, and white space; the result neither starts
    nor ends with white space; trimming twice changes nothing; the result is
    empty exactly for a text of white space only. *)
Theorem trim_strips_both_ends (input : string) :
  (∃ front back,
      input = front +:+ trim input +:+ back
      ∧ all_space front = true ∧ all_space back = true)
  ∧ edge_clean (trim input)
  ∧ trim (trim input) = trim input
  ∧ (all_space input = true ↔ trim input = "" ).
Proof.
  destruct (edge_decomposition input) as (front & core & back & Hs & Hf & Hb & Hclean).
  assert (Ht : trim input = core) by (rewrite Hs; now apply trim_decomposed).
  rewrite Ht. split; [|split; [|split]].
  - exists front, back. now rewrite <- Hs.
  - exact Hclean.
  - now apply trim_clean.
  - split.
    + intros Hall. rewrite <- Ht. now apply trim_all_space.
    + intros ->. rewrite Hs. simpl. now rewrite all_space_app, Hf, Hb.
Qed.

Lemma tolower_upper (c : ascii) :
  isupper c = true → nat_of_ascii (tolower c) = (nat_of_ascii c + 32)%nat.
Proof.
  unfold isupper, tolower. intros H. rewrite H.
  apply andb_prop in H as [H1%Nat.leb_le H2%Nat.leb_le].
  apply nat_ascii_embedding. lia.
Qed.

Lemma tolower_other (c : ascii) : isupper c = false → tolower c = c.
Proof. unfold isupper, tolower. now intros ->. Qed.

Lemma isupper_range (c : ascii) :
  isupper c = true ↔ (65 <= nat_of_ascii c <= 90)%nat.
Proof. unfold isupper. rewrite andb_true_iff, !Nat.leb_le. reflexivity. Qed.

Lemma isupper_tolower (c : ascii) : isupper (tolower c) = false.
Proof.
  destruct (isupper c) eqn:Hc.
  - apply not_true_iff_false. intros H%isupper_range.
    rewrite (tolower_upper c Hc) in H. apply isupper_range in Hc. lia.
  - now rewrite tolower_other.
Qed.

Lemma isspace_tolower (c : ascii) : isspace (tolower c) = isspace c.
Proof.
  destruct (isupper c) eqn:Hc; [|now rewrite tolower_other].
  unfold isspace. rewrite (tolower_upper c Hc). apply isupper_range in Hc.
  destruct (Nat.eqb_spec (nat_of_ascii c + 32) 32), (Nat.eqb_spec (nat_of_ascii c) 32);
    try lia.
  destruct (Nat.leb_spec (nat_of_ascii c + 32) 13), (Nat.leb_spec (nat_of_ascii c) 13);
    try lia.
Qed.

Lemma length_toLower (s : string) : String.length (toLower s) = String.length s.
Proof. induction s as [|c s IH]; simpl; [reflexivity | now rewrite IH]. Qed.

Lemma toLower_app (a b : string) : toLower (a +:+ b) = toLower a +:+ toLower b.
Proof. induction a as [|c a IH]; simpl; [reflexivity | now rewrite IH]. Qed.

Lemma no_upper_toLower (s : string) : no_upper (toLower s) = true.
Proof.
  induction s as [|c s IH]; simpl; [reflexivity|]. now rewrite isupper_tolower, IH.
Qed.

Lemma toLower_no_upper (s : string) : no_upper s = true → toLower s = s.
Proof.
  induction s as [|c s IH]; simpl; [reflexivity|].
  intros [Hc Hs]%andb_prop. apply negb_true_iff in Hc.
  now rewrite tolower_other, IH.
Qed.

Lemma toLower_idempotent (s : string) : toLower (toLower s) = toLower s.
Proof. apply toLower_no_upper, no_upper_toLower. Qed.

Lemma all_space_toLower (s : string) : all_space (toLower s) = all_space s.
Proof.
  induction s as [|c s IH]; simpl; [reflexivity|]. now rewrite isspace_tolower, IH.
Qed.

Lemma no_space_ahead_toLower (s : string) : no_space_ahead (toLower s) = no_space_ahead s.
Proof. destruct s as [|c s]; simpl; [reflexivity|]. now rewrite isspace_tolower. Qed.

Lemma string_rev_toLower (s : string) : string_rev (toLower s) = toLower (string_rev s).
Proof.
  induction s as [|c s IH]; [reflexivity|].
  cbn [toLower]. now rewrite !string_rev_cons, toLower_app, IH.
Qed.

Lemma trim_toLower (s : string) : trim (toLower s) = toLower (trim s).
Proof.
  destruct (edge_decomposition s) as (front & core & back & Hs & Hf & Hb & [Hc1 Hc2]).
  rewrite Hs at 2. rewrite (trim_decomposed front core back) by (assumption || now split).
  rewrite Hs, !toLower_app. apply trim_decomposed.
  - now rewrite all_space_toLower.
  - now rewrite all_space_toLower.
  - split; [now rewrite no_space_ahead_toLower|].
    now rewrite string_rev_toLower, no_space_ahead_toLower.
Qed.

(** X2.  [toLower] keeps the length, is the identity on a text without upper
    case letters, leaves no upper case letter, so that applying it twice is
    applying it once, and it commutes with [trim]. *)
Theorem toLower_normalises (value : string) :
  String.length (toLower value) = String.length value
  ∧ no_upper (toLower value) = true
  ∧ (no_upper value = true ↔ toLower value = value)
  ∧ toLower (toLower value) = toLower value
  ∧ trim (toLower value) = toLower (trim value).
Proof.
  split; [apply length_toLower|]. split; [apply no_upper_toLower|].
  split; [|split; [apply toLower_idempotent | apply trim_toLower]].
  split; [apply toLower_no_upper|]. intros <-. apply no_upper_toLower.
Qed.

(** ** [split] *)

Lemma starts_with_cut (pat s : string) :
  starts_with pat s = true → s = pat +:+ substr_from (String.length pat) s.
Proof.
  revert s. induction pat as [|p pat IH]; intros s H; [reflexivity|].
  destruct s as [|c s]; [discriminate|]. simpl in *.
  apply andb_prop in H as [Hc%Ascii.eqb_eq H]. subst c. f_equal. now apply IH.
Qed.

Lemma find_cut (pat s : string) (pos : nat) :
  find pat s = Some pos →
  s = substr 0 pos s +:+ pat +:+ substr_from (pos + String.length pat) s.
Proof.
  revert pos. induction s as [|c s IH]; intros pos; cbn [find].
  - destruct (starts_with pat "") eqn:E; [|discriminate]. intros [= <-].
    now apply starts_with_cut.
  - destruct (starts_with pat (String c s)) eqn:E.
    + intros [= <-]. now apply starts_with_cut.
    + destruct (find pat s) as [pos'|]; [|discriminate]. intros [= <-].
      cbn [substr String.substring Nat.add substr_from String.append].
      f_equal. now apply IH.
Qed.

Lemma starts_with_substr (pat s : string) (n : nat) :
  starts_with pat (substr 0 n s) = true → starts_with pat s = true.
Proof.
  revert s n. induction pat as [|p pat IH]; intros s n H; [reflexivity|].
  destruct s as [|c s]; [now destruct n|].
  destruct n as [|n]; [discriminate|]. simpl in *.
  apply andb_prop in H as [-> H]. simpl. now apply (IH s n).
Qed.

(** The text in front of the first occurrence holds no occurrence. *)
Lemma find_prefix_none (pat s : string) (pos : nat) :
  pat ≠ "" → find pat s = Some pos → find pat (substr 0 pos s) = None.
Proof.
  intros Hpat. revert pos. induction s as [|c s IH]; intros pos; cbn [find].
  - destruct (starts_with pat "") eqn:E; [|discriminate].
    destruct pat; [congruence | discriminate].
  - destruct (starts_with pat (String c s)) eqn:E.
    + intros [= <-]. cbn. destruct pat; [congruence | reflexivity].
    + destruct (find pat s) as [pos'|] eqn:Hf; [|discriminate]. intros [= <-].
      cbn [substr String.substring find].
      destruct (starts_with pat (String c (String.substring 0 pos' s))) eqn:E'.
      * apply (starts_with_substr pat (String c s) (S pos')) in E'. congruence.
      * fold (substr 0 pos' s). now rewrite IH.
Qed.

Lemma split_loop_tokens (fuel : nat) (remaining delimiter : string)
    (tokens result : list string) :
  delimiter ≠ "" →
  split_loop fuel remaining delimiter tokens = Some result →
  ∃ new tail,
    result = tokens ++ new
    ∧ (∀ token, token ∈ new → find delimiter token = None)
    ∧ (tail = "" ∨ tail = delimiter ∧ new ≠ [])
    ∧ remaining = join delimiter new +:+ tail.
Proof.
  intros Hd. revert remaining tokens result.
  induction fuel as [|fuel IH]; intros remaining tokens result; [discriminate|].
  cbn [split_loop]. destruct (find delimiter remaining) as [pos|] eqn:Hfind.
  - intros Hrun. apply IH in Hrun as (new & tail & -> & Hnone & Htail & Hrest).
    exists (substr 0 pos remaining :: new).
    pose proof (find_cut _ _ _ Hfind) as Hcut. unfold erase_front in Hrest.
    rewrite Hrest in Hcut.
    assert (Hhead : ∀ token, token ∈ substr 0 pos remaining :: new →
                             find delimiter token = None).
    { intros token [->|Hin]%elem_of_cons; [now apply find_prefix_none | auto]. }
    destruct new as [|token new'].
    + destruct Htail as [->|[_ []]]; [|reflexivity].
      exists delimiter. rewrite <- app_assoc.
      split; [reflexivity|]. split; [exact Hhead|]. split.
      * right. split; [reflexivity | discriminate].
      * rewrite Hcut at 1. cbn [join String.append]. now rewrite append_empty_r.
    + exists tail. rewrite <- app_assoc.
      split; [reflexivity|]. split; [exact Hhead|]. split.
      * destruct Htail as [->|[-> _]]; [now left | right; split; [reflexivity | discriminate]].
      * rewrite Hcut at 1. cbn [join]. now rewrite !append_assoc.
  - intros [= <-]. destruct remaining as [|c r] eqn:Hr.
    + exists [], "". rewrite app_nil_r.
      split; [reflexivity|]. split; [|split; [now left | reflexivity]].
      intros token Hin. now apply elem_of_nil in Hin.
    + exists [remaining], "". rewrite Hr.
      split; [reflexivity|]. split; [|split; [now left|]].
      * intros token ->%list_elem_of_singleton. exact Hfind.
      * cbn. now rewrite append_empty_r.
Qed.

Lemma split_loop_acc (fuel : nat) (remaining delimiter : string) (tokens : list string) :
  split_loop fuel remaining delimiter tokens
  = (tokens ++.) <$> split_loop fuel remaining delimiter [].
Proof.
  revert remaining tokens. induction fuel as [|fuel IH]; intros remaining tokens; [reflexivity|].
  cbn [split_loop]. destruct (find delimiter remaining) as [pos|].
  - rewrite IH, (IH _ ([] ++ _)). rewrite <- option_fmap_compose.
    apply option_fmap_ext. intros l. simpl. now rewrite <- app_assoc.
  - simpl. destruct (empty remaining); [now rewrite app_nil_r | reflexivity].
Qed.

(** The two turns of the loop of [split], as equations. *)
Lemma split_none (value delimiter : string) :
  find delimiter value = None →
  split value delimiter = if empty value then [] else [value].
Proof. intros H. unfold split. cbn [split_loop]. now rewrite H. Qed.

Lemma split_some (value delimiter : string) (pos : nat) :
  delimiter ≠ "" → find delimiter value = Some pos →
  split value delimiter
  = substr 0 pos value
    :: split (substr_from (pos + String.length delimiter) value) delimiter.
Proof.
  intros Hd Hfind. unfold split at 1. cbn [split_loop]. rewrite Hfind.
  unfold erase_front. rewrite split_loop_acc, split_terminates; [reflexivity | exact Hd |].
  rewrite length_substr_from. apply find_bound in Hfind.
  assert (0 < String.length delimiter)%nat by (destruct delimiter; simpl; [congruence | lia]).
  lia.
Qed.

(** The input is the tokens joined, then nothing or one delimiter; in the
    first case the last token is not empty. *)
Lemma split_decomposed (delimiter : string) (n : nat) (value : string) :
  delimiter ≠ "" → (String.length value < n)%nat →
  ∃ tail,
    ((tail = "" ∧ last (split value delimiter) ≠ Some "")
     ∨ (tail = delimiter ∧ split value delimiter ≠ []))
    ∧ value = join delimiter (split value delimiter) +:+ tail.
Proof.
  intros Hd. revert value. induction n as [|n IH]; intros value Hlen; [lia|].
  destruct (find delimiter value) as [pos|] eqn:Hfind.
  - rewrite (split_some _ _ _ Hd Hfind).
    pose proof (find_cut _ _ _ Hfind) as Hcut.
    pose proof (find_bound _ _ _ Hfind) as Hbound.
    assert (0 < String.length delimiter)%nat
      by (destruct delimiter; simpl; [congruence | lia]).
    set (rest := substr_from (pos + String.length delimiter) value) in *.
    destruct (IH rest) as (tail & Htail & Hrest);
      [unfold rest; rewrite length_substr_from; lia|].
    destruct (split rest delimiter) as [|t ts] eqn:Hsplit.
    + exists delimiter. split; [right; split; [reflexivity | discriminate]|].
      destruct Htail as [[-> _]|[_ []]]; [|reflexivity].
      cbn [join String.append] in Hrest. rewrite Hrest, append_empty_r in Hcut.
      exact Hcut.
    + exists tail. split.
      * destruct Htail as [[-> Hlast]|[-> _]]; [left | right].
        -- split; [reflexivity | exact Hlast].
        -- split; [reflexivity | discriminate].
      * change (join delimiter (substr 0 pos value :: t :: ts))
          with (substr 0 pos value +:+ delimiter +:+ join delimiter (t :: ts)).
        rewrite !append_assoc, <- Hrest. exact Hcut.
  - rewrite (split_none _ _ Hfind). destruct value as [|c value].
    + exists "". split; [left; split; [reflexivity | discriminate] | reflexivity].
    + exists "". cbn [empty join]. rewrite append_empty_r.
      split; [left; split; [reflexivity | discriminate] | reflexivity].
Qed.

(** X3.  For a delimiter that is not empty, [split] is what its loop returns
    with any fuel above the length of the text, and no token contains the
    delimiter.  The tokens are those of the loop's two equations: without a
    delimiter the text is the only token, or no token when it is empty; with
    one, the text in front of the first is a token and the tokens of the
    text behind it follow.  So a delimiter that ends the text adds no token:
    the text is the tokens joined by the delimiter, then either nothing,
    and the last token is not empty, or the one delimiter that [split]
    drops.  There is no token exactly for the empty text. *)
Theorem split_tokens_rejoin (value delimiter : string) :
  delimiter ≠ "" →
  (∀ fuel, (String.length value < fuel)%nat →
           split_loop fuel value delimiter [] = Some (split value delimiter))
  ∧ (∀ token, token ∈ split value delimiter → find delimiter token = None)
  ∧ (find delimiter value = None →
     split value delimiter = if empty value then [] else [value])
  ∧ (∀ pos, find delimiter value = Some pos →
            split value delimiter
            = substr 0 pos value
              :: split (substr_from (pos + String.length delimiter) value) delimiter)
  ∧ (∀ pos, find delimiter value = Some pos →
            (pos + String.length delimiter)%nat = String.length value →
            split value delimiter = [substr 0 pos value])
  ∧ (∃ tail,
        ((tail = "" ∧ last (split value delimiter) ≠ Some "")
         ∨ (tail = delimiter ∧ split value delimiter ≠ []))
        ∧ value = join delimiter (split value delimiter) +:+ tail)
  ∧ (split value delimiter = [] ↔ value = "").
Proof.
  intros Hd.
  pose proof (split_terminates value delimiter (S (String.length value)) Hd ltac:(lia)) as Hrun.
  destruct (split_loop_tokens _ _ _ _ _ Hd Hrun) as (new & tail & Hnew & Hnone & Htail & Hval).
  simpl in Hnew. rewrite <- Hnew in *.
  split; [|split; [|split; [|split; [|split; [|split]]]]].
  - intros fuel Hfuel. now apply split_terminates.
  - exact Hnone.
  - apply split_none.
  - intros pos. now apply split_some.
  - intros pos Hfind Hend. rewrite (split_some _ _ _ Hd Hfind). f_equal.
    assert (Hrest : substr_from (pos + String.length delimiter) value = "").
    { pose proof (length_substr_from (pos + String.length delimiter) value) as Hl.
      destruct (substr_from (pos + String.length delimiter) value); [reflexivity|].
      simpl in Hl. lia. }
    rewrite Hrest. apply split_none. destruct delimiter; [congruence | reflexivity].
  - apply (split_decomposed delimiter (S (String.length value))); [exact Hd | lia].
  - split.
    + intros Hempty. rewrite Hempty in *.
      destruct Htail as [->|[_ []]]; [exact Hval | reflexivity].
    + intros ->. unfold split. cbn [String.length split_loop find].
      destruct delimiter; [congruence | reflexivity].
Qed.

Lemma split_tokens_rejoin_witness :
  split "Friguia Park, Tunisia, " ", " = ["Friguia Park"; "Tunisia"]
  ∧ "Friguia Park, Tunisia, " = join ", " ["Friguia Park"; "Tunisia"] +:+ ", "
  ∧ split "Tunisia, " ", " = ["Tunisia"].
Proof.
  destruct (split_tokens_rejoin "Friguia Park, Tunisia, " ", " ltac:(discriminate))
    as (Hrun & _).
  split; [|split; [reflexivity|]].
  - specialize (Hrun 30%nat ltac:(simpl; lia)).
    symmetry. apply (inj Some). rewrite <- Hrun. vm_compute. reflexivity.
  - destruct (split_tokens_rejoin "Tunisia, " ", " ltac:(discriminate))
      as (_ & _ & _ & _ & Hdrop & _).
    exact (Hdrop 7%nat eq_refl eq_refl).
Defined.

(** ** Prefixes, names and groups *)

(** X4.  [speciesPrefix] looks the species up without regard to letter case: it
    returns a prefix exactly for the four species of the table, the same
    for every spelling of a species, and for any other text it throws the
    error that quotes the text as it was given. *)
Theorem speciesPrefix_any_case (species : string) :
  (∀ p, speciesPrefix species = Ok p ↔ (toLower species, p) ∈ speciesTable)
  ∧ (∀ p, speciesPrefix (toLower species) = Ok p ↔ speciesPrefix species = Ok p)
  ∧ (toLower species ∉ speciesTable.*1 →
     speciesPrefix species = Throw (runtime_error ("Unsupported species: " +:+ species)))
  ∧ speciesPrefix species ≠ Undefined.
Proof.
  assert (Htable : ∀ s p, speciesPrefix s = Ok p ↔ (toLower s, p) ∈ speciesTable).
  { intros s p. unfold speciesPrefix, speciesTable.
    rewrite !elem_of_cons, elem_of_nil.
    destruct (String.eqb_spec (toLower s) "hyena") as [->|H1];
      [split; [intros [= <-]; auto | intros [[= <-]|[[=]|[[=]|[[=]|[]]]]]; reflexivity]|].
    destruct (String.eqb_spec (toLower s) "lion") as [->|H2];
      [split; [intros [= <-]; auto | intros [[=]|[[= <-]|[[=]|[[=]|[]]]]]; reflexivity]|].
    destruct (String.eqb_spec (toLower s) "tiger") as [->|H3];
      [split; [intros [= <-]; auto | intros [[=]|[[=]|[[= <-]|[[=]|[]]]]]; reflexivity]|].
    destruct (String.eqb_spec (toLower s) "bear") as [->|H4];
      [split; [intros [= <-]; auto 6 | intros [[=]|[[=]|[[=]|[[= <-]|[]]]]]; reflexivity]|].
    split; [discriminate|]. intros [[= ? _]|[[= ? _]|[[= ? _]|[[= ? _]|[]]]]]; congruence. }
  split; [apply Htable|]. split; [|split].
  - intros p. now rewrite !Htable, toLower_idempotent.
  - unfold speciesPrefix, speciesTable. cbn [fmap list_fmap fst].
    rewrite !not_elem_of_cons.
    intros (H1%String.eqb_neq & H2%String.eqb_neq & H3%String.eqb_neq & H4%String.eqb_neq & _).
    now rewrite H1, H2, H3, H4.
  - unfold speciesPrefix.
    repeat match goal with |- context [if ?b then _ else _] => destruct b end; discriminate.
Qed.

Lemma popNextName_step (names : gmap string (list string)) (speciesKey : string) :
  popNextName names speciesKey
  = (match default [] (names !! speciesKey) with
     | next :: _ => next
     | [] => "Unnamed " +:+ speciesKey
     end,
     <[speciesKey := tail (default [] (names !! speciesKey))]> names).
Proof.
  unfold popNextName, map_at. destruct (names !! speciesKey) as [[|next rest]|] eqn:E; simpl.
  - now rewrite insert_id.
  - reflexivity.
  - reflexivity.
Qed.

(** X5.  The names of a species are handed out first in, first out, each once;
    when the pool is used up, or the species has none, every further call
    gives "Unnamed " and the species key.  After the first call the map
    holds the species with the names that are left; the other species are
    as they were. *)
Theorem popNextName_first_in_first_out (speciesKey : string) (count : nat)
    (names : gmap string (list string)) :
  let pool := default [] (names !! speciesKey) in
  popNames speciesKey count names
  = (take count pool ++ replicate (count - length pool) ("Unnamed " +:+ speciesKey),
     match count with
     | O => names
     | S _ => <[speciesKey := drop count pool]> names
     end).
Proof.
  cbv zeta. revert names. induction count as [|count IH]; intros names; [reflexivity|].
  cbn [popNames]. rewrite popNextName_step, IH, lookup_insert_eq. simpl default.
  destruct (default [] (names !! speciesKey)) as [|next rest];
    cbn [tail take drop length Nat.sub replicate app].
  - rewrite take_nil, drop_nil, Nat.sub_0_r. cbn [app length]. f_equal.
    destruct count; [reflexivity | now rewrite insert_insert_eq].
  - f_equal. destruct count; [now rewrite drop_0 | now rewrite insert_insert_eq].
Qed.

Lemma groups_options (speciesKey : string) (options : list string) :
  groups !! speciesKey = Some options →
  speciesKey ∈ ["hyena"; "lion"; "tiger"; "bear"] ∧ length options = 4%nat.
Proof.
  unfold groups. intros H%elem_of_list_to_map_2.
  rewrite !elem_of_cons, elem_of_nil in H.
  destruct H as [[= -> ->]|[[= -> ->]|[[= -> ->]|[[= -> ->]|[]]]]];
    (split; [set_solver | reflexivity]).
Qed.

(** X6.  [selectSocialGroup] goes round the four groups of a species: for an
    index from 0 on it returns the group at the index modulo 4, so the same
    group again four animals later.  A key that is not one of the four lower-case
    species names gives "Unknown" (the lookup does not fold case).  A
    negative index that is no multiple of 4 reads outside the vector. *)
Theorem selectSocialGroup_round_robin :
  (∀ speciesKey index options,
      groups !! speciesKey = Some options → 0 <= index →
      ∃ group,
        selectSocialGroup speciesKey index = Ok group
        ∧ options !! Z.to_nat (index mod 4) = Some group
        ∧ selectSocialGroup speciesKey (index + 4) = Ok group)
  ∧ (∀ speciesKey index,
        speciesKey ∉ ["hyena"; "lion"; "tiger"; "bear"] →
        selectSocialGroup speciesKey index = Ok "Unknown")
  ∧ (∀ speciesKey index options,
        groups !! speciesKey = Some options → index < 0 → Z.rem index 4 ≠ 0 →
        selectSocialGroup speciesKey index = Undefined)
  ∧ selectSocialGroup "Hyena" 0 = Ok "Unknown".
Proof.
  split; [|split; [|split]].
  - intros speciesKey index options Hopt Hindex.
    destruct (groups_options _ _ Hopt) as [_ Hlen].
    assert (Hsel : ∀ i, 0 <= i →
              ∃ group, selectSocialGroup speciesKey i = Ok group
                       ∧ options !! Z.to_nat (i mod 4) = Some group).
    { intros i Hi. unfold selectSocialGroup. rewrite Hopt.
      destruct options as [|o options']; [discriminate|]. rewrite Hlen.
      change (Z.of_nat 4) with 4. rewrite Z.rem_mod_nonneg by lia.
      pose proof (Z.mod_pos_bound i 4 ltac:(lia)) as Hm.
      destruct (Z.ltb_spec (i mod 4) 0); [lia|].
      destruct (lookup_lt_is_Some_2 (o :: options') (Z.to_nat (i mod 4))) as [g Hg];
        [rewrite Hlen; lia|].
      exists g. now rewrite Hg. }
    destruct (Hsel index Hindex) as (group & Hg & Hlook).
    exists group. split; [exact Hg|]. split; [exact Hlook|].
    destruct (Hsel (index + 4) ltac:(lia)) as (group' & Hg' & Hlook').
    rewrite Hg'. f_equal.
    replace ((index + 4) mod 4) with (index mod 4) in Hlook'
      by (rewrite <- (Z.mul_1_l 4) at 2; now rewrite Z.mod_add by lia).
    congruence.
  - intros speciesKey index Hkey. unfold selectSocialGroup.
    destruct (groups !! speciesKey) as [options|] eqn:Hopt; [|reflexivity].
    now destruct (groups_options _ _ Hopt).
  - intros speciesKey index options Hopt Hneg Hrem.
    destruct (groups_options _ _ Hopt) as [_ Hlen].
    unfold selectSocialGroup. rewrite Hopt.
    destruct options as [|o options']; [discriminate|]. rewrite Hlen.
    change (Z.of_nat 4) with 4.
    pose proof (Z.rem_nonpos index 4 ltac:(lia) ltac:(lia)).
    destruct (Z.ltb_spec (Z.rem index 4) 0); [reflexivity | lia].
  - reflexivity.
Qed.

Lemma selectSocialGroup_round_robin_witness :
  selectSocialGroup "tiger" 6 = Ok "River Ambush"
  ∧ selectSocialGroup "tiger" 10 = Ok "River Ambush".
Proof.
  destruct (proj1 selectSocialGroup_round_robin "tiger" 6
              ["Ember Ambush"; "Jungle Ambush"; "River Ambush"; "Shadow Ambush"]
              ltac:(vm_compute; reflexivity) ltac:(lia))
    as (group & Hg & Hlook & Hnext).
  injection Hlook as <-. split; assumption.
Defined.

(** ** Dates written and read back *)

Lemma all_digits_fill (n : nat) : all_digits (fill_string n "0") = true.
Proof. induction n as [|n IH]; [reflexivity | exact IH]. Qed.

Lemma setw_fill_decimal_digits (w : nat) (n : Z) :
  0 <= n →
  all_digits (setw_fill w "0" (decimal n)) = true
  ∧ setw_fill w "0" (decimal n) ≠ ""
  ∧ digits_value 0 (setw_fill w "0" (decimal n)) = n.
Proof.
  intros Hn. split; [|split].
  - unfold setw_fill. now rewrite all_digits_app, all_digits_fill, all_digits_decimal.
  - unfold setw_fill. pose proof (decimal_not_empty n Hn).
    destruct (fill_string _ _); [assumption | discriminate].
  - now apply sequence_number_read_back.
Qed.

Lemma decimal_length_le (n : Z) :
  0 <= n → ∀ k : nat, (1 <= k)%nat → n < 10 ^ Z.of_nat k →
  (String.length (decimal n) <= k)%nat.
Proof.
  revert n. apply (decimal_ind (λ n, ∀ k : nat, (1 <= k)%nat → n < 10 ^ Z.of_nat k →
                                      (String.length (decimal n) <= k)%nat)).
  - intros d Hd k Hk _. rewrite decimal_small by assumption. simpl. lia.
  - intros q d Hq Hd IH k Hk Hlt. rewrite decimal_step, length_append by assumption.
    cbn [String.length]. destruct k as [|k]; [lia|].
    rewrite Nat2Z.inj_succ, Z.pow_succ_r in Hlt by lia.
    destruct k as [|k]; [simpl in Hlt; lia|].
    specialize (IH (S k) ltac:(lia) ltac:(lia)). lia.
Qed.

Lemma parseIsoDate_in_int (s : string) (date : Date) :
  parseIsoDate s = Ok date →
  in_int (year date) = true ∧ in_int (month date) = true ∧ in_int (day date) = true.
Proof.
  intros H%parseIsoDate_inv. destruct H as [s r1 r2 r3 r4 r5 y m d Hy _ Hm _ Hd].
  inversion Hy; inversion Hm; inversion Hd; subst. auto.
Qed.

Lemma format_read_back (y m d : Z) :
  0 <= y <= INT_MAX → 0 <= m <= INT_MAX → 0 <= d <= INT_MAX →
  parseIsoDate (formatIsoDate {| year := y; month := m; day := d |})
  = Ok {| year := y; month := m; day := d |}.
Proof.
  intros Hy Hm Hd. unfold formatIsoDate. cbn [year month day].
  rewrite !show_int_nonneg by lia.
  destruct (setw_fill_decimal_digits 4 y ltac:(lia)) as (Ay & Ny & Vy).
  destruct (setw_fill_decimal_digits 2 m ltac:(lia)) as (Am & Nm & Vm).
  destruct (setw_fill_decimal_digits 2 d ltac:(lia)) as (Ad & Nd & Vd).
  rewrite <- (append_empty_r (setw_fill 2 "0" (decimal d))).
  rewrite parseIsoDate_digits by (assumption || reflexivity || lia).
  now rewrite Vy, Vm, Vd.
Qed.

Lemma show_int_neg (n : Z) : n < 0 → show_int n = String "-" (decimal (- n)).
Proof. intros H. unfold show_int. destruct (Z.ltb_spec n 0); [reflexivity | lia]. Qed.

Lemma int_field_minus (ds rest : string) :
  all_digits ds = true → ds ≠ "" → no_digit_ahead rest = true →
  INT_MIN <= - digits_value 0 ds →
  int_field (String "-" (ds +:+ rest)) (- digits_value 0 ds) rest.
Proof.
  intros Hds Hne Hrest Hmin.
  apply (int_field_intro "" "-" ds rest); try assumption; try reflexivity.
  - right. now right.
  - apply in_int_range. change (signed_value "-" ds) with (- digits_value 0 ds).
    pose proof (digits_value_bounds ds 0 Hds ltac:(lia)). unfold INT_MAX. lia.
Qed.

(** A year of four characters or more with its sign: no fill, and the sign
    is read back. *)
Lemma format_read_back_wide (y m d : Z) :
  INT_MIN <= y <= -100 → 0 <= m <= INT_MAX → 0 <= d <= INT_MAX →
  parseIsoDate (formatIsoDate {| year := y; month := m; day := d |})
  = Ok {| year := y; month := m; day := d |}.
Proof.
  intros Hy Hm Hd. unfold formatIsoDate. cbn [year month day].
  rewrite (show_int_neg y) by lia. rewrite !show_int_nonneg by lia.
  pose proof (decimal_three_digits (- y) ltac:(lia)) as Hwide.
  rewrite setw_fill_wide by (cbn [String.length]; lia).
  destruct (setw_fill_decimal_digits 2 m ltac:(lia)) as (Am & Nm & Vm).
  destruct (setw_fill_decimal_digits 2 d ltac:(lia)) as (Ad & Nd & Vd).
  pose proof (all_digits_decimal (- y) ltac:(lia)) as Ay.
  pose proof (decimal_not_empty (- y) ltac:(lia)) as Ny.
  pose proof (digits_value_decimal (- y) ltac:(lia)) as Vy.
  set (ys := decimal (- y)) in *.
  set (ms := setw_fill 2 "0" (decimal m)) in *.
  set (ds := setw_fill 2 "0" (decimal d)) in *.
  apply parseIsoDate_accepts.
  assert (Htext : iso_date_text (String "-" ys +:+ "-" +:+ ms +:+ "-" +:+ ds)
                    {| year := - digits_value 0 ys; month := digits_value 0 ms;
                       day := digits_value 0 ds |}).
  { apply (iso_date_text_intro _ ("-" +:+ ms +:+ "-" +:+ ds)
             (ms +:+ "-" +:+ ds) ("-" +:+ ds) ds "").
    - change (String "-" ys +:+ "-" +:+ ms +:+ "-" +:+ ds)
        with (String "-" (ys +:+ "-" +:+ ms +:+ "-" +:+ ds)).
      apply int_field_minus; try assumption; [reflexivity | lia].
    - now apply (char_field_intro "" "-").
    - apply int_field_digits; try assumption; [reflexivity | lia].
    - now apply (char_field_intro "" "-").
    - rewrite <- (append_empty_r ds) at 1.
      apply int_field_digits; try assumption; [reflexivity | lia]. }
  rewrite Vy, Vm, Vd, Z.opp_involutive in Htext. exact Htext.
Qed.

(** A year from -99 to -1: the fill goes in front of the sign, which is
    then read as the first separator. *)
Lemma format_read_back_shifted (y m d : Z) :
  -99 <= y <= -1 → 0 <= m <= INT_MAX → 0 <= d <= INT_MAX →
  parseIsoDate (formatIsoDate {| year := y; month := m; day := d |})
  = Ok {| year := 0; month := - y; day := m |}.
Proof.
  intros Hy Hm Hd. unfold formatIsoDate. cbn [year month day].
  rewrite (show_int_neg y) by lia. rewrite !show_int_nonneg by lia.
  pose proof (decimal_length_le (- y) ltac:(lia) 2 ltac:(lia) ltac:(simpl; lia)) as Hshort.
  destruct (setw_fill_decimal_digits 2 m ltac:(lia)) as (Am & Nm & Vm).
  pose proof (all_digits_decimal (- y) ltac:(lia)) as Ay.
  pose proof (decimal_not_empty (- y) ltac:(lia)) as Ny.
  pose proof (digits_value_decimal (- y) ltac:(lia)) as Vy.
  set (ys := decimal (- y)) in *.
  set (ms := setw_fill 2 "0" (decimal m)) in *.
  set (ds := setw_fill 2 "0" (decimal d)) in *.
  unfold setw_fill at 1. cbn [String.length].
  destruct (4 - S (String.length ys))%nat as [|k] eqn:Hk; [lia|].
  set (zeros := fill_string (S k) "0").
  assert (Az : all_digits zeros = true) by apply all_digits_fill.
  assert (Vz : digits_value 0 zeros = 0)
    by (pose proof (digits_value_fill (S k) "") as H; now rewrite append_empty_r in H).
  replace ((zeros +:+ String "-" ys) +:+ "-" +:+ ms +:+ "-" +:+ ds)
    with (zeros +:+ "-" +:+ ys +:+ "-" +:+ ms +:+ ("-" +:+ ds))
    by (now rewrite !append_assoc).
  rewrite parseIsoDate_digits; try assumption; try reflexivity; try discriminate;
    try (unfold INT_MAX in *; lia).
  rewrite Vz, Vy, Vm. reflexivity.
Qed.

(** X7.  What [formatIsoDate] writes, [parseIsoDate] reads back whenever month
    and day are not negative and the year is not from -99 to -1: a year
    from 0 on is filled with zeros to four digits, a year of -100 or less
    is written with its sign and no fill.  For a year from -99 to -1 the
    fill goes in front of the sign and the text reads as another date: year
    0, the month the year without its sign, the day the month.  With a year
    from 0 to 9999 and month and day up to 99 the text has ten characters. *)
Theorem parseIsoDate_formatIsoDate (date : Date) :
  INT_MIN <= year date <= INT_MAX →
  0 <= month date <= INT_MAX → 0 <= day date <= INT_MAX →
  (0 <= year date ∨ year date <= -100 → parseIsoDate (formatIsoDate date) = Ok date)
  ∧ (-99 <= year date <= -1 →
     parseIsoDate (formatIsoDate date)
     = Ok {| year := 0; month := - year date; day := month date |}
     ∧ parseIsoDate (formatIsoDate date) ≠ Ok date)
  ∧ (0 <= year date <= 9999 → month date <= 99 → day date <= 99 →
     String.length (formatIsoDate date) = 10%nat).
Proof.
  intros Hy Hm Hd. destruct date as [y m d]. cbn [year month day] in *.
  split; [|split].
  - intros [Hpos|Hneg]; [apply format_read_back | apply format_read_back_wide]; lia.
  - intros Hshort. rewrite format_read_back_shifted by assumption.
    split; [reflexivity|]. intros [= Hyear _ _]. lia.
  - intros By Bm Bd. unfold formatIsoDate. cbn [year month day].
    rewrite !show_int_nonneg by lia. rewrite !length_append, !length_setw_fill.
    pose proof (decimal_length_le y ltac:(lia) 4 ltac:(lia) ltac:(simpl; lia)).
    pose proof (decimal_length_le m ltac:(lia) 2 ltac:(lia) ltac:(simpl; lia)).
    pose proof (decimal_length_le d ltac:(lia) 2 ltac:(lia) ltac:(simpl; lia)).
    simpl String.length. lia.
Qed.

Lemma parseIsoDate_formatIsoDate_witness :
  parseIsoDate (formatIsoDate {| year := 2021; month := 3; day := 15 |})
  = Ok {| year := 2021; month := 3; day := 15 |}
  ∧ parseIsoDate (formatIsoDate {| year := -1000; month := 3; day := 1 |})
    = Ok {| year := -1000; month := 3; day := 1 |}
  ∧ parseIsoDate (formatIsoDate {| year := -5; month := 3; day := 1 |})
    = Ok {| year := 0; month := 5; day := 3 |}.
Proof.
  split; [|split].
  - apply (parseIsoDate_formatIsoDate {| year := 2021; month := 3; day := 15 |});
      cbn [year month day]; unfold INT_MIN, INT_MAX; lia.
  - apply (parseIsoDate_formatIsoDate {| year := -1000; month := 3; day := 1 |});
      cbn [year month day]; unfold INT_MIN, INT_MAX; lia.
  - apply (parseIsoDate_formatIsoDate {| year := -5; month := 3; day := 1 |});
      cbn [year month day]; unfold INT_MIN, INT_MAX; lia.
Defined.

Lemma seasonToDate_values (name : string) (m d : Z) :
  seasonToDate !! name = Some (m, d) → 0 <= m <= 12 ∧ d = 15.
Proof.
  unfold seasonToDate. intros H%elem_of_list_to_map_2.
  rewrite !elem_of_cons, elem_of_nil in H.
  destruct H as [[= _ -> ->]|[[= _ -> ->]|[[= _ -> ->]|[[= _ -> ->]|[[= _ -> ->]|[]]]]]]; lia.
Qed.

(** X8.  [genBirthDay] passes on the error of an arrival date that
    [parseIsoDate] rejects.  For an arrival date with month and day from 0
    on and an age between 0 and the arrival year, it returns a text that
    [parseIsoDate] reads as a date: the year is the arrival year less the
    age, month and day are those of the season's table entry, or the
    arrival's when the season has none. *)
Theorem genBirthDay_reads_back :
  (∀ age season arrivalDate ex,
      parseIsoDate arrivalDate = Throw ex → genBirthDay age season arrivalDate = Throw ex)
  ∧ (∀ age season arrivalDate arrival,
        parseIsoDate arrivalDate = Ok arrival →
        0 <= age <= year arrival → 0 <= month arrival → 0 <= day arrival →
        ∃ birthText date,
          genBirthDay age season arrivalDate = Ok birthText
          ∧ parseIsoDate birthText = Ok date
          ∧ year date = year arrival - age
          ∧ (month date, day date)
            = default (month arrival, day arrival) (seasonToDate !! toLower season)).
Proof.
  split.
  - intros age season arrivalDate ex H. unfold genBirthDay. now rewrite H.
  - intros age season arrivalDate arrival Hparse Hage Hm Hd.
    destruct (parseIsoDate_in_int _ _ Hparse) as (Iy%in_int_range & Im%in_int_range
                                                  & Id%in_int_range).
    rewrite (genBirthDay_unfold age season arrivalDate arrival Hparse)
      by (unfold INT_MIN in *; lia).
    destruct (seasonToDate !! toLower season) as [[m d]|] eqn:Hseason.
    + destruct (seasonToDate_values _ _ _ Hseason) as [Hm' ->].
      eexists. exists {| year := year arrival - age; month := m; day := 15 |}.
      split; [reflexivity|]. split; [|split; reflexivity].
      apply format_read_back; unfold INT_MAX in *; lia.
    + eexists. exists {| year := year arrival - age; month := month arrival;
                         day := day arrival |}.
      split; [reflexivity|]. split; [|split; reflexivity].
      apply format_read_back; lia.
Qed.

Lemma genBirthDay_reads_back_witness :
  ∃ birthText date,
    genBirthDay 3 "Spring" "2024-03-05" = Ok birthText
    ∧ parseIsoDate birthText = Ok date
    ∧ year date = 2021 ∧ (month date, day date) = (3, 15).
Proof.
  destruct (proj2 genBirthDay_reads_back 3 "Spring" "2024-03-05"
              {| year := 2024; month := 3; day := 5 |} eq_refl
              ltac:(cbn; lia) ltac:(cbn; lia) ltac:(cbn; lia))
    as (birthText & date & Hb & Hp & Hy & Hmd).
  exists birthText, date. auto.
Defined.

(** ** Arrival lines in the documented format *)

Lemma all_chars_app (P : ascii → bool) (a b : string) :
  all_chars P (a +:+ b) = all_chars P a && all_chars P b.
Proof. induction a as [|c a IH]; simpl; [reflexivity|]. now rewrite IH, andb_assoc. Qed.

Lemma all_chars_impl (P Q : ascii → bool) (s : string) :
  (∀ c, P c = true → Q c = true) → all_chars P s = true → all_chars Q s = true.
Proof.
  intros HPQ. induction s as [|c s IH]; simpl; [reflexivity|].
  intros [Hc Hs]%andb_prop. now rewrite HPQ, IH.
Qed.

Lemma all_chars_rev (P : ascii → bool) (s : string) :
  all_chars P (string_rev s) = all_chars P s.
Proof.
  induction s as [|c s IH]; [reflexivity|].
  rewrite string_rev_cons, all_chars_app, IH. simpl. rewrite andb_true_r. apply andb_comm.
Qed.

Lemma all_chars_toLower_space (s : string) :
  all_chars not_space (toLower s) = all_chars not_space s.
Proof.
  induction s as [|c s IH]; simpl; [reflexivity|].
  rewrite IH. unfold not_space. now rewrite isspace_tolower.
Qed.

Lemma all_digits_chars (s : string) :
  all_digits s = true → all_chars not_space s = true ∧ all_chars not_comma s = true.
Proof.
  induction s as [|c s IH]; simpl; [auto|]. intros [Hc Hs]%andb_prop.
  destruct (IH Hs) as [-> ->]. unfold not_space, not_comma.
  rewrite (isdigit_not_space c Hc).
  destruct (Ascii.eqb_spec c ","); [subst; discriminate | auto].
Qed.

Lemma word_parts (w : string) :
  is_word w = true →
  empty w = false ∧ all_chars not_space w = true ∧ all_chars not_comma w = true.
Proof.
  unfold is_word. intros [[H1 H2]%andb_prop H3]%andb_prop.
  apply negb_true_iff in H1. auto.
Qed.

Lemma not_space_edge_clean (s : string) : all_chars not_space s = true → edge_clean s.
Proof.
  intros H. split.
  - destruct s as [|c s]; [reflexivity|]. cbn [all_chars] in H.
    apply andb_prop in H as [H _]. exact H.
  - rewrite <- all_chars_rev in H. destruct (string_rev s) as [|c r]; [reflexivity|].
    cbn [all_chars] in H. apply andb_prop in H as [H _]. exact H.
Qed.

(** *** Cutting at [", "] *)

Lemma find_cons_miss (pat : string) (c : ascii) (s : string) :
  starts_with pat (String c s) = false → find pat (String c s) = S <$> find pat s.
Proof. intros H. cbn [find]. now rewrite H. Qed.

Lemma comma_space_miss (c : ascii) (s : string) :
  not_comma c = true → starts_with ", " (String c s) = false.
Proof.
  unfold not_comma. intros H%negb_true_iff. rewrite Ascii.eqb_sym in H.
  cbn [starts_with]. now rewrite H.
Qed.

Lemma find_comma_space (a rest : string) :
  all_chars not_comma a = true → find ", " (a +:+ ", " +:+ rest) = Some (String.length a).
Proof.
  induction a as [|c a IH]; intros H; [reflexivity|].
  cbn [all_chars] in H. apply andb_prop in H as [Hc Ha].
  change (String c a +:+ ", " +:+ rest) with (String c (a +:+ ", " +:+ rest)).
  rewrite find_cons_miss by now apply comma_space_miss.
  now rewrite IH.
Qed.

Lemma find_no_comma (a : string) : all_chars not_comma a = true → find ", " a = None.
Proof.
  induction a as [|c a IH]; intros H; [reflexivity|].
  cbn [all_chars] in H. apply andb_prop in H as [Hc Ha].
  rewrite find_cons_miss by now apply comma_space_miss.
  now rewrite IH.
Qed.

Lemma substr_prefix (a b : string) : substr 0 (String.length a) (a +:+ b) = a.
Proof.
  pose proof (substring_middle "" a b) as H. exact H.
Qed.

Lemma substr_from_app (a b : string) : substr_from (String.length a) (a +:+ b) = b.
Proof. induction a as [|c a IH]; [reflexivity | exact IH]. Qed.

(** A part without comma in front of [", "] is the next token. *)
Lemma split_cons_part (a rest : string) :
  all_chars not_comma a = true → split (a +:+ ", " +:+ rest) ", " = a :: split rest ", ".
Proof.
  intros Ha. unfold split at 1. cbn [split_loop].
  rewrite (find_comma_space a rest Ha). unfold erase_front.
  rewrite substr_prefix.
  replace (String.length a + String.length ", ")%nat
    with (String.length (a +:+ ", ")) by (rewrite length_append; reflexivity).
  rewrite <- append_assoc, substr_from_app.
  rewrite split_loop_acc, split_terminates; [reflexivity | discriminate |].
  rewrite !length_append. simpl. lia.
Qed.

(** *** The parts of the sentence *)

Lemma read_word_app (w rest : string) :
  all_chars not_space w = true → space_or_end rest = true →
  read_word (w +:+ rest) = (w, rest).
Proof.
  induction w as [|c w IH]; intros Hw Hrest.
  - destruct rest as [|c rest]; [reflexivity|]. simpl in *. now rewrite Hrest.
  - cbn [all_chars] in Hw. apply andb_prop in Hw as [Hc Hw].
    unfold not_space in Hc. apply negb_true_iff in Hc.
    change (String c w +:+ rest) with (String c (w +:+ rest)).
    cbn [read_word]. now rewrite Hc, IH.
Qed.

Lemma skipws_none (s : string) : no_space_ahead s = true → skipws s = s.
Proof. intros H. exact (skipws_app "" s eq_refl H). Qed.

Lemma no_space_ahead_word (w rest : string) :
  empty w = false → all_chars not_space w = true → no_space_ahead (w +:+ rest) = true.
Proof.
  intros He Hw. destruct w as [|c w]; [discriminate|].
  cbn [all_chars] in Hw. apply andb_prop in Hw as [Hc _]. exact Hc.
Qed.

Lemma extract_string_word (old w rest : string) :
  empty w = false → all_chars not_space w = true → space_or_end rest = true →
  extract_string old (mkStream (" " +:+ w +:+ rest) false) = (w, mkStream rest false).
Proof.
  intros He Hw Hrest. unfold extract_string. cbn [failbit buffer].
  change (skipws (" " +:+ w +:+ rest)) with (skipws (w +:+ rest)).
  rewrite skipws_none by now apply no_space_ahead_word.
  rewrite read_word_app by assumption.
  destruct w; [discriminate | reflexivity].
Qed.

Lemma parseAgeSexSpecies_sentence (age : Z) (years old sex species : string) :
  0 <= age <= INT_MAX →
  is_word years = true → is_word old = true → is_word sex = true → is_word species = true →
  parseAgeSexSpecies
    (show_int age +:+ " " +:+ years +:+ " " +:+ old +:+ " " +:+ sex +:+ " " +:+ species)
  = (age, toLower sex, toLower species, false).
Proof.
  intros Hage (Ey & Sy & _)%word_parts (Eo & So & _)%word_parts
    (Es & Ss & _)%word_parts (Ep & Sp & _)%word_parts.
  unfold parseAgeSexSpecies, open_stream. rewrite show_int_nonneg by lia.
  rewrite (extract_int_ok 0 _ age
             (" " +:+ years +:+ " " +:+ old +:+ " " +:+ sex +:+ " " +:+ species)).
  2:{ rewrite <- (digits_value_decimal age) at 2 by lia.
      apply int_field_digits;
        [ apply all_digits_decimal; lia | apply decimal_not_empty; lia | reflexivity
        | rewrite digits_value_decimal; lia ]. }
  rewrite (extract_string_word "" years) by (assumption || reflexivity).
  rewrite (extract_string_word "" old) by (assumption || reflexivity).
  rewrite (extract_string_word "" sex) by (assumption || reflexivity).
  pose proof (extract_string_word "" species "" Ep Sp eq_refl) as Hlast.
  rewrite append_empty_r in Hlast. rewrite Hlast.
  reflexivity.
Qed.

Lemma words_word (w : string) :
  empty w = false → all_chars not_space w = true → words w = [w].
Proof.
  intros He Hw. destruct (not_space_edge_clean w Hw) as [Hno _].
  rewrite (read_word_words w Hno He).
  pose proof (read_word_app w "" Hw eq_refl) as Hr. rewrite append_empty_r in Hr.
  now rewrite Hr.
Qed.

Lemma find_born_in_none (s : string) :
  all_chars not_space s = true → find "born in" s = None.
Proof.
  induction s as [|c s IH]; intros H; [reflexivity|].
  assert (Hmiss : starts_with "born in" (String c s) = false).
  { apply not_true_iff_false. intros [rest Hrest]%starts_with_app.
    rewrite Hrest in H. discriminate. }
  rewrite find_cons_miss by assumption.
  cbn [all_chars] in H. apply andb_prop in H as [_ H]. now rewrite IH.
Qed.

Lemma or_unknown_word (w : string) : empty w = false → or_unknown w = w.
Proof. unfold or_unknown. now intros ->. Qed.

Lemma empty_toLower (s : string) : empty (toLower s) = empty s.
Proof. now destruct s. Qed.

Lemma parseSeason_sentence (born_in : bool) (season : string) :
  is_word season = true →
  parseSeason ((if born_in then "born in " else "") +:+ season)
  = if born_in then toLower season else season.
Proof.
  intros (Ee & Sp & _)%word_parts. destruct born_in.
  - rewrite parseSeason_born_in by (rewrite toLower_app; discriminate).
    rewrite toLower_app.
    change (words (toLower "born in " +:+ toLower season))
      with ("born" :: "in" :: words (toLower season)).
    rewrite words_word by (now rewrite ?empty_toLower, ?all_chars_toLower_space).
    cbn [nth]. apply or_unknown_word. now rewrite empty_toLower.
  - cbn [String.append].
    rewrite parseSeason_plain
      by (apply find_born_in_none; now rewrite all_chars_toLower_space).
    rewrite trim_clean by now apply not_space_edge_clean.
    now apply or_unknown_word.
Qed.

Lemma space_miss (pat : string) (c : ascii) (s : string) :
  not_space c = true → starts_with (String " " pat) (String c s) = false.
Proof.
  unfold not_space. intros H%negb_true_iff. cbn [starts_with].
  destruct (Ascii.eqb_spec " " c) as [<-|]; [discriminate | reflexivity].
Qed.

Lemma find_after_word (pat w rest : string) :
  all_chars not_space w = true →
  find (String " " pat) (w +:+ String " " pat +:+ rest) = Some (String.length w).
Proof.
  induction w as [|c w IH]; intros H.
  - cbn [String.append find]. 
    assert (Hs : starts_with (String " " pat) (String " " (pat +:+ rest)) = true).
    { cbn [starts_with Ascii.eqb Bool.eqb andb]. clear. revert rest.
      induction pat as [|p pat IH]; intros rest; [reflexivity|].
      cbn [String.append starts_with]. now rewrite Ascii.eqb_refl, IH. }
    change (String " " pat +:+ rest) with (String " " (pat +:+ rest)).
    cbn [find]. now rewrite Hs.
  - cbn [all_chars] in H. apply andb_prop in H as [Hc Hw].
    change (String c w +:+ String " " pat +:+ rest)
      with (String c (w +:+ String " " pat +:+ rest)).
    rewrite find_cons_miss by now apply space_miss.
    now rewrite IH.
Qed.

Lemma parseColor_sentence (color : string) :
  is_word color = true → parseColor (color +:+ " color") = color.
Proof.
  intros (Ee & Sp & _)%word_parts. unfold parseColor. rewrite toLower_app.
  rewrite <- (append_empty_r (toLower " color")).
  change (toLower " color" +:+ "") with (String " " "color" +:+ "").
  rewrite find_after_word by now rewrite all_chars_toLower_space.
  rewrite length_toLower, substr_prefix.
  apply trim_clean. now apply not_space_edge_clean.
Qed.

Lemma stoi_decimal (n : Z) : 0 <= n <= INT_MAX → stoi (decimal n) = Ok n.
Proof.
  intros Hn. unfold stoi.
  destruct (all_digits_chars _ (all_digits_decimal n ltac:(lia))) as [Hs _].
  destruct (not_space_edge_clean _ Hs) as [Hno _].
  rewrite skipws_none by assumption.
  pose proof (scan_int_ok "" (decimal n) "" (or_introl eq_refl)
                (all_digits_decimal n ltac:(lia)) (decimal_not_empty n ltac:(lia)) eq_refl)
    as Hscan.
  cbn [String.append] in Hscan. rewrite append_empty_r in Hscan. rewrite Hscan.
  change (signed_value "" (decimal n)) with (digits_value 0 (decimal n)).
  rewrite digits_value_decimal by lia.
  now rewrite (proj2 (in_int_range n)) by (unfold INT_MIN; lia).
Qed.

Lemma parseWeight_sentence (weight : Z) (unit_text : string) :
  0 <= weight <= INT_MAX →
  parseWeight (show_int weight +:+ String " " unit_text) = Ok weight.
Proof.
  intros Hw. unfold parseWeight. rewrite show_int_nonneg by lia.
  destruct (all_digits_chars _ (all_digits_decimal weight ltac:(lia))) as [Hs _].
  change (String " " unit_text) with (String " " "" +:+ unit_text).
  rewrite find_after_word by assumption.
  rewrite substr_prefix. now apply stoi_decimal.
Qed.

Lemma comma_space_not_empty : ", " ≠ "".
Proof. discriminate. Qed.

Lemma join_push (delimiter a token : string) (rest : list string) :
  join delimiter ((a +:+ delimiter +:+ token) :: rest)
  = a +:+ delimiter +:+ join delimiter (token :: rest).
Proof. destruct rest as [|t rest]; cbn [join]; [reflexivity | now rewrite !append_assoc]. Qed.

(** The loop of [parseOrigin], once it holds some text, joins with [", "]. *)
Lemma origin_fold_join (tokens : list string) (acc : string) :
  empty acc = false →
  fold_left (λ origin part, (if empty origin then origin else origin +:+ ", ") +:+ part)
    tokens acc
  = join ", " (acc :: tokens).
Proof.
  revert acc. induction tokens as [|token tokens IH]; intros acc Hacc; [reflexivity|].
  cbn [fold_left]. rewrite Hacc, IH.
  - rewrite append_assoc. apply join_push.
  - destruct acc; [discriminate | reflexivity].
Qed.

Lemma parseOrigin_from (origin : string) :
  edge_clean origin → parseOrigin (split ("from " +:+ origin) ", ") = origin.
Proof.
  intros [Hfront Hback].
  pose proof (split_terminates ("from " +:+ origin) ", "
                (S (String.length ("from " +:+ origin))) comma_space_not_empty ltac:(lia)) as Hrun.
  destruct (split_loop_tokens _ _ _ _ _ comma_space_not_empty Hrun)
    as (tokens & tail & Htok & _ & Htail & Hjoin).
  cbn [app] in Htok. rewrite Htok.
  assert (tail = "") as ->.
  { destruct Htail as [->|[-> _]]; [reflexivity|]. exfalso.
    apply (f_equal string_rev) in Hjoin.
    rewrite !string_rev_app in Hjoin.
    change (string_rev ", ") with " ," in Hjoin.
    change (string_rev "from ") with " morf" in Hjoin.
    destruct (string_rev origin) as [|c r]; [discriminate|].
    simpl in Hback. injection Hjoin as -> _. discriminate. }
  rewrite append_empty_r in Hjoin.
  destruct tokens as [|first tokens]; [simpl in Hjoin; discriminate|].
  assert (Hfirst : empty first = false).
  { destruct first; [|reflexivity]. destruct tokens; simpl in Hjoin; discriminate. }
  unfold parseOrigin. cbn [fold_left empty String.append].
  rewrite origin_fold_join by assumption.
  rewrite <- Hjoin.
  change (toLower ("from " +:+ origin)) with ("from " +:+ toLower origin).
  change (starts_with "from " ("from " +:+ toLower origin)) with true.
  cbn iota. change (substr_from (String.length "from ") ("from " +:+ origin)) with origin.
  apply trim_clean. now split.
Qed.

Lemma parseArrivalRow_sentence (date : string) (age : Z)
    (years old sex species : string) (born_in : bool) (season color : string)
    (weight : Z) (origin : string) :
  all_chars not_comma date = true →
  0 <= age <= INT_MAX →
  is_word years = true → is_word old = true →
  is_word sex = true → is_word species = true →
  is_word season = true → is_word color = true →
  0 <= weight <= INT_MAX →
  edge_clean origin →
  parseArrivalRow
    (arrival_sentence date age years old sex species born_in season color weight origin)
  = Ok {| arrivalDate := trim date; age := age; sex := toLower sex;
          species := toLower species;
          birthSeason := if born_in then toLower season else season;
          color := color; weight := weight; origin := origin |}.
Proof.
  intros Hdate Hage Hyears Hold Hsex Hspecies Hseason Hcolor Hweight Horigin.
  destruct (word_parts _ Hyears) as (_ & _ & Cy).
  destruct (word_parts _ Hold) as (_ & _ & Co).
  destruct (word_parts _ Hsex) as (_ & _ & Cs).
  destruct (word_parts _ Hspecies) as (_ & _ & Cp).
  destruct (word_parts _ Hseason) as (_ & _ & Cn).
  destruct (word_parts _ Hcolor) as (_ & _ & Cc).
  destruct (all_digits_chars _ (all_digits_decimal age ltac:(lia))) as [_ Ca].
  destruct (all_digits_chars _ (all_digits_decimal weight ltac:(lia))) as [_ Cw].
  unfold parseArrivalRow, arrival_sentence. cbv zeta.
  rewrite (split_cons_part date) by assumption.
  rewrite (split_cons_part (show_int age +:+ _))
    by (rewrite show_int_nonneg by lia; rewrite !all_chars_app, Ca, Cy, Co, Cs, Cp;
        reflexivity).
  rewrite (split_cons_part (_ +:+ season))
    by (rewrite all_chars_app, Cn; now destruct born_in).
  rewrite (split_cons_part (color +:+ _)) by (now rewrite all_chars_app, Cc).
  rewrite (split_cons_part (show_int weight +:+ _))
    by (rewrite show_int_nonneg by lia; now rewrite all_chars_app, Cw).
  assert (Hlen : (length (split ("from " +:+ origin) ", ") >= 1)%nat).
  { destruct (split ("from " +:+ origin) ", ") eqn:E; [|simpl; lia].
    pose proof (parseOrigin_from origin Horigin) as Hp. rewrite E in Hp.
    unfold parseOrigin in Hp. cbn in Hp.
    pose proof (split_terminates ("from " +:+ origin) ", "
                  (S (String.length ("from " +:+ origin))) comma_space_not_empty ltac:(lia)) as Hrun.
    destruct (split_loop_tokens _ _ _ _ _ comma_space_not_empty Hrun)
      as (tokens & tail & Htok & _ & Htail & Hjoin).
    cbn [app] in Htok. rewrite E in Htok. subst tokens.
    destruct Htail as [->|[_ []]]; [discriminate | reflexivity]. }
  cbn [length nth drop].
  destruct (Nat.ltb_spec (S (S (S (S (S (length (split ("from " +:+ origin) ", "))))))) 6);
    [lia|].
  rewrite parseAgeSexSpecies_sentence by assumption.
  rewrite parseSeason_sentence, parseColor_sentence by assumption.
  rewrite (parseWeight_sentence weight "pounds") by assumption.
  cbn [mbind outcome_bind]. now rewrite drop_0, parseOrigin_from.
Qed.

(** X9.  [parseArrivalRow] reads a sentence of the documented format back into
    its fields: the date trimmed, the age, sex and species in lower case,
    the season (in lower case behind "born in", as written without it), the
    colour as written, the weight, and the origin with its commas.  The date
    holds no comma, the four words around the age, the season and the colour
    are words, age and weight are from 0 to [INT_MAX], and the origin
    neither starts nor ends with white space. *)
Theorem parseArrivalRow_reads_sentence (date : string) (age : Z)
    (years old sex species : string) (born_in : bool) (season color : string)
    (weight : Z) (origin : string) :
  all_chars not_comma date = true →
  0 <= age <= INT_MAX →
  is_word years = true → is_word old = true →
  is_word sex = true → is_word species = true →
  is_word season = true → is_word color = true →
  0 <= weight <= INT_MAX →
  edge_clean origin →
  parseArrivalRow
    (arrival_sentence date age years old sex species born_in season color weight origin)
  = Ok {| arrivalDate := trim date; age := age; sex := toLower sex;
          species := toLower species;
          birthSeason := if born_in then toLower season else season;
          color := color; weight := weight; origin := origin |}.
Proof. apply parseArrivalRow_sentence. Qed.

Lemma parseArrivalRow_reads_sentence_witness :
  parseArrivalRow
    "2024-03-05, 3 years old Female Hyena, Spring, Tan color, 70 pounds, from Friguia Park, Tunisia"
  = Ok {| arrivalDate := "2024-03-05"; age := 3; sex := "female"; species := "hyena";
          birthSeason := "Spring"; color := "Tan"; weight := 70;
          origin := "Friguia Park, Tunisia" |}.
Proof.
  exact (parseArrivalRow_reads_sentence "2024-03-05" 3 "years" "old" "Female" "Hyena"
           false "Spring" "Tan" 70 "Friguia Park, Tunisia"
           eq_refl ltac:(unfold INT_MAX; lia) eq_refl eq_refl eq_refl eq_refl eq_refl eq_refl
           ltac:(unfold INT_MAX; lia) (conj eq_refl eq_refl)).
Defined.

(** ** One arrival *)

Lemma createAnimal_inv (row : ParsedAnimalRow) (name uniqueId birthDate group : string)
    (created : Animal) :
  createAnimal row name uniqueId birthDate group = Ok created →
  ∃ k, species row = kindSpecies k
       ∧ created = make_animal k name uniqueId (age row) (sex row) (color row)
                     (weight row) (origin row) (arrivalDate row) birthDate group.
Proof.
  unfold createAnimal.
  destruct (String.eqb_spec (species row) "hyena") as [E|_];
    [intros [= <-]; now exists Hyena|].
  destruct (String.eqb_spec (species row) "lion") as [E|_];
    [intros [= <-]; now exists Lion|].
  destruct (String.eqb_spec (species row) "tiger") as [E|_];
    [intros [= <-]; now exists Tiger|].
  destruct (String.eqb_spec (species row) "bear") as [E|_];
    [intros [= <-]; now exists Bear|].
  discriminate.
Qed.

Lemma createAnimal_kind (row : ParsedAnimalRow) (name uniqueId birthDate group : string)
    (k : AnimalKind) :
  species row = kindSpecies k →
  createAnimal row name uniqueId birthDate group
  = Ok (make_animal k name uniqueId (age row) (sex row) (color row)
          (weight row) (origin row) (arrivalDate row) birthDate group).
Proof. intros H. unfold createAnimal. rewrite H. now destruct k. Qed.

Lemma speciesPrefix_kind (k : AnimalKind) : speciesPrefix (kindSpecies k) = Ok (kindPrefix k).
Proof. now destruct k. Qed.

Lemma parseAgeSexSpecies_lower (part : string) (a : Z) (s sp : string) (failed : bool) :
  parseAgeSexSpecies part = (a, s, sp, failed) →
  no_upper s = true ∧ no_upper sp = true.
Proof.
  unfold parseAgeSexSpecies.
  destruct (extract_int 0 (open_stream part)) as [a0 ss0].
  destruct (extract_string "" ss0) as [w1 ss1].
  destruct (extract_string "" ss1) as [w2 ss2].
  destruct (extract_string "" ss2) as [w3 ss3].
  destruct (extract_string "" ss3) as [w4 ss4].
  intros [= _ <- <- _]. split; apply no_upper_toLower.
Qed.

Lemma parseArrivalRow_lower (line : string) (row : ParsedAnimalRow) :
  parseArrivalRow line = Ok row → no_upper (sex row) = true ∧ no_upper (species row) = true.
Proof.
  unfold parseArrivalRow. cbv zeta.
  destruct (Nat.ltb_spec (length (split line ", ")) 6); [discriminate|].
  destruct (parseAgeSexSpecies (nth 1 (split line ", ") "")) as [[[a s] sp] failed] eqn:E.
  destruct failed; [discriminate|].
  destruct (parseWeight _); try discriminate.
  cbn [mbind outcome_bind]. intros [= <-]. cbn [sex species].
  now apply parseAgeSexSpecies_lower in E.
Qed.

(** A species in lower case that [speciesPrefix] accepts is one of the four
    that [createAnimal] knows. *)
Lemma supported_lower_kind (species p : string) :
  no_upper species = true → speciesPrefix species = Ok p →
  ∃ k, species = kindSpecies k ∧ p = kindPrefix k.
Proof.
  intros Hlow Hp. unfold speciesPrefix in Hp. rewrite (toLower_no_upper _ Hlow) in Hp.
  destruct (String.eqb_spec species "hyena") as [->|_]; [injection Hp as <-; now exists Hyena|].
  destruct (String.eqb_spec species "lion") as [->|_]; [injection Hp as <-; now exists Lion|].
  destruct (String.eqb_spec species "tiger") as [->|_]; [injection Hp as <-; now exists Tiger|].
  destruct (String.eqb_spec species "bear") as [->|_]; [injection Hp as <-; now exists Bear|].
  discriminate.
Qed.

Lemma parseArrivalRow_errors (line : string) (ex : exception) :
  parseArrivalRow line = Throw ex →
  ex = runtime_error ("Malformed arrival entry: " +:+ line)
  ∨ ex = runtime_error ("Unable to parse age/sex/species segment: "
                        +:+ nth 1 (split line ", ") "")
  ∨ ex = invalid_argument "stoi" ∨ ex = out_of_range "stoi".
Proof.
  unfold parseArrivalRow. cbv zeta.
  destruct (Nat.ltb_spec (length (split line ", ")) 6); [intros [= <-]; auto|].
  destruct (parseAgeSexSpecies (nth 1 (split line ", ") "")) as [[[a s] sp] [|]];
    [intros [= <-]; auto|].
  unfold parseWeight, stoi. destruct (scan_int _) as [[v r]|]; [|intros [= <-]; auto].
  destruct (in_int v); cbn [mbind outcome_bind]; [discriminate | intros [= <-]; auto].
Qed.

Lemma genBirthDay_errors (age : Z) (season arrivalDate : string) (ex : exception) :
  genBirthDay age season arrivalDate = Throw ex →
  ex = runtime_error ("Invalid ISO date: " +:+ arrivalDate).
Proof.
  unfold genBirthDay.
  destruct (parseIsoDate_cases arrivalDate) as [[d ->]| ->]; cbn [mbind outcome_bind].
  - unfold int_checked. destruct (in_int _); cbn [mbind outcome_bind]; discriminate.
  - now intros [= <-].
Qed.

Lemma genUniqueId_errors (species : string) (counters : gmap string Z) (ex : exception) :
  genUniqueId species counters = Throw ex →
  ex = runtime_error ("Unsupported species: " +:+ species).
Proof.
  unfold genUniqueId, speciesPrefix.
  repeat match goal with |- context [if String.eqb ?a ?b then _ else _] =>
           destruct (String.eqb a b) end;
    cbn [mbind outcome_bind]; unfold int_checked;
    try (destruct (in_int _); cbn [mbind outcome_bind]; discriminate).
  now intros [= <-].
Qed.

Lemma selectSocialGroup_no_throw (speciesKey : string) (index : Z) (ex : exception) :
  selectSocialGroup speciesKey index ≠ Throw ex.
Proof.
  unfold selectSocialGroup. destruct (groups !! speciesKey) as [[|o options]|]; try discriminate.
  destruct (_ <? 0); [discriminate|]. destruct (_ !! _); discriminate.
Qed.

(** X10.  The errors of one arrival are those of the parser, the one of
    [genUniqueId] for a species outside the four, and the one of
    [parseIsoDate] for the arrival date.  The species is checked before the
    date.  The error of [createAnimal] never leaves [processArrival]: the
    parser gives the species in lower case, and [genUniqueId] has thrown
    before for every species that [createAnimal] would refuse. *)
Theorem processArrival_errors (line : string) (zoo : Zoo) (ex : exception) :
  processArrival line zoo = Throw ex →
  (ex = runtime_error ("Malformed arrival entry: " +:+ trim line)
   ∨ ex = runtime_error ("Unable to parse age/sex/species segment: "
                         +:+ nth 1 (split (trim line) ", ") "")
   ∨ ex = invalid_argument "stoi" ∨ ex = out_of_range "stoi"
   ∨ (∃ row, parseArrivalRow (trim line) = Ok row
             ∧ ex = runtime_error ("Unsupported species: " +:+ species row))
   ∨ (∃ row p, parseArrivalRow (trim line) = Ok row
               ∧ speciesPrefix (species row) = Ok p
               ∧ ex = runtime_error ("Invalid ISO date: " +:+ arrivalDate row)))
  ∧ ∀ text, ex ≠ runtime_error ("Encountered unsupported species: " +:+ text).
Proof.
  intros Hrun.
  assert (Hcases :
    ex = runtime_error ("Malformed arrival entry: " +:+ trim line)
    ∨ ex = runtime_error ("Unable to parse age/sex/species segment: "
                          +:+ nth 1 (split (trim line) ", ") "")
    ∨ ex = invalid_argument "stoi" ∨ ex = out_of_range "stoi"
    ∨ (∃ row, parseArrivalRow (trim line) = Ok row
              ∧ ex = runtime_error ("Unsupported species: " +:+ species row))
    ∨ (∃ row p, parseArrivalRow (trim line) = Ok row
                ∧ speciesPrefix (species row) = Ok p
                ∧ ex = runtime_error ("Invalid ISO date: " +:+ arrivalDate row))).
  { unfold processArrival in Hrun.
    destruct (empty (trim line)); [discriminate|].
    destruct (parseArrivalRow (trim line)) as [row| |] eqn:Hrow;
      cbn [mbind outcome_bind] in Hrun; [|injection Hrun as ->|discriminate].
    2:{ destruct (parseArrivalRow_errors _ _ Hrow) as [->|[->|[->| ->]]]; auto 10. }
    destruct (genUniqueId (species row) (idCounters zoo)) as [[id counters]| |] eqn:Hid;
      cbn [mbind outcome_bind] in Hrun; [|injection Hrun as ->|discriminate].
    2:{ apply genUniqueId_errors in Hid as ->. do 4 right. left. now exists row. }
    apply genUniqueId_inv in Hid as (p & Hp & _).
    destruct (popNextName (names zoo) (species row)) as [name names'].
    destruct (genBirthDay (age row) (birthSeason row) (arrivalDate row)) as [birth| |] eqn:Hb;
      cbn [mbind outcome_bind] in Hrun; [|injection Hrun as ->|discriminate].
    2:{ apply genBirthDay_errors in Hb as ->. do 5 right. now exists row, p. }
    destruct (map_at (species row) 0 (speciesCounts zoo)) as [index counts].
    destruct (selectSocialGroup (species row) index) as [group| |] eqn:Hg;
      cbn [mbind outcome_bind] in Hrun; [|now apply selectSocialGroup_no_throw in Hg|discriminate].
    destruct (parseArrivalRow_lower _ _ Hrow) as [_ Hlow].
    destruct (supported_lower_kind _ _ Hlow Hp) as (k & Hk & _).
    rewrite (createAnimal_kind row name id birth group k Hk) in Hrun.
    cbn [mbind outcome_bind] in Hrun. unfold int_checked in Hrun.
    destruct (in_int (index + 1)); cbn [mbind outcome_bind] in Hrun; [|discriminate].
    destruct (map_at _ _ _). discriminate. }
  split; [exact Hcases|].
  intros text ->.
  destruct Hcases as [H|[H|[H|[H|[(row & _ & H)|(row & p & _ & _ & H)]]]]]; discriminate.
Qed.

Lemma processArrival_errors_witness :
  processArrival arrival_zebra (emptyZoo ∅)
  = Throw (runtime_error "Unsupported species: zebra")
  ∧ runtime_error "Unsupported species: zebra"
    ≠ runtime_error "Encountered unsupported species: zebra".
Proof.
  split; [vm_compute; reflexivity|].
  exact (proj2 (processArrival_errors arrival_zebra (emptyZoo ∅)
                  (runtime_error "Unsupported species: zebra") eq_refl) "zebra").
Defined.

(** ** What a run keeps true *)

Lemma processArrival_blank (line : string) (zoo : Zoo) :
  blank line = true → processArrival line zoo = Ok zoo.
Proof. unfold blank, processArrival. now intros ->. Qed.

Lemma processArrival_ok (line : string) (zoo zoo' : Zoo) :
  blank line = false → processArrival line zoo = Ok zoo' →
  ∃ row k name birthDate group,
    parseArrivalRow (trim line) = Ok row
    ∧ species row = kindSpecies k
    ∧ selectSocialGroup (kindSpecies k) (default 0 (speciesCounts zoo !! kindSpecies k))
      = Ok group
    ∧ popNextName (names zoo) (kindSpecies k) = (name, names zoo')
    ∧ genBirthDay (age row) (birthSeason row) (arrivalDate row) = Ok birthDate
    ∧ let created :=
        make_animal k name
          (kindPrefix k +:+ setw_fill 2 "0"
             (show_int (default 0 (idCounters zoo !! kindPrefix k) + 1)))
          (age row) (sex row) (color row) (weight row) (origin row) (arrivalDate row)
          birthDate group in
      animals zoo' = animals zoo ++ [created]
      ∧ animalsByHabitat zoo'
        = <[habitatName created :=
              default [] (animalsByHabitat zoo !! habitatName created) ++ [created]]>
            (animalsByHabitat zoo)
      ∧ idCounters zoo'
        = <[kindPrefix k := default 0 (idCounters zoo !! kindPrefix k) + 1]> (idCounters zoo)
      ∧ speciesCounts zoo'
        = <[kindSpecies k := default 0 (speciesCounts zoo !! kindSpecies k) + 1]>
            (speciesCounts zoo).
Proof.
  unfold blank, processArrival. intros -> Hrun.
  destruct (parseArrivalRow (trim line)) as [row| |] eqn:Hrow; try discriminate.
  cbn [mbind outcome_bind] in Hrun.
  destruct (genUniqueId (species row) (idCounters zoo)) as [[id counters]| |] eqn:Hid;
    try discriminate.
  cbn [mbind outcome_bind] in Hrun.
  apply genUniqueId_inv in Hid as (p & Hp & _ & -> & ->).
  destruct (parseArrivalRow_lower _ _ Hrow) as [_ Hlow].
  destruct (supported_lower_kind _ _ Hlow Hp) as (k & Hk & ->).
  rewrite Hk in Hrun.
  destruct (popNextName (names zoo) (kindSpecies k)) as [name names'] eqn:Hname.
  destruct (genBirthDay (age row) (birthSeason row) (arrivalDate row)) as [birth| |] eqn:Hb;
    try discriminate.
  cbn [mbind outcome_bind] in Hrun.
  unfold map_at in Hrun at 1.
  assert (Hsel : ∀ (counts : gmap string Z) (rest : Z → gmap string Z → outcome Zoo),
            (let '(index, speciesCounts) :=
               match speciesCounts zoo !! kindSpecies k with
               | Some v => (v, speciesCounts zoo)
               | None => (0, <[kindSpecies k := 0]> (speciesCounts zoo))
               end in rest index speciesCounts)
            = rest (default 0 (speciesCounts zoo !! kindSpecies k))
                (match speciesCounts zoo !! kindSpecies k with
                 | Some v => speciesCounts zoo
                 | None => <[kindSpecies k := 0]> (speciesCounts zoo)
                 end)).
  { intros _ rest. now destruct (speciesCounts zoo !! kindSpecies k). }
  rewrite (Hsel ∅) in Hrun. clear Hsel.
  destruct (selectSocialGroup (kindSpecies k) _) as [group| |] eqn:Hg; try discriminate.
  cbn [mbind outcome_bind] in Hrun.
  rewrite (createAnimal_kind row _ _ _ _ k Hk) in Hrun.
  cbn [mbind outcome_bind] in Hrun. unfold int_checked in Hrun.
  destruct (in_int _); [|discriminate]. cbn [mbind outcome_bind] in Hrun.
  unfold map_at in Hrun.
  exists row, k, name, birth, group.
  split; [reflexivity|]. split; [exact Hk|]. split; [exact Hg|].
  assert (Hocc : ∀ (h : string) (c : Animal) (m : gmap string (list Animal)),
            (let '(occupants, index) :=
               match m !! h with
               | Some v => (v, m)
               | None => ([], <[h := []]> m)
               end in <[h := occupants ++ [c]]> index)
            = <[h := default [] (m !! h) ++ [c]]> m).
  { intros h c m. destruct (m !! h); [reflexivity | apply insert_insert_eq]. }
  assert (Hcount : (<[kindSpecies k := default 0 (speciesCounts zoo !! kindSpecies k) + 1]>
                     match speciesCounts zoo !! kindSpecies k with
                     | Some _ => speciesCounts zoo
                     | None => <[kindSpecies k := 0]> (speciesCounts zoo)
                     end)
                   = <[kindSpecies k := default 0 (speciesCounts zoo !! kindSpecies k) + 1]>
                       (speciesCounts zoo)).
  { destruct (speciesCounts zoo !! kindSpecies k); [reflexivity | apply insert_insert_eq]. }
  set (created := make_animal k name _ _ _ _ _ _ _ _ _) in *.
  assert (Hzoo : zoo' = {| names := names'; animals := animals zoo ++ [created];
             animalsByHabitat :=
               <[habitatName created :=
                   default [] (animalsByHabitat zoo !! habitatName created) ++ [created]]>
                 (animalsByHabitat zoo);
             idCounters :=
               <[kindPrefix k := default 0 (idCounters zoo !! kindPrefix k) + 1]>
                 (idCounters zoo);
             speciesCounts :=
               <[kindSpecies k := default 0 (speciesCounts zoo !! kindSpecies k) + 1]>
                 (speciesCounts zoo) |}).
  { rewrite <- Hcount, <- Hocc.
    destruct (animalsByHabitat zoo !! habitatName created); now injection Hrun as <-. }
  rewrite Hzoo. cbn [names animals animalsByHabitat idCounters speciesCounts].
  auto 10.
Qed.

Lemma kind_count_snoc (k : AnimalKind) (l : list Animal) (a : Animal) :
  kind_count k (l ++ [a])
  = (kind_count k l + if decide (kind a = k) then 1 else 0)%nat.
Proof.
  unfold kind_count. rewrite filter_app, length_app. f_equal.
  rewrite filter_cons, filter_nil. now destruct (decide (kind a = k)).
Qed.

Lemma kind_count_take_lt (k : AnimalKind) (l : list Animal) (i j : nat) (a : Animal) :
  l !! i = Some a → kind a = k → (i < j)%nat →
  (kind_count k (take i l) < kind_count k (take j l))%nat.
Proof.
  unfold kind_count. revert i j. induction l as [|x l IH]; intros i j Hi Hk Hij; [discriminate|].
  destruct j as [|j]; [lia|]. destruct i as [|i]; cbn [take].
  - injection Hi as ->. rewrite filter_cons, decide_True by assumption. simpl. lia.
  - specialize (IH i j Hi Hk ltac:(lia)). rewrite !filter_cons.
    destruct (decide (kind x = k)); simpl; lia.
Qed.

Lemma kindPrefix_inj (k k' : AnimalKind) : kindPrefix k = kindPrefix k' → k = k'.
Proof. destruct k, k'; (reflexivity || discriminate). Qed.

Lemma kindSpecies_inj (k k' : AnimalKind) : kindSpecies k = kindSpecies k' → k = k'.
Proof. destruct k, k'; (reflexivity || discriminate). Qed.

Lemma kindPrefix_prefixes (k : AnimalKind) : kindPrefix k ∈ prefixes.
Proof. unfold prefixes. destruct k; set_solver. Qed.

Lemma consistent_empty (loaded : gmap string (list string)) : consistent (emptyZoo loaded).
Proof.
  unfold consistent, emptyZoo. cbn [animalsByHabitat idCounters speciesCounts animals].
  split; [|split; [|split]].
  - intros habitat. now rewrite lookup_empty.
  - intros k. now rewrite lookup_empty.
  - intros k. now rewrite lookup_empty.
  - intros i a H. discriminate.
Qed.

Lemma consistent_step (line : string) (zoo zoo' : Zoo) :
  consistent zoo → processArrival line zoo = Ok zoo' → consistent zoo'.
Proof.
  intros Hc Hrun.
  destruct (blank line) eqn:Hblank.
  { rewrite processArrival_blank in Hrun by assumption. now injection Hrun as <-. }
  destruct Hc as (Hhab & Hids & Hcounts & Hrank).
  destruct (processArrival_ok line zoo zoo' Hblank Hrun)
    as (row & k & name & birth & group & _ & _ & Hgroup & _ & _ & Hzoo).
  cbv zeta in Hzoo. destruct Hzoo as (Hanimals & Hindex & Hcounters & Hspecies).
  set (created := make_animal k name _ _ _ _ _ _ _ _ _) in *.
  assert (Hkind : kind created = k) by reflexivity.
  split; [|split; [|split]].
  - intros habitat. rewrite Hindex, Hanimals, filter_app, filter_cons, filter_nil.
    destruct (decide (habitatName created = habitat)) as [<-|Hne].
    + now rewrite lookup_insert_eq, Hhab.
    + rewrite lookup_insert_ne by assumption. now rewrite Hhab, app_nil_r.
  - intros k'. rewrite Hcounters, Hanimals, kind_count_snoc, Hkind.
    destruct (decide (k = k')) as [<-|Hne].
    + rewrite lookup_insert_eq. simpl default. rewrite Hids. unfold id. lia.
    + rewrite lookup_insert_ne by (intros E%kindPrefix_inj; contradiction).
      rewrite Hids. lia.
  - intros k'. rewrite Hspecies, Hanimals, kind_count_snoc, Hkind.
    destruct (decide (k = k')) as [<-|Hne].
    + rewrite lookup_insert_eq. simpl default. rewrite Hcounts. unfold id. lia.
    + rewrite lookup_insert_ne by (intros E%kindSpecies_inj; contradiction).
      rewrite Hcounts. lia.
  - intros i a Hi. rewrite Hanimals in Hi |- *.
    destruct (Nat.lt_ge_cases i (length (animals zoo))) as [Hlt|Hge].
    + rewrite lookup_app_l in Hi by assumption.
      rewrite take_app_le by lia. now apply Hrank.
    + rewrite lookup_app_r in Hi by assumption.
      destruct (i - length (animals zoo))%nat as [|d] eqn:Hd; [|now destruct d].
      cbn [lookup list_lookup] in Hi.
      injection Hi as <-. assert (i = length (animals zoo)) as -> by lia.
      rewrite take_app_length. cbv zeta. rewrite Hkind.
      split; [|split; [|reflexivity]].
      * unfold created. cbn [uniqueId_ make_animal]. now rewrite Hids.
      * rewrite <- Hcounts. exact Hgroup.
Qed.

Lemma for_each_line_consistent (lines : list string) (zoo zoo' : Zoo) :
  consistent zoo → for_each_line processArrival lines zoo = Ok zoo' →
  consistent zoo'
  ∧ length (animals zoo')
    = (length (animals zoo) + length (filter (λ line, blank line = false) lines))%nat.
Proof.
  revert zoo. induction lines as [|line lines IH]; intros zoo Hc Hrun.
  - injection Hrun as <-. simpl. split; [assumption | lia].
  - cbn [for_each_line] in Hrun.
    destruct (processArrival line zoo) as [zoo1| |] eqn:Hline; try discriminate.
    cbn [mbind outcome_bind] in Hrun.
    destruct (IH zoo1 (consistent_step _ _ _ Hc Hline) Hrun) as [Hc' Hlen].
    split; [assumption|]. rewrite Hlen, filter_cons.
    destruct (blank line) eqn:Hblank.
    + rewrite processArrival_blank in Hline by assumption. injection Hline as <-.
      now rewrite decide_False by discriminate.
    + destruct (processArrival_ok line zoo zoo1 Hblank Hline)
        as (row & k & name & birth & group & _ & _ & _ & _ & _ & Hzoo).
      cbv zeta in Hzoo. destruct Hzoo as (-> & _).
      rewrite decide_True by reflexivity. rewrite length_app. simpl. lia.
Qed.

Lemma consistent_NoDup (zoo : Zoo) : consistent zoo → NoDup (uniqueId_ <$> animals zoo).
Proof.
  intros (_ & _ & _ & Hrank).
  assert (Hlt : ∀ i j x, (i < j)%nat →
            (uniqueId_ <$> animals zoo) !! i = Some x →
            (uniqueId_ <$> animals zoo) !! j = Some x → False).
  { intros i j x Hij Hi Hj. rewrite list_lookup_fmap in Hi, Hj.
    destruct (animals zoo !! i) as [a|] eqn:Ha; [|discriminate].
    destruct (animals zoo !! j) as [b|] eqn:Hb; [|discriminate].
    injection Hi as Hi. injection Hj as Hj.
    destruct (Hrank i a Ha) as (Hida & _). destruct (Hrank j b Hb) as (Hidb & _).
    cbv zeta in Hida, Hidb. rewrite show_int_nonneg in Hida, Hidb by lia.
    assert (Heq : sequence_id (kindPrefix (kind a))
                    (Z.of_nat (kind_count (kind a) (take i (animals zoo))) + 1)
                  = sequence_id (kindPrefix (kind b))
                      (Z.of_nat (kind_count (kind b) (take j (animals zoo))) + 1))
      by (unfold sequence_id; congruence).
    apply sequence_id_inj in Heq as [Hk%kindPrefix_inj Hn];
      try apply kindPrefix_prefixes; try lia.
    pose proof (kind_count_take_lt (kind b) (animals zoo) i j a Ha Hk Hij).
    rewrite Hk in Hn. lia. }
  apply NoDup_alt. intros i j x Hi Hj.
  destruct (Nat.lt_trichotomy i j) as [Hij|[->|Hji]]; [|reflexivity|]; exfalso; eauto.
Qed.

(** X11.  After any run of the loop over the arrivals that ends without error:
    there is one animal for each line that is not blank; every habitat of
    the index lists exactly its animals, in the order of arrival; the
    identifier of an animal is its species' prefix and its rank among the
    animals of its species, counted from 1, and its group is the one
    [selectSocialGroup] gives for that rank, counted from 0; the counter of
    a species is the number of its animals; and no two animals share an
    identifier. *)
Theorem arrivals_loop_consistent (lines : list string)
    (loaded : gmap string (list string)) (zoo : Zoo) :
  for_each_line processArrival lines (emptyZoo loaded) = Ok zoo →
  length (animals zoo) = length (filter (λ line, blank line = false) lines)
  ∧ (∀ habitat,
        default [] (animalsByHabitat zoo !! habitat)
        = filter (λ a, habitatName a = habitat) (animals zoo))
  ∧ (∀ i a,
        animals zoo !! i = Some a →
        let rank := Z.of_nat (kind_count (kind a) (take i (animals zoo))) in
        uniqueId_ a = kindPrefix (kind a) +:+ setw_fill 2 "0" (show_int (rank + 1))
        ∧ selectSocialGroup (kindSpecies (kind a)) rank = Ok (socialGroup_ a)
        ∧ species_ a = className (kind a))
  ∧ (∀ k, default 0 (idCounters zoo !! kindPrefix k)
          = Z.of_nat (kind_count k (animals zoo))
          ∧ default 0 (speciesCounts zoo !! kindSpecies k)
            = Z.of_nat (kind_count k (animals zoo)))
  ∧ NoDup (uniqueId_ <$> animals zoo).
Proof.
  intros Hrun.
  destruct (for_each_line_consistent lines _ zoo (consistent_empty loaded) Hrun)
    as [Hc Hlen].
  pose proof (consistent_NoDup zoo Hc) as Hnodup.
  destruct Hc as (Hhab & Hids & Hcounts & Hrank).
  split; [exact Hlen|]. split; [exact Hhab|]. split; [exact Hrank|].
  split; [|exact Hnodup]. intros k. split; [apply Hids | apply Hcounts].
Qed.

Lemma arrivals_loop_consistent_witness :
  ∃ zoo, for_each_line processArrival two_arrivals (emptyZoo ∅) = Ok zoo
         ∧ length (animals zoo) = 2%nat
         ∧ NoDup (uniqueId_ <$> animals zoo).
Proof.
  destruct (for_each_line processArrival two_arrivals (emptyZoo ∅)) as [zoo| |] eqn:Hrun;
    [|vm_compute in Hrun; discriminate ..].
  exists zoo. split; [reflexivity|].
  destruct (arrivals_loop_consistent two_arrivals ∅ zoo Hrun) as (Hlen & _ & _ & _ & Hnodup).
  split; [exact Hlen | exact Hnodup].
Defined.

(** *** Blank lines *)

Lemma trim_edge_clean (s : string) : edge_clean (trim s).
Proof.
  destruct (edge_decomposition s) as (front & core & back & Hs & Hf & Hb & Hclean).
  assert (Ht : trim s = core) by (rewrite Hs; now apply trim_decomposed).
  now rewrite Ht.
Qed.

Lemma trim_trim (s : string) : trim (trim s) = trim s.
Proof. apply trim_clean, trim_edge_clean. Qed.

Lemma for_each_line_skip {S : Type} (body : string → S → outcome S) (lines : list string) :
  (∀ line st, blank line = true → body line st = Ok st) →
  (∀ line st, body (trim line) st = body line st) →
  ∀ st, for_each_line body lines st
        = for_each_line body (trim <$> filter (λ line, blank line = false) lines) st.
Proof.
  intros Hblank Htrim. induction lines as [|line lines IH]; intros st; [reflexivity|].
  rewrite filter_cons. destruct (blank line) eqn:Hb.
  - rewrite decide_False by discriminate. cbn [for_each_line].
    rewrite Hblank by assumption. cbn [mbind outcome_bind]. apply IH.
  - rewrite decide_True by reflexivity. cbn [for_each_line fmap list_fmap].
    rewrite Htrim. destruct (body line st); cbn [mbind outcome_bind]; [apply IH | easy ..].
Qed.

Lemma processArrival_trim (line : string) (zoo : Zoo) :
  processArrival (trim line) zoo = processArrival line zoo.
Proof. unfold processArrival. now rewrite trim_trim. Qed.

Lemma loadNameLine_trim (line : string) (loaded : gmap string (list string)) :
  loadNameLine (trim line) loaded = loadNameLine line loaded.
Proof. unfold loadNameLine. now rewrite trim_trim. Qed.

Lemma loadNameLine_blank (line : string) (loaded : gmap string (list string)) :
  blank line = true → loadNameLine line loaded = Ok loaded.
Proof. unfold blank, loadNameLine. now intros ->. Qed.

(** X12.  Both loops over the lines of a file skip the lines that are empty or
    all white space, and see every other line without the white space at its
    ends: a run over the lines is the run over the trimmed lines that are
    not blank. *)
Theorem blank_lines_skipped (lines : list string) :
  let kept := trim <$> filter (λ line, blank line = false) lines in
  (∀ zoo, for_each_line processArrival lines zoo = for_each_line processArrival kept zoo)
  ∧ (∀ loaded, for_each_line loadNameLine lines loaded
               = for_each_line loadNameLine kept loaded)
  ∧ (∀ line, line ∈ kept → edge_clean line ∧ line ≠ "").
Proof.
  intros kept. subst kept. split; [|split].
  - apply for_each_line_skip; [apply processArrival_blank | apply processArrival_trim].
  - apply for_each_line_skip; [apply loadNameLine_blank | apply loadNameLine_trim].
  - intros line (raw & -> & Hin)%list_elem_of_fmap.
    apply list_elem_of_filter in Hin as [Hb _]. split; [apply trim_edge_clean|].
    intros E. unfold blank in Hb. now rewrite E in Hb.
Qed.

(** *** The text of the report *)

Lemma text_of_app (a b : list string) : text_of (a ++ b) = text_of a +:+ text_of b.
Proof.
  unfold text_of. induction a as [|x a IH]; [reflexivity|].
  cbn [app foldr]. now rewrite IH, append_assoc.
Qed.

Lemma entries_fold (occupants : list Animal) (report : string) :
  fold_left
    (λ report animal,
       report +:+ "  - " +:+ reportLine animal +:+ " | " +:+ socialGroupLabel animal +:+ endl)
    occupants report
  = report +:+ text_of (animal_entry <$> occupants).
Proof.
  revert report. induction occupants as [|a occupants IH]; intros report.
  - cbn. now rewrite append_empty_r.
  - cbn [fold_left fmap list_fmap text_of foldr]. rewrite IH.
    unfold animal_entry, text_of. now rewrite !append_assoc.
Qed.

Lemma renderHabitat_text (habitat report : string) (index : gmap string (list Animal)) :
  (renderHabitat habitat (report, index)).1
  = report +:+ habitat_text habitat (default [] (index !! habitat)).
Proof.
  unfold renderHabitat.
  pose proof (map_at_present habitat [] index) as Hp.
  assert (Hc : (map_at habitat [] index).1 = default [] (index !! habitat)).
  { unfold map_at. now destruct (index !! habitat). }
  destruct (map_at habitat [] index) as [counted index1]. cbn [fst snd] in *.
  assert (Ho : (map_at habitat [] index1).1 = counted).
  { unfold map_at. now rewrite Hp. }
  destruct (map_at habitat [] index1) as [occupants index2]. cbn [fst snd] in *.
  subst. rewrite entries_fold. unfold habitat_text. now rewrite !append_assoc.
Qed.

Lemma renderHabitat_default (habitat other report : string)
    (index : gmap string (list Animal)) :
  default [] ((renderHabitat habitat (report, index)).2 !! other)
  = default [] (index !! other).
Proof. rewrite renderHabitat_index. cbn [snd]. apply map_at_lookup_default. Qed.

Lemma render_fold_text (habitats : list string) (report : string)
    (index : gmap string (list Animal)) :
  (fold_left (λ st habitat, renderHabitat habitat st) habitats (report, index)).1
  = report
    +:+ text_of ((λ habitat, habitat_text habitat (default [] (index !! habitat)))
                   <$> habitats).
Proof.
  revert report index. induction habitats as [|h habitats IH]; intros report index.
  - cbn. now rewrite append_empty_r.
  - cbn [fold_left]. rewrite (surjective_pairing (renderHabitat h (report, index))).
    rewrite IH, renderHabitat_text. cbn [fmap list_fmap text_of foldr].
    rewrite append_assoc. do 2 f_equal. f_equal.
    apply list_fmap_ext. intros _ other _. now rewrite renderHabitat_default.
Qed.

Lemma renderReport_text (index : gmap string (list Animal)) :
  (renderReport index).1
  = text_of ((λ habitat, habitat_text habitat (default [] (index !! habitat)))
               <$> habitatOrder).
Proof. unfold renderReport. now rewrite render_fold_text. Qed.

Lemma habitat_sizes (l : list Animal) :
  sum_list ((λ habitat, length (filter (λ a, habitatName a = habitat) l)) <$> habitatOrder)
  = length l.
Proof.
  induction l as [|a l IH]; [reflexivity|].
  assert (Hcons : ∀ habitat,
            length (filter (λ a, habitatName a = habitat) (a :: l))
            = ((if decide (habitatName a = habitat) then 1 else 0)
               + length (filter (λ a, habitatName a = habitat) l))%nat).
  { intros habitat. rewrite filter_cons. now destruct (decide (habitatName a = habitat)). }
  cbn [habitatOrder fmap list_fmap sum_list sum_list_with] in *.
  rewrite !Hcons. cbn [length]. rewrite <- IH.
  set (h := habitatName a).
  assert (Hh : h = "Hyena Habitat" ∨ h = "Lion Habitat" ∨ h = "Tiger Habitat"
               ∨ h = "Bear Habitat")
    by (unfold h, habitatName; destruct (kind a); auto).
  destruct Hh as [-> | [-> | [-> | ->]]];
    repeat match goal with
           | |- context [decide (?x = ?y)] =>
               destruct (decide (x = y)); try discriminate; try congruence
           end; unfold id; lia.
Qed.

(** *** The report of a run *)

(** X13.  A run that exits with status 0 read both files, processed every line of
    the arrivals without error and wrote a report that is a function of the
    animals built: one section for each habitat in the fixed order, its
    header with the number of its animals and one entry for each of them in
    the order of arrival.  There is one animal for each line that is not
    blank, and each is in the section of one habitat. *)
Theorem main_report (fs : Files) (run : Run) :
  main fs = Some run → exit_status run = 0 →
  ∃ loaded text zoo,
    loadAnimalNames namesPath (namesFile fs) = Ok loaded
    ∧ arrivalsFile fs = Some text
    ∧ for_each_line processArrival (getlines text) (emptyZoo loaded) = Ok zoo
    ∧ reportFile run = Some (report_text (animals zoo))
    ∧ length (animals zoo) = length (filter (λ line, blank line = false) (getlines text))
    ∧ sum_list ((λ habitat, length (filter (λ a, habitatName a = habitat) (animals zoo)))
                  <$> habitatOrder)
      = length (animals zoo).
Proof.
  unfold main, main_try. intros Hrun Hstatus.
  destruct (loadAnimalNames namesPath (namesFile fs)) as [loaded| |];
    [|injection Hrun as <-; discriminate | discriminate].
  destruct (arrivalsFile fs) as [text|]; [|injection Hrun as <-; discriminate].
  destruct (for_each_line processArrival (getlines text) (emptyZoo loaded))
    as [zoo| |] eqn:Hloop; [|injection Hrun as <-; discriminate | discriminate].
  destruct (reportWritable fs); [|injection Hrun as <-; discriminate].
  pose proof (renderReport_text (animalsByHabitat zoo)) as Htext.
  destruct (renderReport (animalsByHabitat zoo)) as [report index]. cbn [fst] in Htext.
  injection Hrun as <-. cbn [reportFile].
  destruct (for_each_line_consistent _ _ _ (consistent_empty loaded) Hloop)
    as [(Hhab & _) Hlen].
  exists loaded, text, zoo.
  split; [reflexivity|]. split; [reflexivity|]. split; [exact Hloop|].
  split; [|split; [exact Hlen | apply habitat_sizes]].
  rewrite Htext. unfold report_text. do 2 f_equal.
  apply list_fmap_ext. intros _ habitat _. now rewrite Hhab.
Qed.

Lemma main_report_witness :
  ∃ run, main kamari_files = Some run
         ∧ ∃ zoo, reportFile run = Some (report_text (animals zoo))
                  ∧ length (animals zoo) = 1%nat.
Proof.
  destruct (main kamari_files) as [run|] eqn:Hmain; [|vm_compute in Hmain; discriminate].
  exists run. split; [reflexivity|].
  assert (Hstatus : exit_status run = 0)
    by (vm_compute in Hmain; injection Hmain as <-; reflexivity).
  destruct (main_report kamari_files run Hmain Hstatus)
    as (loaded & text & zoo & _ & Htext & _ & Hreport & Hlen & _).
  exists zoo. split; [exact Hreport|].
  injection Htext as <-. exact Hlen.
Defined.

(** *** How a run ends *)

(** X14.  A run ends in one of two ways: with status 0, a report written, the
    confirmation on the output stream and nothing on the error stream; or
    with status 1, no report file opened, nothing on the output stream and
    "Fatal error: " with the message of the exception on the error stream.
    The name file is opened first: without it the run fails with its
    message whatever the other files are; with the names loaded and no
    arrivals file, with the message about the arrivals file. *)
Theorem main_outcomes (fs : Files) :
  (namesFile fs = None →
   main fs = Some {| exit_status := 1; reportFile := None; cout := "";
                     cerr := "Fatal error: Unable to open name file: data/animalNames.txt"
                             +:+ endl |})
  ∧ (∀ loaded,
       loadAnimalNames namesPath (namesFile fs) = Ok loaded → arrivalsFile fs = None →
       main fs = Some {| exit_status := 1; reportFile := None; cout := "";
                         cerr := "Fatal error: Unable to open arrivals file: data/arrivingAnimals.txt"
                                 +:+ endl |})
  ∧ (∀ run,
       main fs = Some run →
       (exit_status run = 0 ∧ is_Some (reportFile run) ∧ cerr run = ""
        ∧ cout run = "Zoo population report written to zooPopulation.txt" +:+ endl)
       ∨ (exit_status run = 1 ∧ reportFile run = None ∧ cout run = ""
          ∧ ∃ ex, cerr run = "Fatal error: " +:+ what ex +:+ endl)).
Proof.
  unfold main, main_try. split; [|split].
  - intros ->. reflexivity.
  - intros loaded -> ->. reflexivity.
  - intros run.
    assert (Hfail : ∀ ex,
              Some {| exit_status := 1; reportFile := None; cout := "";
                      cerr := "Fatal error: " +:+ what ex +:+ endl |} = Some run →
              (exit_status run = 0 ∧ is_Some (reportFile run) ∧ cerr run = ""
               ∧ cout run = "Zoo population report written to zooPopulation.txt" +:+ endl)
              ∨ (exit_status run = 1 ∧ reportFile run = None ∧ cout run = ""
                 ∧ ∃ ex, cerr run = "Fatal error: " +:+ what ex +:+ endl)).
    { intros ex [= <-]. right. cbn [exit_status reportFile cout cerr]. eauto. }
    destruct (loadAnimalNames namesPath (namesFile fs)) as [loaded|ex|];
      [|apply Hfail | discriminate].
    destruct (arrivalsFile fs) as [text|]; [|apply Hfail].
    destruct (for_each_line processArrival (getlines text) (emptyZoo loaded))
      as [zoo|ex|]; [|apply Hfail | discriminate].
    destruct (reportWritable fs); [|apply Hfail].
    destruct (renderReport (animalsByHabitat zoo)) as [report index].
    intros [= <-]. left. cbn [exit_status reportFile cout cerr]. eauto.
Qed.

Lemma main_outcomes_witness :
  main {| namesFile := None; arrivalsFile := None; reportWritable := true |}
  = Some {| exit_status := 1; reportFile := None; cout := "";
            cerr := "Fatal error: Unable to open name file: data/animalNames.txt" +:+ endl |}.
Proof.
  exact (proj1 (main_outcomes
                  {| namesFile := None; arrivalsFile := None; reportWritable := true |})
           eq_refl).
Defined.

(** *** Loading the names *)

Lemma split_tokens_clean (value delimiter token : string) :
  delimiter ≠ "" → token ∈ split value delimiter → find delimiter token = None.
Proof.
  intros Hd Hin.
  pose proof (split_terminates value delimiter (S (String.length value)) Hd ltac:(lia)) as Hrun.
  destruct (split_loop_tokens _ _ _ _ _ Hd Hrun) as (new & tail & Hnew & Hnone & _).
  simpl in Hnew. rewrite <- Hnew in Hnone. now apply Hnone.
Qed.

Lemma find_comma_none (s : string) : find "," s = None → all_chars not_comma s = true.
Proof.
  induction s as [|c s IH]; [reflexivity|]. intros H.
  cbn [all_chars]. apply andb_true_intro. split.
  - unfold not_comma. destruct (Ascii.eqb_spec c ","); [subst c; discriminate H | reflexivity].
  - apply IH. cbn [find starts_with] in H.
    destruct (Ascii.eqb "," c && true); [discriminate|].
    now destruct (find "," s).
Qed.

Lemma all_chars_trim (P : ascii → bool) (s : string) :
  all_chars P s = true → all_chars P (trim s) = true.
Proof.
  destruct (edge_decomposition s) as (front & core & back & Hs & Hf & Hb & Hclean).
  assert (Ht : trim s = core) by (rewrite Hs; now apply trim_decomposed).
  rewrite Ht, Hs, !all_chars_app. intros H.
  apply andb_prop in H as [_ H]. now apply andb_prop in H as [H _].
Qed.

(** What a line of the name file does to the pools: nothing, or it sets the
    pool of one species. *)
Lemma loadNameLine_inv (line : string) (loaded loaded' : gmap string (list string)) :
  loadNameLine line loaded = Ok loaded' →
  (blank line = true ∧ loaded' = loaded)
  ∨ ∃ key pool,
      blank line = false
      ∧ loaded' = <[key := pool]> loaded
      ∧ loadNameLine line ∅ = Ok {[key := pool]}
      ∧ no_upper key = true ∧ edge_clean key
      ∧ ∀ name, name ∈ pool →
                name ≠ "" ∧ edge_clean name ∧ all_chars not_comma name = true.
Proof.
  unfold loadNameLine, blank. cbv zeta.
  destruct (empty (trim line)); [intros [= <-]; now left|].
  destruct (find ":" (trim line)) as [colonPos|]; [|discriminate].
  intros [= <-]. right. do 2 eexists. split; [reflexivity|]. split; [reflexivity|].
  split; [now rewrite insert_empty|]. split; [apply no_upper_toLower|].
  split; [rewrite <- trim_toLower; apply trim_edge_clean|].
  intros name Hin%list_elem_of_In. apply filter_In in Hin as [Hin Hne].
  apply in_map_iff in Hin as (token & <- & Hin%list_elem_of_In).
  split; [|split].
  - intros E. now rewrite E in Hne.
  - apply trim_edge_clean.
  - apply all_chars_trim, find_comma_none.
    eapply split_tokens_clean; [discriminate | exact Hin].
Qed.

Lemma loadNameLine_throw (line : string) (loaded : gmap string (list string)) :
  loadNameLine line loaded ≠ Undefined
  ∧ ∀ ex, loadNameLine line loaded = Throw ex →
          blank line = false ∧ find ":" (trim line) = None
          ∧ ex = runtime_error ("Expected ':' in name line: " +:+ trim line).
Proof.
  unfold loadNameLine, blank. cbv zeta.
  destruct (empty (trim line)); [split; [discriminate | intros ex; discriminate]|].
  destruct (find ":" (trim line)); [split; [discriminate | intros ex; discriminate]|].
  split; [discriminate|]. intros ex [= <-]. auto.
Qed.

Lemma load_lines_pools (lines : list string) (start loaded : gmap string (list string))
    (key : string) (pool : list string) :
  for_each_line loadNameLine lines start = Ok loaded → loaded !! key = Some pool →
  start !! key = Some pool
  ∨ (no_upper key = true ∧ edge_clean key
     ∧ (∃ line, line ∈ lines ∧ loadNameLine line ∅ = Ok {[key := pool]})
     ∧ ∀ name, name ∈ pool →
               name ≠ "" ∧ edge_clean name ∧ all_chars not_comma name = true).
Proof.
  revert start. induction lines as [|line lines IH]; intros start Hrun Hkey.
  - injection Hrun as <-. now left.
  - cbn [for_each_line] in Hrun.
    destruct (loadNameLine line start) as [next| |] eqn:Hline; try discriminate.
    cbn [mbind outcome_bind] in Hrun.
    destruct (IH next Hrun Hkey) as [Hnext | (Hup & Hclean & (l & Hl & Hload) & Hpool)].
    + apply loadNameLine_inv in Hline
        as [[_ ->] | (key' & pool' & _ & -> & Hload & Hup & Hclean & Hpool)];
        [now left|].
      destruct (decide (key' = key)) as [->|Hne].
      * rewrite lookup_insert_eq in Hnext. injection Hnext as ->.
        right. split; [exact Hup|]. split; [exact Hclean|]. split; [|exact Hpool].
        exists line. split; [left | exact Hload].
      * rewrite lookup_insert_ne in Hnext by assumption. now left.
    + right. split; [exact Hup|]. split; [exact Hclean|]. split; [|exact Hpool].
      exists l. split; [now right | exact Hload].
Qed.

Lemma load_lines_throw (lines : list string) (start : gmap string (list string)) :
  for_each_line loadNameLine lines start ≠ Undefined
  ∧ ∀ ex, for_each_line loadNameLine lines start = Throw ex →
          ∃ line, line ∈ lines ∧ blank line = false ∧ find ":" (trim line) = None
                  ∧ ex = runtime_error ("Expected ':' in name line: " +:+ trim line).
Proof.
  revert start. induction lines as [|line lines IH]; intros start.
  - split; [discriminate | intros ex; discriminate].
  - cbn [for_each_line]. destruct (loadNameLine_throw line start) as [Hdef Hthrow].
    destruct (loadNameLine line start) as [next|ex'|]; cbn [mbind outcome_bind].
    + destruct (IH next) as [Hdef' Hthrow']. split; [exact Hdef'|].
      intros ex (l & Hl & H)%Hthrow'. exists l. split; [now right | exact H].
    + split; [discriminate|]. intros ex [= <-]. exists line. split; [left | now apply Hthrow].
    + contradiction.
Qed.

(** X15.  [loadAnimalNames] fails when the file cannot be opened and at the first
    line that is not blank and has no colon, with the trimmed line in the
    message, and in no other way.  In the pools it returns, every species
    key is trimmed and without capital letters and has the pool of one line
    of the file; every name is trimmed, not empty and without a comma. *)
Theorem loadAnimalNames_pools (path text : string) :
  loadAnimalNames path None = Throw (runtime_error ("Unable to open name file: " +:+ path))
  ∧ loadAnimalNames path (Some text) ≠ Undefined
  ∧ (∀ ex, loadAnimalNames path (Some text) = Throw ex →
           ∃ line, line ∈ getlines text ∧ blank line = false
                   ∧ find ":" (trim line) = None
                   ∧ ex = runtime_error ("Expected ':' in name line: " +:+ trim line))
  ∧ (∀ loaded key pool,
       loadAnimalNames path (Some text) = Ok loaded → loaded !! key = Some pool →
       no_upper key = true ∧ edge_clean key
       ∧ (∃ line, line ∈ getlines text ∧ loadNameLine line ∅ = Ok {[key := pool]})
       ∧ ∀ name, name ∈ pool →
                 name ≠ "" ∧ edge_clean name ∧ all_chars not_comma name = true).
Proof.
  unfold loadAnimalNames. split; [reflexivity|].
  destruct (load_lines_throw (getlines text) ∅) as [Hdef Hthrow].
  split; [exact Hdef|]. split; [exact Hthrow|].
  intros loaded key pool Hrun Hkey.
  destruct (load_lines_pools _ _ _ _ _ Hrun Hkey) as [Hstart | H]; [|exact H].
  now rewrite lookup_empty in Hstart.
Qed.

Lemma loadAnimalNames_pools_witness :
  ∃ loaded, loadAnimalNames namesPath (Some names_kamari) = Ok loaded
            ∧ loaded !! "hyena" = Some ["Kamari"; "Simba"]
            ∧ ∀ name, name ∈ ["Kamari"; "Simba"] → name ≠ "".
Proof.
  eexists. split; [vm_compute; reflexivity|]. split; [vm_compute; reflexivity|].
  intros name Hin.
  exact (proj1 (proj2 (proj2 (proj2
           (proj2 (proj2 (proj2 (loadAnimalNames_pools namesPath names_kamari)))
              _ "hyena" ["Kamari"; "Simba"]
              ltac:(vm_compute; reflexivity) ltac:(vm_compute; reflexivity)))) name Hin)).
Defined.

(** *** An arrival that is accepted *)

Lemma selectSocialGroup_kind (k : AnimalKind) (index : Z) :
  0 <= index → ∃ group, selectSocialGroup (kindSpecies k) index = Ok group.
Proof.
  intros Hindex.
  assert (Hopt : ∃ options, groups !! kindSpecies k = Some options
                            ∧ length options = 4%nat)
    by (destruct k; eexists; split; vm_compute; reflexivity).
  destruct Hopt as (options & Hopt & Hlen).
  unfold selectSocialGroup. rewrite Hopt.
  destruct options as [|o options']; [discriminate|]. rewrite Hlen.
  change (Z.of_nat 4) with 4. rewrite Z.rem_mod_nonneg by lia.
  pose proof (Z.mod_pos_bound index 4 ltac:(lia)) as Hm.
  destruct (Z.ltb_spec (index mod 4) 0); [lia|].
  destruct (lookup_lt_is_Some_2 (o :: options') (Z.to_nat (index mod 4))) as [g Hg];
    [rewrite Hlen; lia|].
  exists g. now rewrite Hg.
Qed.

Lemma map_at_fst {V : Type} (key : string) (dflt : V) (m : gmap string V) :
  (map_at key dflt m).1 = default dflt (m !! key).
Proof. unfold map_at. now destruct (m !! key). Qed.

Lemma map_at_insert {V : Type} (key : string) (dflt v : V) (m : gmap string V) :
  <[key := v]> (map_at key dflt m).2 = <[key := v]> m.
Proof.
  unfold map_at. destruct (m !! key); cbn [snd]; [reflexivity|].
  apply insert_insert_eq.
Qed.

(** Reads the fields of a parsed row that is given by its constructor. *)
Ltac row_fields :=
  cbn [mbind outcome_bind species age sex color weight origin arrivalDate birthSeason].

Lemma sentence_not_empty (date rest : string) : empty (date +:+ ", " +:+ rest) = false.
Proof. now destruct date. Qed.

(** X16.  A line that holds, between white space, an arrival sentence of the
    documented format for one of the four species, in any letter case, is
    accepted whenever its date parses and the counters of the species have
    room: the animal is built from the fields of the sentence, with the next
    identifier and the next name of its species, and is added at the end of
    the animals and of its habitat; each counter of the species goes up by
    one. *)
Theorem processArrival_accepts (line date : string) (age : Z)
    (years old sex species : string) (born_in : bool) (season color : string)
    (weight : Z) (origin : string) (k : AnimalKind) (arrival : Date) (zoo : Zoo) :
  trim line
  = arrival_sentence date age years old sex species born_in season color weight origin →
  all_chars not_comma date = true →
  0 <= age <= INT_MAX →
  is_word years = true → is_word old = true →
  is_word sex = true → is_word species = true →
  is_word season = true → is_word color = true →
  0 <= weight <= INT_MAX →
  edge_clean origin →
  toLower species = kindSpecies k →
  parseIsoDate (trim date) = Ok arrival →
  INT_MIN <= year arrival - age →
  0 <= default 0 (idCounters zoo !! kindPrefix k) < INT_MAX →
  0 <= default 0 (speciesCounts zoo !! kindSpecies k) < INT_MAX →
  ∃ group birthDate,
    selectSocialGroup (kindSpecies k) (default 0 (speciesCounts zoo !! kindSpecies k))
    = Ok group
    ∧ genBirthDay age (if born_in then toLower season else season) (trim date)
      = Ok birthDate
    ∧ let created :=
        make_animal k (popNextName (names zoo) (kindSpecies k)).1
          (kindPrefix k +:+ setw_fill 2 "0"
             (show_int (default 0 (idCounters zoo !! kindPrefix k) + 1)))
          age (toLower sex) color weight origin (trim date) birthDate group in
      processArrival line zoo
      = Ok {| names := (popNextName (names zoo) (kindSpecies k)).2;
              animals := animals zoo ++ [created];
              animalsByHabitat :=
                <[habitatName created :=
                    default [] (animalsByHabitat zoo !! habitatName created) ++ [created]]>
                  (animalsByHabitat zoo);
              idCounters :=
                <[kindPrefix k := default 0 (idCounters zoo !! kindPrefix k) + 1]>
                  (idCounters zoo);
              speciesCounts :=
                <[kindSpecies k := default 0 (speciesCounts zoo !! kindSpecies k) + 1]>
                  (speciesCounts zoo) |}.
Proof.
  intros Hline Hdate Hage Hyears Hold Hsex Hspecies Hseason Hcolor Hweight Horigin
    Hkind Harrival Hyear Hids Hcounts.
  destruct (selectSocialGroup_kind k _ (proj1 Hcounts)) as [group Hgroup].
  destruct (parseIsoDate_in_int _ _ Harrival) as (Hy%in_int_range & _).
  pose proof (genBirthDay_unfold age (if born_in then toLower season else season)
                (trim date) arrival Harrival ltac:(lia)) as Hbirth.
  eexists group, _. split; [exact Hgroup|]. split; [exact Hbirth|].
  cbv zeta. unfold processArrival. cbv zeta. rewrite Hline.
  unfold arrival_sentence at 1. rewrite sentence_not_empty.
  rewrite parseArrivalRow_sentence by assumption.
  row_fields.
  rewrite Hkind. unfold genUniqueId. rewrite speciesPrefix_kind.
  cbn [mbind outcome_bind]. rewrite int_checked_ok by (unfold INT_MIN; lia).
  cbn [mbind outcome_bind].
  rewrite (surjective_pairing (popNextName (names zoo) (kindSpecies k))).
  rewrite Hbirth. cbn [mbind outcome_bind].
  pose proof (map_at_fst (kindSpecies k) 0 (speciesCounts zoo)) as Hindex.
  pose proof (map_at_insert (kindSpecies k) 0
                (default 0 (speciesCounts zoo !! kindSpecies k) + 1) (speciesCounts zoo))
    as Hcount.
  destruct (map_at (kindSpecies k) 0 (speciesCounts zoo)) as [index counts].
  cbn [fst snd] in Hindex, Hcount. subst index.
  rewrite Hgroup. cbn [mbind outcome_bind].
  rewrite (createAnimal_kind _ _ _ _ _ k) by reflexivity.
  row_fields.
  rewrite int_checked_ok by (unfold INT_MIN; lia). cbn [mbind outcome_bind].
  rewrite Hcount.
  set (created := make_animal k _ _ _ _ _ _ _ _ _ _).
  pose proof (map_at_fst (habitatName created) [] (animalsByHabitat zoo)) as Hocc.
  pose proof (map_at_insert (habitatName created) []
                (default [] (animalsByHabitat zoo !! habitatName created) ++ [created])
                (animalsByHabitat zoo)) as Hhab.
  destruct (map_at (habitatName created) [] (animalsByHabitat zoo)) as [occupants index].
  cbn [fst snd] in Hocc, Hhab. subst occupants. now rewrite Hhab.
Qed.

Lemma processArrival_accepts_witness :
  ∃ zoo, processArrival arrival_zuri (emptyZoo ∅) = Ok zoo
         ∧ reportLine <$> animals zoo
           = ["Li01; Unnamed lion; birth date 2019-12-15; golden color; male; 190 pounds; from Zanzibar, Tanzania; arrived 2024-04-02"].
Proof.
  destruct (processArrival_accepts arrival_zuri "2024-04-02" 5 "years" "old" "Male" "LION"
              true "Winter" "golden" 190 "Zanzibar, Tanzania" Lion
              {| year := 2024; month := 4; day := 2 |} (emptyZoo ∅))
    as (group & birthDate & _ & Hbirth & Hrun);
    [vm_compute; reflexivity | reflexivity | unfold INT_MAX; lia
    | reflexivity | reflexivity | reflexivity | reflexivity | reflexivity | reflexivity
    | unfold INT_MAX; lia | split; reflexivity | reflexivity | vm_compute; reflexivity
    | unfold INT_MIN; simpl; lia | vm_compute; split; [discriminate | reflexivity]
    | vm_compute; split; [discriminate | reflexivity] |].
  eexists. split; [exact Hrun|].
  assert (Hb : birthDate = "2019-12-15")
    by (vm_compute in Hbirth; injection Hbirth as <-; reflexivity).
  subst birthDate. vm_compute. reflexivity.
Defined.
